(** * A model of [vector.h]: [RawMemory<T>] and [Vector<T>]

    The header implements a growable array on top of a block of raw storage.
    What matters for its contract is which slots of a block hold a live object
    and which are raw memory, in which order the element type's constructors,
    assignments and destructors run, and what is left behind when one of them
    throws.  The model therefore keeps

    - a heap of blocks, a block being a list of slots, each raw or live;
    - pointers as a block address and an offset ([T*]), with a null pointer;
    - a trace of the element operations that ran, oldest first;
    - an outcome for every call: normal return, an exception in flight,
      undefined behaviour (a failed [assert], a broken precondition of a
      standard algorithm), or a call that has no instantiation.

    [size_t] values are natural numbers.  The subtraction of the header that
    can wrap, [size_ - 1] at [size_ == 0], is written out where it occurs, and
    so is the product [n * sizeof(T)] that [Allocate] hands to [operator new],
    which wraps for a large [n]; sums and doublings of the sizes of vectors
    that exist are taken not to overflow.  The width of [size_t], the size of
    an element and the requests that [operator new] turns down with
    [std::bad_alloc] belong to the platform, which is a parameter of the
    model.  A statement that names no platform is about the one that is never
    the limit: it describes the runs in which no request wraps or is turned
    down.

    Arguments of a call are passed by value: the caller's object behind a
    reference parameter is not part of the model, and a reference argument is
    taken not to alias an element of the vector it is given to. *)

From Stdlib Require Import ZArith.
From stdpp Require Import base option list gmap fin_maps.

(** ** Calls *)

(** How a call ends.  [St] is the state the call works on: the memory alone
    for the standard algorithms, [*this] and the memory for a member function
    of [Vector].  An exception in flight carries the state it leaves behind;
    after undefined behaviour there is no state to speak of. *)
Inductive outcome (St A : Type) :=
| Ok (s : St) (a : A)
| Throw (s : St)
| Undefined
| IllFormed.

Arguments Ok {St A} s a.
Arguments Throw {St A} s.
Arguments Undefined {St A}.
Arguments IllFormed {St A}.

Definition M (St A : Type) := St -> outcome St A.

Definition ret {St A} (a : A) : M St A := fun s => Ok s a.

Definition bind {St A B} (m : M St A) (f : A -> M St B) : M St B :=
  fun s =>
    match m s with
    | Ok s' a => f a s'
    | Throw s' => Throw s'
    | Undefined => Undefined
    | IllFormed => IllFormed
    end.

Notation "x <- m ;; k" := (bind m (fun x => k))
  (at level 100, m at next level, k at level 200, right associativity).
Notation "m ;; k" := (bind m (fun _ => k))
  (at level 100, k at level 200, right associativity).

Definition throw {St A} : M St A := fun s => Throw s.
Definition undefined {St A} : M St A := fun _ => Undefined.
Definition ill_formed {St A} : M St A := fun _ => IllFormed.

(** [assert(b)] *)
Definition assert {St} (b : Prop) `{Decision b} : M St unit :=
  if decide b then ret tt else undefined.

(** [try { m } catch (...) { h; throw; }]; also the destructor [h] of a local
    object running while an exception leaves its scope *)
Definition on_throw {St A} (m : M St A) (h : M St unit) : M St A :=
  fun s =>
    match m s with
    | Throw s' =>
        match h s' with
        | Ok s'' _ => Throw s''
        | Throw s'' => Throw s''
        | Undefined => Undefined
        | IllFormed => IllFormed
        end
    | r => r
    end.

(** [for (size_t i = from; i < from + n; ++i) body(i)] *)
Fixpoint for_loop {St} (from n : nat) (body : nat -> M St unit) : M St unit :=
  match n with
  | 0 => ret tt
  | S n' => body from ;; for_loop (S from) n' body
  end.

(** The right-hand side of an assignment [a = b]: [*this] itself
    ([this == &b]) or another object. *)
Inductive operand (A : Type) :=
| Itself
| Another (a : A).

Arguments Itself {A}.
Arguments Another {A} a.

(** Blocks of memory are known by a number. *)
Abbreviation addr := nat (only parsing).

(** ** The element type *)

(** What the container needs to know about [T].  A copy yields an equal
    object; a move yields an equal object and leaves [moved_from x] behind.
    Each operation may throw, depending on the objects involved. *)
Class Element (T : Type) := {
  ctor_arg : Type;
  (** [T()]: the value-initialised object, or [None] when that throws *)
  value_init : option T;
  (** [T(a)] for a constructor argument that is not a [T] *)
  ctor_from : ctor_arg -> option T;
  (** [T(const T&)] throws on this source *)
  copy_throws : T -> bool;
  (** [T(T&&)] throws on this source *)
  move_throws : T -> bool;
  (** [dst = src] throws *)
  copy_assign_throws : T -> T -> bool;
  (** [dst = std::move(src)] throws *)
  move_assign_throws : T -> T -> bool;
  (** the state a moved-from object is left in *)
  moved_from : T -> T;
  (** [std::is_nothrow_move_constructible_v<T>] *)
  nothrow_move_constructible : bool;
  (** [std::is_copy_constructible_v<T>] *)
  copy_constructible : bool;
}.

(** ** The platform *)

(** [Allocate] asks [operator new] for [n * sizeof(T)] bytes, a product that
    is formed in [size_t].  How wide [size_t] is, how large a [T] is and
    which requests [operator new] turns down is the platform's business. *)
Class Platform (T : Type) := {
  (** [sizeof(T)], which is at least 1 *)
  sizeof : nat;
  (** [SIZE_MAX + 1]: arithmetic in [size_t] is modulo this number.  [None]
      stands for a [size_t] wide enough for every number that occurs. *)
  size_t_range : option nat;
  (** [operator new(bytes)] throws [std::bad_alloc] *)
  new_throws : nat -> bool;
}.

(** The platform that is never the limit: no product wraps and every request
    is served.  It is the platform of every statement that names none. *)
#[global] Instance roomy (T : Type) : Platform T := {|
  sizeof := 1;
  size_t_range := None;
  new_throws := fun _ => false;
|}.

Section Model.

Context {T : Type} `{Element T} {P : Platform T}.

(** ** Memory *)

Inductive slot :=
| Raw
| Live (x : T).

Inductive ptr :=
| Null
| Ptr (b : addr) (off : nat).

(** [p + k] *)
Definition ptr_add (p : ptr) (k : nat) : ptr :=
  match p with
  | Null => Null
  | Ptr b off => Ptr b (off + k)
  end.

(** What the element type was asked to do, with the objects involved: [x] is
    the object a constructor built or a destructor ended, [dst] the value an
    assignment overwrote and [src] the value it assigned. *)
Inductive event :=
| EvValueCtor (x : T)
| EvArgCtor (a : ctor_arg) (x : T)
| EvCopyCtor (x : T)
| EvMoveCtor (x : T)
| EvCopyAssign (dst src : T)
| EvMoveAssign (dst src : T)
| EvDtor (x : T).

Record world := World {
  heap : gmap addr (list slot);
  trace : list event;
}.

(** ** Objects in memory *)

Definition emit (e : event) : M world unit :=
  fun w => Ok (World (heap w) (trace w ++ [e])) tt.

Definition read_slot (p : ptr) : M world slot :=
  fun w =>
    match p with
    | Null => Undefined
    | Ptr b i =>
        match heap w !! b with
        | Some blk =>
            match blk !! i with
            | Some s => Ok w s
            | None => Undefined
            end
        | None => Undefined
        end
    end.

Definition write_slot (p : ptr) (s : slot) : M world unit :=
  fun w =>
    match p with
    | Null => Undefined
    | Ptr b i =>
        match heap w !! b with
        | Some blk =>
            if decide (i < length blk)
            then Ok (World (<[b := <[i := s]> blk]> (heap w)) (trace w)) tt
            else Undefined
        | None => Undefined
        end
    end.

(** the object [p] points to: the slot must hold one *)
Definition load (p : ptr) : M world T :=
  s <- read_slot p ;;
  match s with
  | Live x => ret x
  | Raw => undefined
  end.

(** [p - q], for two pointers into one array with [q] not after [p] *)
Definition ptr_diff {St} (p q : ptr) : M St nat :=
  match p, q with
  | Null, Null => ret 0
  | Ptr b i, Ptr b' j =>
      if decide (b = b' /\ j <= i) then ret (i - j) else undefined
  | _, _ => undefined
  end.

(** [p - 1] *)
Definition ptr_dec {St} (p : ptr) : M St ptr :=
  match p with
  | Ptr b (S i) => ret (Ptr b i)
  | _ => undefined
  end.

(** ** Operations of the element type *)

(** The arguments a constructor call forwards.  The header only ever forwards
    nothing, one [T] (by one of three kinds of reference), or arguments of
    some other type. *)
Inductive pack :=
| NoArgs
| ConstRef (x : T)
| LvalueRef (x : T)
| Rvalue (x : T)
| OtherArgs (a : ctor_arg).

(** The object that [T(std::forward<Args>(args)...)] builds, or [None] when
    the constructor throws.  Overload resolution takes the copy constructor
    for either lvalue reference and the move constructor for an rvalue.  The
    object moved from belongs to the caller and is not tracked. *)
Definition built (args : pack) : option T :=
  match args with
  | NoArgs => value_init
  | ConstRef x | LvalueRef x => if copy_throws x then None else Some x
  | Rvalue x => if move_throws x then None else Some x
  | OtherArgs a => ctor_from a
  end.

(** The constructor that ran, for the trace *)
Definition ctor_event (args : pack) (x : T) : event :=
  match args with
  | NoArgs => EvValueCtor x
  | ConstRef _ | LvalueRef _ => EvCopyCtor x
  | Rvalue _ => EvMoveCtor x
  | OtherArgs a => EvArgCtor a x
  end.

(** [T(std::forward<Args>(args)...)] *)
Definition construct (args : pack) : M world T :=
  match built args with
  | Some x => emit (ctor_event args x) ;; ret x
  | None => throw
  end.

(** [new (p) T(args...)]: [p] must point into storage *)
Definition construct_at (p : ptr) (args : pack) : M world unit :=
  read_slot p ;;
  x <- construct args ;;
  write_slot p (Live x).

(** [new (p) T(x)] for the object [x] that [src] points to *)
Definition copy_construct_at (p src : ptr) : M world unit :=
  x <- load src ;;
  construct_at p (ConstRef x).

(** [new (p) T(std::move(x))] for the object [x] that [src] points to *)
Definition move_construct_at (p src : ptr) : M world unit :=
  x <- load src ;;
  construct_at p (Rvalue x) ;;
  write_slot src (Live (moved_from x)).

(** [std::destroy_at(p)], [p->~T()].  Destructors do not throw. *)
Definition destroy_at (p : ptr) : M world unit :=
  x <- load p ;;
  emit (EvDtor x) ;;
  write_slot p Raw.

(** [d = x] for the objects [d], [x] that [dst], [src] point to *)
Definition copy_assign_at (dst src : ptr) : M world unit :=
  d <- load dst ;;
  x <- load src ;;
  if copy_assign_throws d x then throw
  else emit (EvCopyAssign d x) ;; write_slot dst (Live x).

(** [d = std::move(x)] for the objects [d], [x] that [dst], [src] point to *)
Definition move_assign_at (dst src : ptr) : M world unit :=
  d <- load dst ;;
  x <- load src ;;
  if move_assign_throws d x then throw
  else
    emit (EvMoveAssign d x) ;;
    write_slot src (Live (moved_from x)) ;;
    write_slot dst (Live x).

(** [d = T(args...)] for the object [d] at [dst]: the temporary is built,
    move-assigned from and destroyed at the end of the statement, also when
    the assignment throws *)
Definition assign_temporary_at (dst : ptr) (args : pack) : M world unit :=
  x <- construct args ;;
  d <- load dst ;;
  if move_assign_throws d x then emit (EvDtor x) ;; throw
  else
    emit (EvMoveAssign d x) ;;
    write_slot dst (Live x) ;;
    emit (EvDtor (moved_from x)).

(** ** Standard algorithms *)

(** [std::destroy_n(first, n)] *)
Fixpoint destroy_n (first : ptr) (n : nat) : M world unit :=
  match n with
  | 0 => ret tt
  | S n' => destroy_at first ;; destroy_n (ptr_add first 1) n'
  end.

(** The loop of [std::uninitialized_value_construct_n(first, n)] with [done]
    objects built so far; when a constructor throws, those are destroyed and
    the exception goes on. *)
Fixpoint uninitialized_value_construct_from (first : ptr) (done n : nat)
  : M world unit :=
  match n with
  | 0 => ret tt
  | S n' =>
      on_throw (construct_at (ptr_add first done) NoArgs)
               (destroy_n first done) ;;
      uninitialized_value_construct_from first (S done) n'
  end.

Definition uninitialized_value_construct_n (first : ptr) (n : nat)
  : M world unit :=
  uninitialized_value_construct_from first 0 n.

(** The loop of [std::uninitialized_copy_n(first, n, d_first)] *)
Fixpoint uninitialized_copy_from (first : ptr) (done n : nat) (d_first : ptr)
  : M world unit :=
  match n with
  | 0 => ret tt
  | S n' =>
      on_throw (copy_construct_at (ptr_add d_first done) (ptr_add first done))
               (destroy_n d_first done) ;;
      uninitialized_copy_from first (S done) n' d_first
  end.

Definition uninitialized_copy_n (first : ptr) (n : nat) (d_first : ptr)
  : M world unit :=
  uninitialized_copy_from first 0 n d_first.

(** The loop of [std::uninitialized_move_n(first, n, d_first)] *)
Fixpoint uninitialized_move_from (first : ptr) (done n : nat) (d_first : ptr)
  : M world unit :=
  match n with
  | 0 => ret tt
  | S n' =>
      on_throw (move_construct_at (ptr_add d_first done) (ptr_add first done))
               (destroy_n d_first done) ;;
      uninitialized_move_from first (S done) n' d_first
  end.

Definition uninitialized_move_n (first : ptr) (n : nat) (d_first : ptr)
  : M world unit :=
  uninitialized_move_from first 0 n d_first.

(** [n] steps of: move-assign the object at [first] to the one at
    [d_first], advance both *)
Fixpoint move_forward (first : ptr) (n : nat) (d_first : ptr) : M world unit :=
  match n with
  | 0 => ret tt
  | S n' =>
      move_assign_at d_first first ;;
      move_forward (ptr_add first 1) n' (ptr_add d_first 1)
  end.

(** [std::move(first, last, d_first)]; [[first, last)] must be a range *)
Definition std_move (first last d_first : ptr) : M world unit :=
  n <- ptr_diff last first ;;
  move_forward first n d_first.

(** [n] steps of: step [last] and [d_last] back, move-assign the object at
    [last] to the one at [d_last] *)
Fixpoint move_backward_steps (last : ptr) (n : nat) (d_last : ptr)
  : M world unit :=
  match n with
  | 0 => ret tt
  | S n' =>
      last' <- ptr_dec last ;;
      d_last' <- ptr_dec d_last ;;
      move_assign_at d_last' last' ;;
      move_backward_steps last' n' d_last'
  end.

(** [std::move_backward(first, last, d_last)]; [[first, last)] must be a
    range *)
Definition move_backward (first last d_last : ptr) : M world unit :=
  n <- ptr_diff last first ;;
  move_backward_steps last n d_last.

(** ** [RawMemory<T>] *)

Record RawMemory := MkRawMemory {
  buffer_ : ptr;
  capacity_ : nat;
}.

(** The address [operator new] returns next: one that no allocated block
    has *)
Definition new_block (w : world) : addr := fresh (dom (heap w)).

(** [n * sizeof(T)] as [size_t] computes it *)
Definition request (n : nat) : nat :=
  match size_t_range with
  | Some range => (n * sizeof) mod range
  | None => n * sizeof
  end.

(** [Allocate(n)]: [n != 0 ? operator new(n * sizeof(T)) : nullptr].  When
    [operator new] does not throw, it returns a block of as many bytes as it
    was asked for, which has room for that many bytes divided by
    [sizeof(T)] objects: fewer than [n] when the product has wrapped. *)
Definition Allocate (n : nat) : M world ptr :=
  fun w =>
    if decide (n = 0) then Ok w Null
    else if new_throws (request n) then Throw w
    else
      Ok (World (<[new_block w := replicate (request n / sizeof) Raw]> (heap w))
                (trace w))
         (Ptr (new_block w) 0).

(** [Deallocate(buf)]: [operator delete(buf)], which takes a null pointer or
    the start of an allocated block *)
Definition Deallocate (buf : ptr) : M world unit :=
  fun w =>
    match buf with
    | Null => Ok w tt
    | Ptr a 0 =>
        match heap w !! a with
        | Some _ => Ok (World (delete a (heap w)) (trace w)) tt
        | None => Undefined
        end
    | Ptr _ (S _) => Undefined
    end.

(** [RawMemory() = default] *)
Definition RawMemory_default : RawMemory := MkRawMemory Null 0.

(** [explicit RawMemory(size_t capacity)] *)
Definition RawMemory_new (capacity : nat) : M world RawMemory :=
  buf <- Allocate capacity ;;
  ret (MkRawMemory buf capacity).

(** [RawMemory(RawMemory&& other) noexcept]: the new object, and [other]
    after the call *)
Definition RawMemory_move (other : RawMemory) : RawMemory * RawMemory :=
  (MkRawMemory (buffer_ other) (capacity_ other), MkRawMemory Null 0).

(** [std::swap] of two pointers or two [size_t] *)
Definition std_swap {A} (a b : A) : A * A := (b, a).

(** [RawMemory& operator=(RawMemory&& other) noexcept]: [*this] and [other]
    after the call (one object's state twice when [other] is [*this]) *)
Definition RawMemory_move_assign (this : RawMemory) (other : operand RawMemory)
  : RawMemory * RawMemory :=
  match other with
  | Itself => (this, this)
  | Another other =>
      let '(b, ob) := std_swap (buffer_ this) (buffer_ other) in
      let '(c, oc) := std_swap (capacity_ this) (capacity_ other) in
      (MkRawMemory b c, MkRawMemory ob oc)
  end.

(** [~RawMemory()] *)
Definition RawMemory_dtor (this : RawMemory) : M world unit :=
  Deallocate (buffer_ this).

(** [T* operator+(size_t offset) noexcept] *)
Definition RawMemory_plus {St} (this : RawMemory) (offset : nat) : M St ptr :=
  assert (offset <= capacity_ this) ;;
  ret (ptr_add (buffer_ this) offset).

(** [T& operator[](size_t index) noexcept]: the reference as a pointer *)
Definition RawMemory_at {St} (this : RawMemory) (index : nat) : M St ptr :=
  assert (index < capacity_ this) ;;
  ret (ptr_add (buffer_ this) index).

(** [void Swap(RawMemory& other) noexcept] *)
Definition RawMemory_Swap (this other : RawMemory) : RawMemory * RawMemory :=
  let '(b, ob) := std_swap (buffer_ this) (buffer_ other) in
  let '(c, oc) := std_swap (capacity_ this) (capacity_ other) in
  (MkRawMemory b c, MkRawMemory ob oc).

Definition GetAddress (this : RawMemory) : ptr := buffer_ this.

Definition RawMemory_Capacity (this : RawMemory) : nat := capacity_ this.

(** [std::swap(a, b)] on two [RawMemory]: [tmp(std::move(a))],
    [a = std::move(b)], [b = std::move(tmp)], then [tmp] dies *)
Definition std_swap_RawMemory (a b : RawMemory)
  : M world (RawMemory * RawMemory) :=
  let '(tmp, a) := RawMemory_move a in
  let '(a, b) := RawMemory_move_assign a (Another b) in
  let '(b, tmp) := RawMemory_move_assign b (Another tmp) in
  RawMemory_dtor tmp ;;
  ret (a, b).

(** ** [Vector<T>] *)

Record Vector := MkVector {
  data_ : RawMemory;
  size_ : nat;
}.

(** A member function works on [*this] and the memory. *)
Definition method := M (Vector * world).

Definition this : method Vector := fun s => Ok s (fst s).

Definition set_data_ (d : RawMemory) : method unit :=
  fun s => Ok (MkVector d (size_ (fst s)), snd s) tt.

Definition set_size_ (n : nat) : method unit :=
  fun s => Ok (MkVector (data_ (fst s)) n, snd s) tt.

(** A call that works on the memory alone, made from a member function *)
Definition in_memory {A} (m : M world A) : method A :=
  fun s =>
    match m (snd s) with
    | Ok w a => Ok (fst s, w) a
    | Throw w => Throw (fst s, w)
    | Undefined => Undefined
    | IllFormed => IllFormed
    end.

Definition Size (v : Vector) : nat := size_ v.

Definition Capacity (v : Vector) : nat := RawMemory_Capacity (data_ v).

Definition begin (v : Vector) : ptr := GetAddress (data_ v).

Definition end_ (v : Vector) : ptr := ptr_add (GetAddress (data_ v)) (size_ v).

(** [Vector() = default] *)
Definition Vector_default : Vector := MkVector RawMemory_default 0.

(** [explicit Vector(size_t size)].  When the body throws, the member
    [data_] is destroyed and no vector comes into being. *)
Definition Vector_sized (size : nat) : M world Vector :=
  data <- RawMemory_new size ;;
  on_throw (uninitialized_value_construct_n (GetAddress data) size)
           (RawMemory_dtor data) ;;
  ret (MkVector data size).

(** [Vector(const Vector& other)] *)
Definition Vector_copy (other : Vector) : M world Vector :=
  data <- RawMemory_new (size_ other) ;;
  on_throw (uninitialized_copy_n (GetAddress (data_ other)) (size_ other)
                                 (GetAddress data))
           (RawMemory_dtor data) ;;
  ret (MkVector data (size_ other)).

(** [Vector(Vector&& other) noexcept]: the new vector, and [other] after the
    call *)
Definition Vector_move (other : Vector) : M world (Vector * Vector) :=
  let '(data, other_data) := RawMemory_move (data_ other) in
  ret (MkVector data (size_ other), MkVector other_data 0).

(** [~Vector()], followed by the destructor of the member [data_] *)
Definition Vector_dtor (v : Vector) : M world unit :=
  destroy_n (GetAddress (data_ v)) (size_ v) ;;
  RawMemory_dtor (data_ v).

(** [Vector& operator=(Vector&& rhs) noexcept]; the result is [rhs] after
    the call *)
Definition Vector_move_assign (rhs : operand Vector) : method Vector :=
  v <- this ;;
  match rhs with
  | Itself => ret v
  | Another rhs =>
      let '(data, rhs_data) :=
        RawMemory_move_assign (data_ v) (Another (data_ rhs)) in
      set_data_ data ;;
      set_size_ (size_ rhs) ;;
      ret (MkVector rhs_data 0)
  end.

(** [void Swap(Vector& other) noexcept], for another vector; the result is
    [other] after the call *)
Definition Swap (other : Vector) : method Vector :=
  v <- this ;;
  r <- in_memory (std_swap_RawMemory (data_ v) (data_ other)) ;;
  let '(n, on) := std_swap (size_ v) (size_ other) in
  set_data_ (fst r) ;;
  set_size_ n ;;
  ret (MkVector (snd r) on).

(** [Vector& operator=(const Vector& rhs)] *)
Definition Vector_copy_assign (rhs : operand Vector) : method unit :=
  v <- this ;;
  match rhs with
  | Itself => ret tt
  | Another rhs =>
      if decide (Capacity v < size_ rhs) then
        rhs_copy <- in_memory (Vector_copy rhs) ;;
        rhs_copy <- Swap rhs_copy ;;
        in_memory (Vector_dtor rhs_copy)
      else
        (if decide (size_ rhs < size_ v) then
           for_loop (size_ rhs) (size_ v - size_ rhs) (fun i =>
             in_memory (destroy_at (ptr_add (GetAddress (data_ v)) i)))
         else ret tt) ;;
        for_loop 0 (size_ v `min` size_ rhs) (fun i =>
          dst <- RawMemory_at (data_ v) i ;;
          src <- RawMemory_at (data_ rhs) i ;;
          in_memory (copy_assign_at dst src)) ;;
        (if decide (size_ v < size_ rhs) then
           in_memory (uninitialized_copy_n
                        (ptr_add (GetAddress (data_ rhs)) (size_ v))
                        (size_ rhs - size_ v)
                        (ptr_add (GetAddress (data_ v)) (size_ v)))
         else ret tt) ;;
        set_size_ (size_ rhs)
  end.

(** [std::is_nothrow_move_constructible_v<T> ||
    !std::is_copy_constructible_v<T>] *)
Definition relocates_by_move : bool :=
  nothrow_move_constructible || negb copy_constructible.

(** [void CopyOrMove(T* from, size_t size, T* to)] *)
Definition CopyOrMove (from : ptr) (size : nat) (to : ptr) : M world unit :=
  (if relocates_by_move
   then uninitialized_move_n from size to
   else uninitialized_copy_n from size to) ;;
  destroy_n from size.

(** A block with the local [RawMemory<T> new_data(capacity)].  [body] returns
    what [new_data] holds when the block ends, and the destructor releases
    that.  The header changes [new_data] only by the [Swap] that ends each
    such block, so an exception always meets [new_data] as it was allocated. *)
Definition with_new_data (capacity : nat) (body : RawMemory -> method RawMemory)
  : method unit :=
  new_data <- in_memory (RawMemory_new capacity) ;;
  new_data' <- on_throw (body new_data) (in_memory (RawMemory_dtor new_data)) ;;
  in_memory (RawMemory_dtor new_data').

(** [void Reserve(size_t new_capacity)] *)
Definition Reserve (new_capacity : nat) : method unit :=
  v <- this ;;
  if decide (new_capacity <= Capacity v) then ret tt
  else
    with_new_data new_capacity (fun new_data =>
      in_memory (CopyOrMove (GetAddress (data_ v)) (size_ v)
                            (GetAddress new_data)) ;;
      let '(data, new_data) := RawMemory_Swap (data_ v) new_data in
      set_data_ data ;;
      ret new_data).

(** [void Resize(size_t new_size)] *)
Definition Resize (new_size : nat) : method unit :=
  v <- this ;;
  if decide (size_ v = new_size) then ret tt
  else
    (if decide (size_ v < new_size) then
       Reserve new_size ;;
       v <- this ;;
       in_memory (uninitialized_value_construct_n
                    (ptr_add (GetAddress (data_ v)) (size_ v))
                    (new_size - size_ v))
     else
       in_memory (destroy_n (ptr_add (GetAddress (data_ v)) new_size)
                            (size_ v - new_size))) ;;
    set_size_ new_size.

(** [size_ == 0 ? 1 : size_ * 2] *)
Definition grown_capacity (size : nat) : nat :=
  if decide (size = 0) then 1 else size * 2.

(** [template <typename... Args> T& EmplaceBack(Args&&... args)]; the
    reference returned is a pointer *)
Definition EmplaceBack (args : pack) : method ptr :=
  v <- this ;;
  (if decide (size_ v = Capacity v) then
     with_new_data (grown_capacity (size_ v)) (fun new_data =>
       p <- RawMemory_plus new_data (size_ v) ;;
       in_memory (construct_at p args) ;;
       in_memory (CopyOrMove (GetAddress (data_ v)) (size_ v)
                             (GetAddress new_data)) ;;
       let '(data, new_data) := RawMemory_Swap (data_ v) new_data in
       set_data_ data ;;
       ret new_data)
   else
     p <- RawMemory_plus (data_ v) (size_ v) ;;
     in_memory (construct_at p args)) ;;
  set_size_ (size_ v + 1) ;;
  v <- this ;;
  RawMemory_at (data_ v) (size_ v - 1).

(** [void PushBack(const T& value)] *)
Definition PushBack (value : T) : method unit :=
  EmplaceBack (ConstRef value) ;;
  ret tt.

(** [void PushBack(T&& value)] *)
Definition PushBack_rvalue (value : T) : method unit :=
  EmplaceBack (Rvalue value) ;;
  ret tt.

(** [void PopBack() noexcept].  At [size_ == 0] the pointer
    [data_.GetAddress() + size_ - 1] lies before the array. *)
Definition PopBack : method unit :=
  v <- this ;;
  p <- ptr_dec (ptr_add (GetAddress (data_ v)) (size_ v)) ;;
  in_memory (destroy_n p 1) ;;
  set_size_ (size_ v - 1).

(** [T& operator[](size_t index) noexcept] *)
Definition Vector_at (index : nat) : method ptr :=
  v <- this ;;
  assert (index < size_ v) ;;
  RawMemory_at (data_ v) index.

(** [data_[size_ - 1]]: at [size_ == 0] the index wraps to the largest
    [size_t], which no capacity exceeds, so the [assert] of [operator[]]
    fails *)
Definition last_element {St} (v : Vector) : M St ptr :=
  if decide (size_ v = 0) then undefined
  else RawMemory_at (data_ v) (size_ v - 1).

(** [std::forward(args)...], written without the template argument.  The
    parameter of [std::forward] is a non-deduced context, so the call has no
    instantiation; only an empty pack, whose expansion is empty, gets by. *)
Definition forward_undeduced {St} (args : pack) : M St pack :=
  match args with
  | NoArgs => ret NoArgs
  | _ => ill_formed
  end.

(** [template <typename... Args> iterator Relocate(const_iterator pos,
    Args&&... args)] *)
Definition Relocate (pos : ptr) (args : pack) : method ptr :=
  v <- this ;;
  index <- ptr_diff pos (begin v) ;;
  with_new_data (grown_capacity (size_ v)) (fun new_data =>
    p <- RawMemory_plus new_data index ;;
    in_memory (construct_at p args) ;;
    in_memory (CopyOrMove (GetAddress (data_ v)) index (GetAddress new_data)) ;;
    from <- RawMemory_plus (data_ v) index ;;
    to <- RawMemory_plus new_data (index + 1) ;;
    in_memory (CopyOrMove from (size_ v - index) to) ;;
    let '(data, new_data) := RawMemory_Swap (data_ v) new_data in
    set_data_ data ;;
    ret new_data) ;;
  set_size_ (size_ v + 1) ;;
  v <- this ;;
  ret (ptr_add (begin v) index).

(** [template <typename... Args> iterator Emplace(const_iterator pos,
    Args&&... args)].  A function template is instantiated as a whole: the
    expression [std::forward(args)...] of the first branch stands in its
    body, so for a pack that is not empty [Emplace<Args...>] has no
    instantiation and no call compiles, whatever the state would be at run
    time.  That is settled before anything runs. *)
Definition Emplace (pos : ptr) (args : pack) : method ptr :=
  forwarded <- forward_undeduced args ;;
  v <- this ;;
  if decide (size_ v = Capacity v) then
    Relocate pos forwarded
  else
    index <- ptr_diff pos (begin v) ;;
    last <- last_element v ;;
    in_memory (move_construct_at (end_ v) last) ;;
    before_end <- ptr_dec (end_ v) ;;
    in_memory (move_backward (ptr_add (begin v) index) before_end (end_ v)) ;;
    p <- RawMemory_at (data_ v) index ;;
    in_memory (assign_temporary_at p args) ;;
    set_size_ (size_ v + 1) ;;
    ret (ptr_add (begin v) index).

(** [iterator Erase(const_iterator pos)] *)
Definition Erase (pos : ptr) : method ptr :=
  v <- this ;;
  index <- ptr_diff pos (begin v) ;;
  in_memory (std_move (ptr_add (ptr_add (begin v) index) 1) (end_ v)
                      (ptr_add (begin v) index)) ;;
  last <- last_element v ;;
  in_memory (destroy_at last) ;;
  set_size_ (size_ v - 1) ;;
  ret (ptr_add (begin v) index).

(** [iterator Insert(const_iterator pos, const T& value)] *)
Definition Insert (pos : ptr) (value : T) : method ptr :=
  Emplace pos (ConstRef value).

(** [iterator Insert(const_iterator pos, T&& value)]: inside the function
    the named parameter [value] is an lvalue, and [Emplace(pos, value)]
    deduces [Args = T&] *)
Definition Insert_rvalue (pos : ptr) (value : T) : method ptr :=
  Emplace pos (LvalueRef value).

(** A caller's loop: [v.PushBack(x)] for each [x] of [values] in turn,
    noting [(v.Size(), v.Capacity())] after each push *)
Fixpoint PushBack_each (values : list T) : method (list (nat * nat)) :=
  match values with
  | [] => ret []
  | x :: rest =>
      PushBack x ;;
      v <- this ;;
      sizes <- PushBack_each rest ;;
      ret ((Size v, Capacity v) :: sizes)
  end.

End Model.

(** ** Reading the memory *)

Section Layout.

Context {T : Type} `{Element T} {P : Platform T}.

(** A block of [cap] slots whose first slots hold the objects [xs] *)
Definition cells (cap : nat) (xs : list T) : list slot :=
  (Live <$> xs) ++ replicate (cap - length xs) Raw.

(** In the world [w] the vector [v] is in order and holds the elements [xs]:
    its size is their number and not above the capacity; the handle is null
    exactly at capacity 0; otherwise it is the start of an allocated block of
    capacity many slots, live up to the size and raw after it. *)
Definition holds (w : world) (v : Vector) (xs : list T) : Prop :=
  size_ v = length xs /\
  length xs <= capacity_ (data_ v) /\
  match buffer_ (data_ v) with
  | Null => capacity_ (data_ v) = 0
  | Ptr b off =>
      off = 0 /\ 0 < capacity_ (data_ v) /\
      heap w !! b = Some (cells (capacity_ (data_ v)) xs)
  end.

(** Two vectors that do not share a block *)
Definition apart (v1 v2 : Vector) : Prop :=
  match buffer_ (data_ v1), buffer_ (data_ v2) with
  | Ptr a _, Ptr b _ => a <> b
  | _, _ => True
  end.

(** The world [w] with block [b] replaced and the events [es] added *)
Definition put_block (b : addr) (blk : list slot) (es : list event) (w : world)
  : world :=
  World (<[b := blk]> (heap w)) (trace w ++ es).

(** The world [w] with the events [es] added *)
Definition log (es : list event) (w : world) : world :=
  World (heap w) (trace w ++ es).

(** The world [w] without block [b] *)
Definition free_block (b : addr) (w : world) : world :=
  World (delete b (heap w)) (trace w).

(** The constructor [CopyOrMove] uses does not throw on any of [xs] *)
Definition relocatable (xs : list T) : Prop :=
  Forall (fun x => (if relocates_by_move then move_throws x else copy_throws x)
                   = false) xs.

(** The constructors [CopyOrMove] runs on [xs], and then the destructors *)
Definition relocation_ctors (xs : list T) : list event :=
  if relocates_by_move then EvMoveCtor <$> xs else EvCopyCtor <$> xs.

Definition relocation_dtors (xs : list T) : list event :=
  EvDtor <$> (if relocates_by_move then moved_from <$> xs else xs).

(** What a run of move-assignments to the left makes of the objects
    [d :: xs]: each object takes the place before it, and the last place
    keeps what the last move left behind. *)
Fixpoint shifted_left (d : T) (xs : list T) : list T :=
  match xs with
  | [] => [d]
  | x :: xs' => x :: shifted_left (moved_from x) xs'
  end.

(** The move-assignments of that run, in order *)
Fixpoint shift_left_events (d : T) (xs : list T) : list event :=
  match xs with
  | [] => []
  | x :: xs' => EvMoveAssign d x :: shift_left_events (moved_from x) xs'
  end.

(** What the last place keeps after that run *)
Fixpoint left_behind (d : T) (xs : list T) : T :=
  match xs with
  | [] => d
  | x :: xs' => left_behind (moved_from x) xs'
  end.

(** None of the move-assignments of that run throws *)
Fixpoint shift_left_quiet (d : T) (xs : list T) : Prop :=
  match xs with
  | [] => True
  | x :: xs' =>
      move_assign_throws d x = false /\ shift_left_quiet (moved_from x) xs'
  end.

(** The capacities 1, 2, 4, 8, ... by the number of elements pushed: the
    least power of two that is not below [k] *)
Definition doubled_capacity (k : nat) : nat :=
  if decide (k = 0) then 0 else 2 ^ Nat.log2_up k.

(** The call [m] leaves the members of [*this] as they are, however it
    ends *)
Definition keeps_this {A} (m : method A) : Prop :=
  forall v w,
    match m (v, w) with
    | Ok s _ | Throw s => fst s = v
    | Undefined | IllFormed => True
    end.

(** The request for [n] objects is served in full: the product does not
    wrap and [operator new] does not throw *)
Definition served (n : nat) : Prop :=
  0 < sizeof /\ request n = n * sizeof /\ new_throws (request n) = false.

(** Whether an event is the construction of an object *)
Definition is_construction (e : event) : bool :=
  match e with
  | EvValueCtor _ | EvArgCtor _ _ | EvCopyCtor _ | EvMoveCtor _ => true
  | EvCopyAssign _ _ | EvMoveAssign _ _ | EvDtor _ => false
  end.

(** The number of objects constructed in the course of [es] *)
Definition constructions (es : list event) : nat :=
  length (List.filter is_construction es).

End Layout.

(** ** Element types *)

(** A class around an [int] whose default constructor always throws; it can
    be built from an [int], copied and moved without trouble. *)
Record demanding := Demanding { held : Z }.

#[global] Instance demanding_element : Element demanding := {|
  ctor_arg := Z;
  value_init := None;
  ctor_from := fun a => Some (Demanding a);
  copy_throws := fun _ => false;
  move_throws := fun _ => false;
  copy_assign_throws := fun _ _ => false;
  move_assign_throws := fun _ _ => false;
  moved_from := fun x => x;
  nothrow_move_constructible := true;
  copy_constructible := true;
|}.

(** [int]: nothing throws, and a moved-from [int] keeps its value. *)
#[global] Instance int_element : Element Z := {|
  ctor_arg := Z;
  value_init := Some 0%Z;
  ctor_from := fun a => Some a;
  copy_throws := fun _ => false;
  move_throws := fun _ => false;
  copy_assign_throws := fun _ _ => false;
  move_assign_throws := fun _ _ => false;
  moved_from := fun x => x;
  nothrow_move_constructible := true;
  copy_constructible := true;
|}.

(** A class around an [int] that is awkward on purpose: the constructor from
    an [int] throws on a negative argument, copying the value 13 throws, a
    moved-from object holds 0, and the move constructor is not [noexcept],
    so that [CopyOrMove] copies. *)
Record fragile := Fragile { payload : Z }.

#[global] Instance fragile_element : Element fragile := {|
  ctor_arg := Z;
  value_init := Some (Fragile 0);
  ctor_from := fun a => if decide (a < 0)%Z then None else Some (Fragile a);
  copy_throws := fun x => bool_decide (payload x = 13%Z);
  move_throws := fun _ => false;
  copy_assign_throws := fun _ x => bool_decide (payload x = 13%Z);
  move_assign_throws := fun _ _ => false;
  moved_from := fun _ => Fragile 0;
  nothrow_move_constructible := false;
  copy_constructible := true;
|}.

(** ** A platform to try the functions on *)

(** A 64-bit platform for [int]: [size_t] has 64 bits, an [int] takes four
    bytes, and [operator new] turns down every request above [PTRDIFF_MAX]
    and no other. *)
Definition lp64 : Platform Z := {|
  sizeof := 4;
  size_t_range := Some (2 ^ 64);
  new_throws := fun bytes => bool_decide (2 ^ 63 <= bytes);
|}.

(** ** States to try the functions on *)

(** A memory with the one block [b], and nothing traced yet *)
Definition one_block {T} `{Element T} (b : addr) (blk : list slot) : world :=
  World {[ b := blk ]} [].

(** A memory with the two blocks [b1] and [b2] *)
Definition two_blocks {T} `{Element T} (b1 : addr) (blk1 : list slot)
    (b2 : addr) (blk2 : list slot) : world :=
  World (<[ b1 := blk1 ]> {[ b2 := blk2 ]}) [].

(** Nothing allocated *)
Definition no_blocks {T} `{Element T} : world := World ∅ [].

(** The vector whose storage is block [b] with [cap] slots, [n] of them
    live *)
Definition vector_at (b : addr) (cap n : nat) : Vector :=
  MkVector (MkRawMemory (Ptr b 0) cap) n.

(** Lookups in a heap after writes to it and releases from it *)
Ltac heap_simpl :=
  unfold put_block, free_block, log; cbn [fst snd heap trace];
  repeat first
    [ rewrite lookup_insert_eq
    | rewrite lookup_insert_ne by done
    | rewrite lookup_delete_ne by done ].

(** Equations between traces *)
Ltac trace_simpl :=
  unfold put_block, free_block, log, relocation_ctors, relocation_dtors;
  cbn [fst snd heap trace];
  try match goal with
      | |- context [relocates_by_move] => destruct relocates_by_move
      end;
  cbn [fmap list_fmap];
  rewrite ?app_nil_r, <- ?app_assoc; cbn [app];
  try reflexivity.


(** * Facts about the model *)

Section Facts.

Context {T : Type} `{Element T}.

Implicit Types (b : addr) (xs ys : list T) (v : Vector).

(** *** Sequencing *)

Lemma bind_ok {St A B} (m : M St A) (f : A -> M St B) s s' a :
  m s = Ok s' a -> (x <- m ;; f x) s = f a s'.
Proof. unfold bind. intros ->. reflexivity. Qed.

Lemma bind_throw {St A B} (m : M St A) (f : A -> M St B) s s' :
  m s = Throw s' -> (x <- m ;; f x) s = Throw s'.
Proof. unfold bind. intros ->. reflexivity. Qed.

Lemma on_throw_ok {St A} (m : M St A) h s s' a :
  m s = Ok s' a -> on_throw m h s = Ok s' a.
Proof. unfold on_throw. intros ->. reflexivity. Qed.

Lemma on_throw_throw {St A} (m : M St A) h s s' s'' :
  m s = Throw s' -> h s' = Ok s'' tt -> on_throw m h s = Throw s''.
Proof. unfold on_throw. intros -> ->. reflexivity. Qed.

Lemma in_memory_ok {A} (m : M world A) v w w' a :
  m w = Ok w' a -> in_memory m (v, w) = Ok (v, w') a.
Proof. unfold in_memory. simpl. intros ->. reflexivity. Qed.

Lemma in_memory_throw {A} (m : M world A) v w w' :
  m w = Throw w' -> in_memory m (v, w) = Throw (v, w').
Proof. unfold in_memory. simpl. intros ->. reflexivity. Qed.

Lemma assert_true {St} (P : Prop) `{Decision P} (s : St) :
  P -> assert P s = Ok s tt.
Proof. intros HP. unfold assert. rewrite decide_True by done. reflexivity. Qed.

(** *** The world after a write *)

Lemma put_block_lookup b blk es w : heap (put_block b blk es w) !! b = Some blk.
Proof. apply lookup_insert_eq. Qed.

Lemma put_block_lookup_ne b b' blk es w :
  b <> b' -> heap (put_block b blk es w) !! b' = heap w !! b'.
Proof. intros. simpl. by apply lookup_insert_ne. Qed.

Lemma put_block_put_block b blk blk' es es' w :
  put_block b blk' es' (put_block b blk es w) = put_block b blk' (es ++ es') w.
Proof.
  unfold put_block. simpl. by rewrite insert_insert_eq, app_assoc.
Qed.

Lemma put_block_log b blk es es' w :
  put_block b blk es' (log es w) = put_block b blk (es ++ es') w.
Proof. unfold put_block, log. simpl. by rewrite app_assoc. Qed.

Lemma log_put_block b blk es es' w :
  log es' (put_block b blk es w) = put_block b blk (es ++ es') w.
Proof. unfold put_block, log. simpl. by rewrite app_assoc. Qed.

Lemma log_log es es' w : log es' (log es w) = log (es ++ es') w.
Proof. unfold log. simpl. by rewrite app_assoc. Qed.

Lemma log_nil w : log [] w = w.
Proof. destruct w. unfold log. simpl. by rewrite app_nil_r. Qed.

Lemma put_block_same b blk w :
  heap w !! b = Some blk -> put_block b blk [] w = w.
Proof.
  intros Hb. destruct w as [h t]. unfold put_block. simpl in *.
  by rewrite insert_id, app_nil_r.
Qed.

(** *** Slots *)

Lemma read_slot_ok w b blk i s :
  heap w !! b = Some blk -> blk !! i = Some s -> read_slot (Ptr b i) w = Ok w s.
Proof. unfold read_slot. intros -> ->. reflexivity. Qed.

Lemma write_slot_ok w b blk i s :
  heap w !! b = Some blk -> i < length blk ->
  write_slot (Ptr b i) s w = Ok (put_block b (<[i := s]> blk) [] w) tt.
Proof.
  unfold write_slot, put_block. intros -> Hi.
  rewrite decide_True by done. by rewrite app_nil_r.
Qed.

Lemma load_ok w b blk i x :
  heap w !! b = Some blk -> blk !! i = Some (Live x) -> load (Ptr b i) w = Ok w x.
Proof.
  intros Hb Hi. unfold load.
  rewrite (bind_ok _ _ _ _ _ (read_slot_ok _ _ _ _ _ Hb Hi)). reflexivity.
Qed.

Lemma emit_ok e w : emit e w = Ok (log [e] w) tt.
Proof. reflexivity. Qed.

(** a slot in the middle of a block *)
Lemma lookup_middle {A} (l1 l2 : list A) x i :
  i = length l1 -> (l1 ++ x :: l2) !! i = Some x.
Proof. intros ->. by rewrite list_lookup_middle. Qed.

Lemma insert_middle {A} (l1 l2 : list A) x y i :
  i = length l1 -> <[i := y]> (l1 ++ x :: l2) = l1 ++ y :: l2.
Proof.
  intros ->. rewrite insert_app_r_alt by lia.
  by rewrite Nat.sub_diag.
Qed.

Lemma destroy_at_ok w b pre post x i :
  heap w !! b = Some (pre ++ Live x :: post) -> i = length pre ->
  destroy_at (Ptr b i) w = Ok (put_block b (pre ++ Raw :: post) [EvDtor x] w) tt.
Proof.
  intros Hb ->. unfold destroy_at.
  rewrite (bind_ok _ _ _ _ _ (load_ok _ _ _ _ _ Hb (lookup_middle _ _ _ _ eq_refl))).
  rewrite (bind_ok _ _ _ _ _ (emit_ok _ _)).
  erewrite write_slot_ok; [| exact Hb | rewrite length_app; simpl; lia].
  rewrite insert_middle by done. by rewrite put_block_log.
Qed.

Lemma put_block_swap b c (A C : list slot) es w :
  b <> c ->
  put_block c C es (put_block b A [] w) = put_block b A [] (put_block c C es w).
Proof.
  intros Hne. unfold put_block. simpl. f_equal.
  - by apply insert_insert_ne.
  - by rewrite !app_nil_r.
Qed.

(** *** Constructors and destructors in place *)

Lemma construct_ok args x w :
  built args = Some x -> construct args w = Ok (log [ctor_event args x] w) x.
Proof. unfold construct. intros ->. reflexivity. Qed.

Lemma construct_throw args w : built args = None -> construct args w = Throw w.
Proof. unfold construct. intros ->. reflexivity. Qed.

Lemma construct_at_ok w b pre post s i args x :
  heap w !! b = Some (pre ++ s :: post) -> i = length pre ->
  built args = Some x ->
  construct_at (Ptr b i) args w
  = Ok (put_block b (pre ++ Live x :: post) [ctor_event args x] w) tt.
Proof.
  intros Hb -> Hx. unfold construct_at.
  rewrite (bind_ok _ _ _ _ _ (read_slot_ok _ _ _ _ _ Hb (lookup_middle _ _ _ _ eq_refl))).
  rewrite (bind_ok _ _ _ _ _ (construct_ok _ _ _ Hx)).
  erewrite write_slot_ok; [| exact Hb | rewrite length_app; simpl; lia].
  rewrite insert_middle by done. by rewrite put_block_log.
Qed.

Lemma construct_at_throw w b blk i args :
  heap w !! b = Some blk -> i < length blk -> built args = None ->
  construct_at (Ptr b i) args w = Throw w.
Proof.
  intros Hb Hi Hx. unfold construct_at.
  destruct (lookup_lt_is_Some_2 blk i Hi) as [s Hs].
  rewrite (bind_ok _ _ _ _ _ (read_slot_ok _ _ _ _ _ Hb Hs)).
  by rewrite (bind_throw _ _ _ _ (construct_throw _ _ Hx)).
Qed.

Lemma destroy_n_ok w b pre xs post i n :
  heap w !! b = Some (pre ++ (Live <$> xs) ++ post) ->
  i = length pre -> n = length xs ->
  destroy_n (Ptr b i) n w
  = Ok (put_block b (pre ++ replicate n Raw ++ post) (EvDtor <$> xs) w) tt.
Proof.
  revert w pre i n. induction xs as [| x xs IH]; intros w pre i n Hb -> ->.
  - simpl in *. unfold ret. f_equal. symmetry. by apply put_block_same.
  - simpl in Hb |- *.
    rewrite (bind_ok _ _ _ _ _ (destroy_at_ok _ _ _ _ _ _ Hb eq_refl)).
    erewrite (IH _ (pre ++ [Raw])).
    + rewrite put_block_put_block. f_equal. f_equal.
      by rewrite <- app_assoc.
    + rewrite put_block_lookup. by rewrite <- app_assoc.
    + rewrite length_app. simpl. lia.
    + reflexivity.
Qed.

(** *** The loops that build objects in raw storage *)

Lemma uninitialized_value_construct_from_ok w b i0 done n pre mid post x0 :
  heap w !! b = Some (pre ++ mid ++ post) ->
  length pre = i0 + done -> length mid = n ->
  value_init = Some x0 ->
  uninitialized_value_construct_from (Ptr b i0) done n w
  = Ok (put_block b (pre ++ replicate n (Live x0) ++ post)
                  (replicate n (EvValueCtor x0)) w) tt.
Proof.
  intros Hb Hpre Hmid Hx0.
  revert w done pre mid Hb Hpre Hmid.
  induction n as [| n IH]; intros w done pre mid Hb Hpre Hmid.
  - destruct mid; [| done]. simpl in *. unfold ret. f_equal. symmetry.
    by apply put_block_same.
  - destruct mid as [| s mid]; [done |]. simpl in *.
    erewrite bind_ok; cycle 1.
    { apply on_throw_ok.
      apply (construct_at_ok _ _ pre (mid ++ post) s); [exact Hb | lia |].
      exact Hx0. }
    erewrite (IH _ (S done) (pre ++ [Live x0]) mid).
    + rewrite put_block_put_block. f_equal. f_equal.
      by rewrite <- app_assoc.
    + rewrite put_block_lookup. by rewrite <- app_assoc.
    + rewrite length_app. simpl. lia.
    + lia.
Qed.

Lemma copy_construct_at_ok w a c (src : list slot) pre post s i j x :
  heap w !! a = Some src -> src !! j = Some (Live x) ->
  heap w !! c = Some (pre ++ s :: post) -> i = length pre ->
  copy_throws x = false ->
  copy_construct_at (Ptr c i) (Ptr a j) w
  = Ok (put_block c (pre ++ Live x :: post) [EvCopyCtor x] w) tt.
Proof.
  intros Ha Hj Hc -> Hx. unfold copy_construct_at.
  rewrite (bind_ok _ _ _ _ _ (load_ok _ _ _ _ _ Ha Hj)).
  erewrite construct_at_ok; [reflexivity | exact Hc | done |].
  simpl. by rewrite Hx.
Qed.

Lemma uninitialized_copy_from_ok w a c i0 j0 done (src : list slot)
    xs pre mid post :
  a <> c ->
  heap w !! a = Some src ->
  (forall k x, xs !! k = Some x -> src !! (i0 + done + k) = Some (Live x)) ->
  heap w !! c = Some (pre ++ mid ++ post) ->
  length pre = j0 + done -> length mid = length xs ->
  Forall (fun x => copy_throws x = false) xs ->
  uninitialized_copy_from (Ptr a i0) done (length xs) (Ptr c j0) w
  = Ok (put_block c (pre ++ (Live <$> xs) ++ post) (EvCopyCtor <$> xs) w) tt.
Proof.
  intros Hac. revert w done pre mid.
  induction xs as [| x xs IH]; intros w done pre mid Ha Hsrc Hc Hpre Hmid Hxs.
  - destruct mid; [| done]. simpl in *. unfold ret. f_equal. symmetry.
    by apply put_block_same.
  - destruct mid as [| s mid]; [done |]. simpl in *.
    apply Forall_cons in Hxs as [Hx Hxs].
    erewrite bind_ok; cycle 1.
    { apply on_throw_ok.
      eapply (copy_construct_at_ok _ a c src pre (mid ++ post) s);
        [exact Ha | | exact Hc | lia | exact Hx].
      specialize (Hsrc 0 x eq_refl). by rewrite Nat.add_0_r in Hsrc. }
    erewrite (IH _ (S done) (pre ++ [Live x]) mid).
    + rewrite put_block_put_block. f_equal. f_equal.
      by rewrite <- app_assoc.
    + by rewrite put_block_lookup_ne.
    + intros k y Hk. specialize (Hsrc (S k) y Hk).
      by replace (i0 + S done + k) with (i0 + done + S k) by lia.
    + rewrite put_block_lookup. by rewrite <- app_assoc.
    + rewrite length_app. simpl. lia.
    + lia.
    + done.
Qed.

Lemma move_construct_at_ok w a c spre spost pre post s i j x :
  a <> c ->
  heap w !! a = Some (spre ++ Live x :: spost) -> j = length spre ->
  heap w !! c = Some (pre ++ s :: post) -> i = length pre ->
  move_throws x = false ->
  move_construct_at (Ptr c i) (Ptr a j) w
  = Ok (put_block a (spre ++ Live (moved_from x) :: spost) []
          (put_block c (pre ++ Live x :: post) [EvMoveCtor x] w)) tt.
Proof.
  intros Hac Ha -> Hc -> Hx. unfold move_construct_at.
  rewrite (bind_ok _ _ _ _ _ (load_ok _ _ _ _ _ Ha (lookup_middle _ _ _ _ eq_refl))).
  erewrite bind_ok; cycle 1.
  { eapply construct_at_ok; [exact Hc | done |]. simpl. by rewrite Hx. }
  erewrite write_slot_ok; cycle 1.
  { rewrite put_block_lookup_ne by done. exact Ha. }
  { rewrite length_app. simpl. lia. }
  by rewrite insert_middle.
Qed.

Lemma uninitialized_move_from_ok w a c i0 j0 done xs spre spost pre mid post :
  a <> c ->
  heap w !! a = Some (spre ++ (Live <$> xs) ++ spost) ->
  length spre = i0 + done ->
  heap w !! c = Some (pre ++ mid ++ post) ->
  length pre = j0 + done -> length mid = length xs ->
  Forall (fun x => move_throws x = false) xs ->
  uninitialized_move_from (Ptr a i0) done (length xs) (Ptr c j0) w
  = Ok (put_block a (spre ++ (Live <$> (moved_from <$> xs)) ++ spost) []
          (put_block c (pre ++ (Live <$> xs) ++ post) (EvMoveCtor <$> xs) w)) tt.
Proof.
  intros Hac. revert w done spre pre mid.
  induction xs as [| x xs IH];
    intros w done spre pre mid Ha Hspre Hc Hpre Hmid Hxs.
  - destruct mid; [| done]. simpl in *. unfold ret. f_equal. symmetry.
    rewrite (put_block_same c) by done. by apply put_block_same.
  - destruct mid as [| s mid]; [done |]. simpl in *.
    apply Forall_cons in Hxs as [Hx Hxs].
    erewrite bind_ok; cycle 1.
    { apply on_throw_ok.
      eapply (move_construct_at_ok _ a c spre _ pre (mid ++ post) s);
        [exact Hac | exact Ha | lia | exact Hc | lia | exact Hx]. }
    erewrite (IH _ (S done) (spre ++ [Live (moved_from x)]) (pre ++ [Live x]) mid).
    + rewrite (put_block_swap a c) by done.
      rewrite put_block_put_block.
      rewrite put_block_put_block.
      by rewrite <- !app_assoc.
    + rewrite put_block_lookup. by rewrite <- app_assoc.
    + rewrite length_app. simpl. lia.
    + rewrite put_block_lookup_ne by done. rewrite put_block_lookup.
      by rewrite <- app_assoc.
    + rewrite length_app. simpl. lia.
    + lia.
    + done.
Qed.

Lemma CopyOrMove_ok w a c i j n xs spre spost pre mid post :
  a <> c ->
  heap w !! a = Some (spre ++ (Live <$> xs) ++ spost) -> i = length spre ->
  heap w !! c = Some (pre ++ mid ++ post) -> j = length pre ->
  length mid = length xs -> n = length xs ->
  relocatable xs ->
  CopyOrMove (Ptr a i) n (Ptr c j) w
  = Ok (put_block a (spre ++ replicate n Raw ++ spost) (relocation_dtors xs)
          (put_block c (pre ++ (Live <$> xs) ++ post) (relocation_ctors xs) w))
       tt.
Proof.
  intros Hac Ha -> Hc -> Hmid -> Hxs.
  unfold CopyOrMove, relocatable, relocation_dtors, relocation_ctors in *.
  destruct relocates_by_move.
  - unfold uninitialized_move_n.
    erewrite bind_ok; cycle 1.
    { eapply uninitialized_move_from_ok;
        [exact Hac | exact Ha | lia | exact Hc | lia | exact Hmid | exact Hxs]. }
    erewrite destroy_n_ok; cycle 1.
    { rewrite put_block_lookup. reflexivity. }
    { reflexivity. }
    { by rewrite length_fmap. }
    by rewrite put_block_put_block.
  - unfold uninitialized_copy_n.
    erewrite bind_ok; cycle 1.
    { eapply (uninitialized_copy_from_ok _ a c (length spre) (length pre) 0);
        [exact Hac | exact Ha | | exact Hc | lia | exact Hmid | exact Hxs].
      intros k x Hk. rewrite Nat.add_0_r.
      rewrite lookup_app_r by lia.
      replace (length spre + k - length spre) with k by lia.
      rewrite lookup_app_l by (rewrite length_fmap; by eapply lookup_lt_Some).
      by rewrite list_lookup_fmap, Hk. }
    erewrite destroy_n_ok; cycle 1.
    { rewrite put_block_lookup_ne by done. exact Ha. }
    { reflexivity. }
    { reflexivity. }
    reflexivity.
Qed.

Lemma CopyOrMove_nothing p q w : CopyOrMove p 0 q w = Ok w tt.
Proof. unfold CopyOrMove. by destruct relocates_by_move. Qed.

(** *** Allocation *)

Lemma new_block_fresh w : heap w !! new_block w = None.
Proof. apply not_elem_of_dom. apply is_fresh. Qed.

Lemma Allocate_ok n w :
  n <> 0 ->
  Allocate n w = Ok (put_block (new_block w) (replicate n Raw) [] w)
                    (Ptr (new_block w) 0).
Proof.
  intros Hn. unfold Allocate, put_block, request. cbn [roomy sizeof
    size_t_range new_throws].
  rewrite decide_False by done.
  rewrite Nat.mul_1_r, Nat.div_1_r. by rewrite app_nil_r.
Qed.

Lemma Deallocate_ok a (blk : list slot) w :
  heap w !! a = Some blk -> Deallocate (Ptr a 0) w = Ok (free_block a w) tt.
Proof. unfold Deallocate. intros ->. reflexivity. Qed.

Lemma free_block_put_block a (blk : list slot) es w :
  heap w !! a = None -> free_block a (put_block a blk es w) = log es w.
Proof.
  intros Ha. unfold free_block, put_block, log. simpl.
  by rewrite delete_insert_eq, delete_id.
Qed.

Lemma free_block_lookup_ne a b w :
  a <> b -> heap (free_block a w) !! b = heap w !! b.
Proof. intros. simpl. by apply lookup_delete_ne. Qed.

(** *** Member functions: the pieces *)

Lemma RawMemory_plus_ok {St} (r : RawMemory) offset (s : St) :
  offset <= capacity_ r ->
  RawMemory_plus r offset s = Ok s (ptr_add (buffer_ r) offset).
Proof.
  intros Hle. unfold RawMemory_plus.
  by rewrite (bind_ok _ _ _ _ _ (assert_true _ _ Hle)).
Qed.

Lemma RawMemory_at_ok {St} (r : RawMemory) index (s : St) :
  index < capacity_ r ->
  RawMemory_at r index s = Ok s (ptr_add (buffer_ r) index).
Proof.
  intros Hlt. unfold RawMemory_at.
  by rewrite (bind_ok _ _ _ _ _ (assert_true _ _ Hlt)).
Qed.

Lemma RawMemory_new_ok cap w :
  cap <> 0 ->
  RawMemory_new cap w
  = Ok (put_block (new_block w) (replicate cap Raw) [] w)
       (MkRawMemory (Ptr (new_block w) 0) cap).
Proof.
  intros Hcap. unfold RawMemory_new.
  by rewrite (bind_ok _ _ _ _ _ (Allocate_ok _ _ Hcap)).
Qed.

Lemma with_new_data_ok cap body v w v' w1 w2 nd :
  cap <> 0 ->
  body (MkRawMemory (Ptr (new_block w) 0) cap)
       (v, put_block (new_block w) (replicate cap Raw) [] w) = Ok (v', w1) nd ->
  RawMemory_dtor nd w1 = Ok w2 tt ->
  with_new_data cap body (v, w) = Ok (v', w2) tt.
Proof.
  intros Hcap Hbody Hdtor. unfold with_new_data.
  rewrite (bind_ok _ _ _ _ _ (in_memory_ok _ _ _ _ _ (RawMemory_new_ok _ _ Hcap))).
  rewrite (bind_ok _ _ _ _ _ (on_throw_ok _ _ _ _ _ Hbody)).
  by apply in_memory_ok.
Qed.

Lemma with_new_data_throw cap body v w v' w1 blk :
  cap <> 0 ->
  body (MkRawMemory (Ptr (new_block w) 0) cap)
       (v, put_block (new_block w) (replicate cap Raw) [] w) = Throw (v', w1) ->
  heap w1 !! new_block w = Some blk ->
  with_new_data cap body (v, w) = Throw (v', free_block (new_block w) w1).
Proof.
  intros Hcap Hbody Hblk. unfold with_new_data.
  rewrite (bind_ok _ _ _ _ _ (in_memory_ok _ _ _ _ _ (RawMemory_new_ok _ _ Hcap))).
  apply bind_throw. eapply on_throw_throw; [exact Hbody |].
  apply in_memory_ok. unfold RawMemory_dtor. simpl.
  by eapply Deallocate_ok.
Qed.

Lemma grown_capacity_gt n : n < grown_capacity n.
Proof. unfold grown_capacity. case_decide; lia. Qed.

(** *** What a vector holds *)

Lemma cells_lookup_live cap xs i x :
  xs !! i = Some x -> cells cap xs !! i = Some (Live x).
Proof.
  intros Hi. unfold cells.
  rewrite lookup_app_l by (rewrite length_fmap; by eapply lookup_lt_Some).
  by rewrite list_lookup_fmap, Hi.
Qed.

Lemma cells_length cap xs : length xs <= cap -> length (cells cap xs) = cap.
Proof.
  intros. unfold cells. rewrite length_app, length_fmap, length_replicate. lia.
Qed.

Lemma cells_full xs : cells (length xs) xs = Live <$> xs.
Proof. unfold cells. by rewrite Nat.sub_diag, app_nil_r. Qed.

Lemma cells_spare cap xs :
  length xs < cap ->
  cells cap xs = (Live <$> xs) ++ Raw :: replicate (cap - length xs - 1) Raw.
Proof.
  intros Hlt. unfold cells.
  destruct (cap - length xs) as [| k] eqn:Hk; [lia |].
  simpl. by rewrite Nat.sub_0_r.
Qed.

Lemma cells_snoc cap xs x :
  (Live <$> xs) ++ Live x :: replicate (cap - length xs - 1) Raw
  = cells cap (xs ++ [x]).
Proof.
  unfold cells. rewrite fmap_app, length_app. simpl.
  rewrite <- app_assoc. simpl.
  by replace (cap - (length xs + 1)) with (cap - length xs - 1) by lia.
Qed.

Lemma EmplaceBack_ok w v xs args x :
  holds w v xs -> built args = Some x ->
  (size_ v = Capacity v -> relocatable xs) ->
  exists v' w',
    EmplaceBack args (v, w) = Ok (v', w') (ptr_add (begin v') (length xs)) /\
    holds w' v' (xs ++ [x]) /\
    Capacity v' = (if decide (size_ v = Capacity v)
                   then grown_capacity (size_ v) else Capacity v) /\
    trace w' = trace w ++ ctor_event args x ::
                 (if decide (size_ v = Capacity v)
                  then relocation_ctors xs ++ relocation_dtors xs else []).
Proof.
  intros (Hsize & Hcap & Hbuf) Hx Hreloc.
  destruct v as [[buf cap] n]. simpl in *. subst n.
  unfold EmplaceBack, Capacity, RawMemory_Capacity.
  cbn [bind this fst snd data_ size_ capacity_].
  case_decide as Hfull.
  - (* growth *)
    specialize (Hreloc Hfull). subst cap.
    destruct buf as [| b off].
    + (* nothing allocated yet *)
      destruct xs; [| simpl in *; lia]. simpl.
      eexists (MkVector (MkRawMemory (Ptr (new_block w) 0) (grown_capacity 0)) 1), _.
      split; [| split; [| split]].
      * erewrite bind_ok; cycle 1.
        { eapply with_new_data_ok; [done | |].
          - erewrite bind_ok by (apply RawMemory_plus_ok; simpl; lia).
            erewrite bind_ok; cycle 1.
            { apply in_memory_ok.
              eapply (construct_at_ok _ _ [] []);
                [apply put_block_lookup | done | exact Hx]. }
            erewrite bind_ok
              by (apply in_memory_ok; apply CopyOrMove_nothing).
            cbn. reflexivity.
          - reflexivity. }
        cbn. rewrite RawMemory_at_ok by (unfold grown_capacity; simpl; lia).
        reflexivity.
      * repeat split; simpl; try (unfold grown_capacity; simpl; lia).
        heap_simpl. reflexivity.
      * reflexivity.
      * trace_simpl.
    + destruct Hbuf as (-> & Hpos & Hb). rewrite cells_full in Hb.
      assert (Hne : b <> new_block w).
      { intros ->. by rewrite new_block_fresh in Hb. }
      assert (Hg : grown_capacity (length xs) = length xs + S (length xs - 1)).
      { unfold grown_capacity. rewrite decide_False by lia. lia. }
      eexists (MkVector (MkRawMemory (Ptr (new_block w) 0)
                           (grown_capacity (length xs))) (length xs + 1)), _.
      split; [| split; [| split]].
      * erewrite bind_ok; cycle 1.
        { eapply with_new_data_ok; [unfold grown_capacity; case_decide; lia | |].
          - erewrite bind_ok
              by (apply RawMemory_plus_ok; simpl;
                  pose proof (grown_capacity_gt (length xs)); lia).
            cbn [ptr_add buffer_].
            erewrite bind_ok; cycle 1.
            { apply in_memory_ok.
              eapply (construct_at_ok _ _ (replicate (length xs) Raw)
                        (replicate (length xs - 1) Raw));
                [ rewrite put_block_lookup, Hg, replicate_add; reflexivity
                | by rewrite length_replicate | exact Hx]. }
            rewrite put_block_put_block.
            erewrite bind_ok; cycle 1.
            { apply in_memory_ok. simpl.
              eapply (CopyOrMove_ok _ b (new_block w) 0 0 _ xs [] [] []);
                [ exact Hne
                | rewrite put_block_lookup_ne by done; by rewrite app_nil_r
                | done
                | rewrite put_block_lookup; reflexivity
                | done
                | by rewrite length_replicate
                | done
                | exact Hreloc ]. }
            cbn. reflexivity.
          - unfold RawMemory_dtor. cbn [buffer_]. eapply Deallocate_ok.
            apply put_block_lookup. }
        cbn. rewrite RawMemory_at_ok; [| simpl; rewrite Hg; lia].
        simpl. by replace (length xs + 1 - 1) with (length xs) by lia.
      * repeat split; simpl.
        -- rewrite length_app. simpl. lia.
        -- rewrite length_app. simpl. rewrite Hg. lia.
        -- rewrite Hg. lia.
        -- heap_simpl. f_equal.
           rewrite <- cells_snoc. f_equal. f_equal. f_equal. rewrite Hg. lia.
      * reflexivity.
      * trace_simpl.
  - (* room left *)
    destruct buf as [| b off]; [lia |].
    destruct Hbuf as (-> & Hpos & Hb).
    rewrite cells_spare in Hb by lia.
    eexists (MkVector (MkRawMemory (Ptr b 0) cap) (length xs + 1)), _.
    split; [| split; [| split]].
    + erewrite bind_ok; cycle 1.
      { erewrite bind_ok by (apply RawMemory_plus_ok; simpl; lia).
        cbn [ptr_add buffer_].
        apply in_memory_ok.
        eapply construct_at_ok; [exact Hb | by rewrite length_fmap | exact Hx]. }
      cbn. rewrite RawMemory_at_ok by (simpl; lia).
      simpl. by replace (length xs + 1 - 1) with (length xs) by lia.
    + repeat split; cbn [size_ data_ capacity_ buffer_];
        try (rewrite length_app; simpl; lia); try lia.
      heap_simpl. by rewrite cells_snoc.
    + reflexivity.
    + reflexivity.
Qed.

Lemma Reserve_enough n v (w : world (T:=T)) :
  n <= Capacity v -> Reserve n (v, w) = Ok (v, w) tt.
Proof.
  intros Hle. unfold Reserve. cbn [bind this fst].
  by rewrite decide_True by done.
Qed.

Lemma Reserve_ok w v xs n :
  holds w v xs -> Capacity v < n -> relocatable xs ->
  exists w',
    Reserve n (v, w)
    = Ok (MkVector (MkRawMemory (Ptr (new_block w) 0) n) (size_ v), w') tt /\
    holds w' (MkVector (MkRawMemory (Ptr (new_block w) 0) n) (size_ v)) xs /\
    trace w' = trace w ++ relocation_ctors xs ++ relocation_dtors xs.
Proof.
  intros (Hsize & Hcap & Hbuf) Hn Hreloc.
  destruct v as [[buf cap] sz].
  unfold Capacity, RawMemory_Capacity in *. simpl in *. subst sz.
  unfold Reserve, Capacity, RawMemory_Capacity.
  cbn [bind this fst snd data_ size_ capacity_].
  rewrite decide_False by lia.
  destruct buf as [| b off].
  - subst cap. destruct xs; [| simpl in *; lia].
    eexists. split; [| split].
    + eapply with_new_data_ok; [lia | |].
      * erewrite bind_ok by (apply in_memory_ok; apply CopyOrMove_nothing).
        cbn. reflexivity.
      * reflexivity.
    + repeat split; cbn [size_ data_ capacity_ buffer_ length]; try lia.
      heap_simpl. unfold cells. simpl. by rewrite Nat.sub_0_r.
    + trace_simpl.
  - destruct Hbuf as (-> & Hpos & Hb).
    assert (Hne : b <> new_block w).
    { intros ->. by rewrite new_block_fresh in Hb. }
    eexists. split; [| split].
    + eapply with_new_data_ok; [lia | |].
      * erewrite bind_ok; cycle 1.
        { apply in_memory_ok. cbn [GetAddress buffer_ data_ size_].
          eapply (CopyOrMove_ok _ b (new_block w) 0 0 _ xs []
                    (replicate (cap - length xs) Raw) []
                    (replicate (length xs) Raw)
                    (replicate (n - length xs) Raw));
            [ exact Hne
            | rewrite put_block_lookup_ne by done; exact Hb
            | done
            | rewrite put_block_lookup; cbn [app];
              rewrite <- replicate_add; f_equal; f_equal; lia
            | done
            | by rewrite length_replicate
            | done
            | exact Hreloc ]. }
        cbn. reflexivity.
      * unfold RawMemory_dtor. cbn [buffer_]. eapply Deallocate_ok.
        apply put_block_lookup.
    + repeat split; cbn [size_ data_ capacity_ buffer_]; try lia.
      heap_simpl. reflexivity.
    + trace_simpl.
Qed.

Lemma fmap_replicate_Live n (x : T) :
  Live <$> replicate n x = replicate n (Live x).
Proof. apply fmap_replicate. Qed.

Lemma Vector_sized_ok n x0 w :
  value_init = Some x0 ->
  exists w' v,
    Vector_sized n w = Ok w' v /\
    holds w' v (replicate n x0) /\
    Size v = n /\ Capacity v = n /\
    trace w' = trace w ++ replicate n (EvValueCtor x0).
Proof.
  intros Hx0. unfold Vector_sized.
  destruct n as [| n].
  - exists w, (MkVector (MkRawMemory Null 0) 0).
    repeat split; simpl; rewrite ?app_nil_r; done.
  - eexists _, (MkVector (MkRawMemory (Ptr (new_block w) 0) (S n)) (S n)).
    split; [| split; [| split; [| split]]].
    + erewrite bind_ok by (by apply RawMemory_new_ok).
      erewrite bind_ok; cycle 1.
      { apply on_throw_ok. unfold uninitialized_value_construct_n.
        cbn [GetAddress buffer_].
        eapply (uninitialized_value_construct_from_ok _ _ 0 0 _ []
                  (replicate (S n) Raw) []);
          [ rewrite put_block_lookup; by rewrite app_nil_r
          | done | by rewrite length_replicate | exact Hx0 ]. }
      reflexivity.
    + repeat split; cbn [size_ data_ capacity_ buffer_];
        rewrite ?length_replicate; try lia.
      heap_simpl. f_equal. unfold cells.
      rewrite length_replicate, Nat.sub_diag, fmap_replicate_Live.
      reflexivity.
    + reflexivity.
    + reflexivity.
    + trace_simpl.
Qed.

Lemma Resize_same v (w : world (T:=T)) : Resize (size_ v) (v, w) = Ok (v, w) tt.
Proof.
  unfold Resize. cbn [bind this fst]. by rewrite decide_True by done.
Qed.

Lemma Resize_shrink_ok w v xs n :
  holds w v xs -> n < length xs ->
  exists w',
    Resize n (v, w) = Ok (MkVector (data_ v) n, w') tt /\
    holds w' (MkVector (data_ v) n) (take n xs) /\
    trace w' = trace w ++ (EvDtor <$> drop n xs).
Proof.
  intros (Hsize & Hcap & Hbuf) Hn.
  destruct v as [[buf cap] sz]. simpl in *. subst sz.
  destruct buf as [| b off]; [lia |].
  destruct Hbuf as (-> & Hpos & Hb).
  unfold Resize. cbn [bind this fst snd data_ size_].
  rewrite decide_False by lia. rewrite decide_False by lia.
  assert (Hblk : cells cap xs
                 = (Live <$> take n xs) ++ (Live <$> drop n xs)
                   ++ replicate (cap - length xs) Raw).
  { unfold cells. rewrite app_assoc, <- fmap_app. by rewrite take_drop. }
  rewrite Hblk in Hb.
  eexists. split; [| split].
  - erewrite bind_ok; cycle 1.
    { apply in_memory_ok. cbn [GetAddress buffer_ ptr_add].
      eapply destroy_n_ok; [exact Hb | |].
      - rewrite length_fmap, length_take. lia.
      - rewrite length_drop. lia. }
    cbn. reflexivity.
  - repeat split; cbn [size_ data_ capacity_ buffer_];
      rewrite ?length_take; try lia.
    heap_simpl. f_equal. unfold cells.
    rewrite length_take. rewrite <- replicate_add. do 2 f_equal. lia.
  - trace_simpl.
Qed.

Lemma Resize_grow_ok w v xs n x0 :
  holds w v xs -> length xs < n -> value_init = Some x0 ->
  (Capacity v < n -> relocatable xs) ->
  exists v' w',
    Resize n (v, w) = Ok (v', w') tt /\
    holds w' v' (xs ++ replicate (n - length xs) x0) /\
    Capacity v' = Capacity v `max` n /\
    trace w' = trace w
               ++ (if decide (n <= Capacity v) then []
                   else relocation_ctors xs ++ relocation_dtors xs)
               ++ replicate (n - length xs) (EvValueCtor x0).
Proof.
  intros Hv Hn Hx0 Hreloc.
  assert (Hsz : size_ v = length xs) by apply Hv.
  unfold Resize. cbn [bind this fst snd].
  rewrite decide_False by lia. rewrite decide_True by lia.
  assert (exists v1 w1,
    Reserve n (v, w) = Ok (v1, w1) tt /\ holds w1 v1 xs /\
    Capacity v1 = Capacity v `max` n /\
    trace w1 = trace w ++ (if decide (n <= Capacity v) then []
                           else relocation_ctors xs ++ relocation_dtors xs))
    as (v1 & w1 & Hres & Hv1 & Hcap1 & Htr1).
  { case_decide as Hc.
    - exists v, w. rewrite Reserve_enough by done.
      split; [done |]. split; [done |]. split; [lia |].
      by rewrite app_nil_r.
    - destruct (Reserve_ok w v xs n Hv ltac:(lia) ltac:(apply Hreloc; lia))
        as (w1 & Hres & Hv1 & Htr1).
      eexists _, w1.
      split; [exact Hres |]. split; [exact Hv1 |]. split; [| exact Htr1].
      unfold Capacity, RawMemory_Capacity in *. simpl. lia. }
  destruct Hv1 as (Hsize1 & Hle1 & Hbuf1).
  destruct v1 as [[buf1 cap1] sz1].
  unfold Capacity, RawMemory_Capacity in *. simpl in *. subst sz1.
  destruct buf1 as [| b off]; [lia |].
  destruct Hbuf1 as (-> & Hpos1 & Hb1).
  erewrite bind_ok; cycle 1.
  { erewrite bind_ok by exact Hres. cbn [bind this fst].
    apply in_memory_ok. unfold uninitialized_value_construct_n.
    cbn [GetAddress buffer_ ptr_add data_ size_].
    eapply (uninitialized_value_construct_from_ok _ _ _ 0 _ (Live <$> xs)
              (replicate (n - length xs) Raw)
              (replicate (cap1 - n) Raw));
      [ rewrite Hb1; unfold cells; f_equal; f_equal;
        rewrite <- replicate_add; f_equal; lia
      | rewrite length_fmap; lia
      | by rewrite length_replicate
      | exact Hx0 ]. }
  cbn.
  eexists (MkVector (MkRawMemory (Ptr b 0) cap1) n), _.
  split; [reflexivity |]. split; [| split].
  - repeat split; cbn [size_ data_ capacity_ buffer_];
      rewrite ?length_app, ?length_replicate; try lia.
    heap_simpl. f_equal. unfold cells.
    rewrite fmap_app, fmap_replicate_Live, <- app_assoc.
    rewrite length_app, length_replicate. do 3 f_equal. lia.
  - done.
  - simpl. rewrite Htr1. by rewrite <- app_assoc.
Qed.

(** *** Shifting within one block *)

Lemma shifted_left_snoc d xs :
  shifted_left d xs = xs ++ [left_behind d xs].
Proof.
  revert d. induction xs as [| x xs IH]; intros d; simpl; [done |].
  by rewrite IH.
Qed.

Lemma move_assign_at_left_ok w b pre post d x i :
  heap w !! b = Some (pre ++ Live d :: Live x :: post) -> i = length pre ->
  move_assign_throws d x = false ->
  move_assign_at (Ptr b i) (Ptr b (i + 1)) w
  = Ok (put_block b (pre ++ Live x :: Live (moved_from x) :: post)
                  [EvMoveAssign d x] w) tt.
Proof.
  intros Hb -> Hq. unfold move_assign_at.
  erewrite bind_ok
    by (eapply load_ok; [exact Hb | by apply lookup_middle]).
  erewrite bind_ok; cycle 1.
  { eapply load_ok; [exact Hb |].
    rewrite (cons_middle (Live d)), app_assoc.
    apply lookup_middle. rewrite length_app. simpl. lia. }
  rewrite Hq.
  erewrite bind_ok by apply emit_ok.
  erewrite bind_ok; cycle 1.
  { eapply write_slot_ok; [exact Hb | rewrite length_app; simpl; lia]. }
  erewrite write_slot_ok; cycle 1.
  { apply put_block_lookup. }
  { rewrite length_insert, length_app. simpl. lia. }
  rewrite put_block_put_block, put_block_log. f_equal. f_equal.
  replace (pre ++ Live d :: Live x :: post)
    with ((pre ++ [Live d]) ++ Live x :: post) by (by rewrite <- app_assoc).
  rewrite insert_middle by (rewrite length_app; simpl; lia).
  rewrite <- app_assoc. cbn [app].
  by rewrite insert_middle.
Qed.

Lemma move_forward_ok w b pre post d xs i :
  heap w !! b = Some (pre ++ Live d :: (Live <$> xs) ++ post) ->
  i = length pre -> shift_left_quiet d xs ->
  move_forward (Ptr b (i + 1)) (length xs) (Ptr b i) w
  = Ok (put_block b (pre ++ (Live <$> shifted_left d xs) ++ post)
                  (shift_left_events d xs) w) tt.
Proof.
  revert w pre d i. induction xs as [| x xs IH]; intros w pre d i Hb -> Hq.
  - simpl. unfold ret. f_equal. symmetry. by apply put_block_same.
  - destruct Hq as [Hq1 Hq2]. simpl in Hb |- *.
    erewrite bind_ok by (by eapply move_assign_at_left_ok).
    erewrite (IH _ (pre ++ [Live x]) (moved_from x)).
    + rewrite put_block_put_block. by rewrite <- app_assoc.
    + rewrite put_block_lookup. by rewrite <- app_assoc.
    + rewrite length_app. simpl. lia.
    + done.
Qed.

Lemma Erase_ok w v l1 d rest :
  holds w v (l1 ++ d :: rest) -> shift_left_quiet d rest ->
  exists w',
    Erase (ptr_add (begin v) (length l1)) (v, w)
    = Ok (MkVector (data_ v) (size_ v - 1), w')
         (ptr_add (begin v) (length l1)) /\
    holds w' (MkVector (data_ v) (size_ v - 1)) (l1 ++ rest) /\
    trace w' = trace w ++ shift_left_events d rest
               ++ [EvDtor (left_behind d rest)].
Proof.
  intros (Hsize & Hcap & Hbuf) Hq.
  destruct v as [[buf cap] sz]. simpl in *. subst sz.
  rewrite length_app in *. simpl in *.
  destruct buf as [| b off]; [lia |].
  destruct Hbuf as (-> & Hpos & Hb).
  unfold Erase, begin, end_, GetAddress.
  cbn [bind this fst snd data_ size_ buffer_ ptr_add].
  unfold ptr_diff. rewrite decide_True by (split; [done | lia]).
  cbn [bind ret]. rewrite Nat.add_0_l, Nat.sub_0_r.
  assert (Hblk : cells cap (l1 ++ d :: rest)
                 = (Live <$> l1) ++ Live d :: (Live <$> rest)
                   ++ replicate (cap - (length l1 + S (length rest))) Raw).
  { unfold cells. rewrite fmap_app, <- app_assoc, length_app. reflexivity. }
  rewrite Hblk in Hb.
  eexists. split; [| split].
  - erewrite bind_ok; cycle 1.
    { apply in_memory_ok. unfold std_move, ptr_diff.
      rewrite decide_True by (split; [done | lia]).
      cbn [bind ret]. rewrite !Nat.add_0_l.
      replace (length l1 + S (length rest) - (length l1 + 1))
        with (length rest) by lia.
      eapply move_forward_ok; [exact Hb | by rewrite length_fmap | exact Hq]. }
    unfold last_element. cbn [size_ data_].
    rewrite decide_False by lia.
    erewrite bind_ok by (apply RawMemory_at_ok; simpl; lia).
    erewrite bind_ok; cycle 1.
    { apply in_memory_ok. cbn [ptr_add buffer_].
      eapply (destroy_at_ok _ _ ((Live <$> l1) ++ (Live <$> rest)));
        [ rewrite put_block_lookup, shifted_left_snoc, fmap_app;
          rewrite <- !app_assoc; reflexivity
        | rewrite length_app, !length_fmap; lia ]. }
    cbn. reflexivity.
  - repeat split; cbn [size_ data_ capacity_ buffer_];
      rewrite ?length_app; try lia.
    heap_simpl. f_equal. unfold cells.
    rewrite fmap_app, length_app, <- !app_assoc. do 2 f_equal.
    replace (cap - (length l1 + length rest))
      with (S (cap - (length l1 + S (length rest)))) by lia.
    reflexivity.
  - trace_simpl.
Qed.

(** *** Copies of a whole vector *)

Lemma cells_lookup_live_at cap (xs : list T) i k x :
  drop i xs !! k = Some x -> cells cap xs !! (i + 0 + k) = Some (Live x).
Proof.
  rewrite lookup_drop, Nat.add_0_r. apply cells_lookup_live.
Qed.

Lemma Vector_copy_ok w rhs ys :
  holds w rhs ys -> Forall (fun y => copy_throws y = false) ys ->
  exists w' v',
    Vector_copy rhs w = Ok w' v' /\
    holds w' v' ys /\ Capacity v' = length ys /\
    (buffer_ (data_ v') = Null \/ buffer_ (data_ v') = Ptr (new_block w) 0) /\
    (forall a, a <> new_block w -> heap w' !! a = heap w !! a) /\
    trace w' = trace w ++ (EvCopyCtor <$> ys).
Proof.
  intros (Hsize & Hcap & Hbuf) Hys.
  destruct rhs as [[buf cap] sz]. simpl in *. subst sz.
  unfold Vector_copy. cbn [size_ data_ GetAddress buffer_].
  destruct ys as [| y ys'].
  - exists w, (MkVector (MkRawMemory Null 0) 0).
    split; [reflexivity |].
    repeat split; simpl; rewrite ?app_nil_r; auto.
  - set (ys := y :: ys') in *.
    destruct buf as [| a off]; [simpl in *; lia |].
    destruct Hbuf as (-> & Hpos & Ha).
    assert (Hne : a <> new_block w).
    { intros ->. by rewrite new_block_fresh in Ha. }
    eexists _, (MkVector (MkRawMemory (Ptr (new_block w) 0) (length ys))
                         (length ys)).
    split; [| split; [| split; [| split; [| split]]]].
    + erewrite bind_ok by (by apply RawMemory_new_ok).
      erewrite bind_ok; cycle 1.
      { apply on_throw_ok. unfold uninitialized_copy_n. cbn [buffer_].
        eapply (uninitialized_copy_from_ok _ a (new_block w) 0 0 0
                  (cells cap ys) ys [] (replicate (length ys) Raw) []);
          [ exact Hne
          | rewrite put_block_lookup_ne by done; exact Ha
          | intros k x Hk; simpl; by apply cells_lookup_live
          | rewrite put_block_lookup; by rewrite app_nil_r
          | done
          | by rewrite length_replicate
          | exact Hys ]. }
      reflexivity.
    + repeat split; cbn [size_ data_ capacity_ buffer_]; try (simpl; lia).
      heap_simpl. by rewrite cells_full, app_nil_r.
    + reflexivity.
    + by right.
    + intros a' Ha'. heap_simpl. reflexivity.
    + trace_simpl.
Qed.

(** Either no element makes [f] true, or there is a first one that does. *)
Lemma first_true (f : T -> bool) (xs : list T) :
  Forall (fun x => f x = false) xs \/
  exists xs1 y xs2,
    xs = xs1 ++ y :: xs2 /\ Forall (fun x => f x = false) xs1 /\ f y = true.
Proof.
  induction xs as [| x xs IH]; [by left |].
  destruct (f x) eqn:Hx.
  - right. exists [], x, xs. by repeat split.
  - destruct IH as [IH | (xs1 & y & xs2 & -> & H1 & Hy)].
    + left. by constructor.
    + right. exists (x :: xs1), y, xs2. repeat split; [| done].
      by constructor.
Qed.

Lemma copy_construct_at_throw w a c (src dst : list slot) i j x :
  heap w !! a = Some src -> src !! j = Some (Live x) ->
  heap w !! c = Some dst -> i < length dst ->
  copy_throws x = true ->
  copy_construct_at (Ptr c i) (Ptr a j) w = Throw w.
Proof.
  intros Ha Hj Hc Hi Hx. unfold copy_construct_at.
  erewrite bind_ok by (by eapply load_ok).
  eapply construct_at_throw; [exact Hc | exact Hi |].
  simpl. by rewrite Hx.
Qed.

(** When the copy constructor throws on [y], after the objects [xs1] were
    copied, every copy made so far (the [ds] of earlier rounds too) is
    destroyed again and the exception goes on. *)
Lemma uninitialized_copy_from_throw w a c i0 j0 n (src : list slot)
    ds xs1 y pre mid post :
  a <> c ->
  heap w !! a = Some src ->
  (forall k x, (xs1 ++ [y]) !! k = Some x ->
               src !! (i0 + length ds + k) = Some (Live x)) ->
  heap w !! c = Some (pre ++ (Live <$> ds) ++ mid ++ post) ->
  length pre = j0 -> length xs1 < length mid -> length xs1 < n ->
  Forall (fun x => copy_throws x = false) xs1 -> copy_throws y = true ->
  uninitialized_copy_from (Ptr a i0) (length ds) n (Ptr c j0) w
  = Throw (put_block c
             (pre ++ replicate (length ds + length xs1) Raw
                  ++ drop (length xs1) mid ++ post)
             ((EvCopyCtor <$> xs1) ++ (EvDtor <$> (ds ++ xs1))) w).
Proof.
  intros Hac. revert w n ds mid.
  induction xs1 as [| x xs1 IH];
    intros w n ds mid Ha Hsrc Hc Hpre Hmid Hn Hxs Hy.
  - destruct n as [| n]; [simpl in *; lia |]. simpl.
    apply bind_throw.
    eapply on_throw_throw.
    + eapply copy_construct_at_throw; [exact Ha | | exact Hc | | exact Hy].
      * specialize (Hsrc 0 y eq_refl). by rewrite Nat.add_0_r in Hsrc.
      * rewrite !length_app, length_fmap. simpl in Hmid. lia.
    + erewrite destroy_n_ok; [| exact Hc | done | done].
      rewrite Nat.add_0_r, app_nil_r. reflexivity.
  - destruct n as [| n]; [simpl in *; lia |].
    destruct mid as [| s mid]; [simpl in *; lia |].
    apply Forall_cons in Hxs as [Hx Hxs]. simpl.
    erewrite bind_ok; cycle 1.
    { apply on_throw_ok.
      eapply (copy_construct_at_ok _ a c src (pre ++ (Live <$> ds))
                (mid ++ post) s);
        [ exact Ha | | by rewrite <- app_assoc
        | rewrite length_app, length_fmap; lia | exact Hx ].
      specialize (Hsrc 0 x eq_refl). by rewrite Nat.add_0_r in Hsrc. }
    replace (S (length ds)) with (length (ds ++ [x]))
      by (rewrite length_app; simpl; lia).
    erewrite (IH _ n (ds ++ [x]) mid).
    + rewrite put_block_put_block. f_equal. f_equal.
      * rewrite length_app. simpl.
        by replace (length ds + 1 + length xs1)
          with (length ds + S (length xs1)) by lia.
      * rewrite <- !app_assoc. reflexivity.
    + by rewrite put_block_lookup_ne.
    + intros k z Hk. specialize (Hsrc (S k) z Hk).
      rewrite length_app. simpl.
      by replace (i0 + (length ds + 1) + k) with (i0 + length ds + S k) by lia.
    + rewrite put_block_lookup. rewrite fmap_app, <- !app_assoc. reflexivity.
    + done.
    + simpl in Hmid. lia.
    + simpl in Hn. lia.
    + done.
    + done.
Qed.

Lemma Vector_copy_throw w rhs ys1 y ys2 :
  holds w rhs (ys1 ++ y :: ys2) ->
  Forall (fun x => copy_throws x = false) ys1 -> copy_throws y = true ->
  Vector_copy rhs w
  = Throw (log ((EvCopyCtor <$> ys1) ++ (EvDtor <$> ys1)) w).
Proof.
  intros (Hsize & Hcap & Hbuf) Hys1 Hy.
  destruct rhs as [[buf cap] sz]. simpl in *. subst sz.
  rewrite length_app in *. simpl in *.
  destruct buf as [| a off]; [lia |].
  destruct Hbuf as (-> & Hpos & Ha).
  assert (Hne : a <> new_block w).
  { intros ->. by rewrite new_block_fresh in Ha. }
  unfold Vector_copy. cbn [size_ data_ GetAddress buffer_].
  erewrite bind_ok by (apply RawMemory_new_ok; lia).
  apply bind_throw. eapply on_throw_throw.
  - unfold uninitialized_copy_n. cbn [buffer_].
    eapply (uninitialized_copy_from_throw _ a (new_block w) 0 0 _
              (cells cap (ys1 ++ y :: ys2)) [] ys1 y []
              (replicate (length ys1 + S (length ys2)) Raw) []);
      [ exact Hne
      | rewrite put_block_lookup_ne by done; exact Ha
      | intros k x Hk; simpl; apply cells_lookup_live;
        rewrite (cons_middle y), app_assoc; by apply lookup_app_l_Some
      | rewrite put_block_lookup; by rewrite app_nil_r
      | done
      | rewrite length_replicate; lia
      | lia
      | exact Hys1
      | exact Hy ].
  - unfold RawMemory_dtor. cbn [buffer_].
    erewrite Deallocate_ok by apply put_block_lookup.
    rewrite put_block_put_block.
    rewrite free_block_put_block by apply new_block_fresh.
    reflexivity.
Qed.

(** *** Swapping and destroying vectors *)

Lemma Swap_ok v other (w : world (T:=T)) :
  Swap other (v, w)
  = Ok (MkVector (data_ other) (size_ other), w)
       (MkVector (data_ v) (size_ v)).
Proof. by destruct v as [[? ?] ?], other as [[? ?] ?]. Qed.

Lemma Vector_dtor_ok w v xs :
  holds w v xs ->
  exists w',
    Vector_dtor v w = Ok w' tt /\
    (forall a, buffer_ (data_ v) <> Ptr a 0 -> heap w' !! a = heap w !! a) /\
    trace w' = trace w ++ (EvDtor <$> xs).
Proof.
  intros (Hsize & Hcap & Hbuf).
  destruct v as [[buf cap] sz]. simpl in *. subst sz.
  unfold Vector_dtor. cbn [size_ data_ GetAddress buffer_].
  destruct buf as [| b off].
  - subst cap. destruct xs; [| simpl in *; lia].
    exists w. repeat split. simpl. by rewrite app_nil_r.
  - destruct Hbuf as (-> & Hpos & Hb).
    eexists. split; [| split].
    + erewrite bind_ok; cycle 1.
      { eapply (destroy_n_ok _ _ [] xs); [exact Hb | done | done]. }
      unfold RawMemory_dtor. cbn [buffer_].
      eapply Deallocate_ok. apply put_block_lookup.
    + intros a Ha. assert (b <> a) by congruence. heap_simpl. reflexivity.
    + trace_simpl.
Qed.

(** *** The loops of copy assignment *)

Lemma for_loop_destroy_ok v w b pre xs post from :
  heap w !! b = Some (pre ++ (Live <$> xs) ++ post) -> from = length pre ->
  for_loop from (length xs)
    (fun i => in_memory (destroy_at (ptr_add (Ptr b 0) i))) (v, w)
  = Ok (v, put_block b (pre ++ replicate (length xs) Raw ++ post)
                     (EvDtor <$> xs) w) tt.
Proof.
  revert w pre from. induction xs as [| x xs IH]; intros w pre from Hb ->.
  - simpl. unfold ret. do 2 f_equal. symmetry. by apply put_block_same.
  - simpl in Hb |- *.
    erewrite bind_ok
      by (apply in_memory_ok; by eapply destroy_at_ok).
    erewrite (IH _ (pre ++ [Raw])).
    + rewrite put_block_put_block. by rewrite <- app_assoc.
    + rewrite put_block_lookup. by rewrite <- app_assoc.
    + rewrite length_app. simpl. lia.
Qed.

Lemma copy_assign_at_ok w a b (src : list slot) pre post d x i j :
  a <> b ->
  heap w !! a = Some src -> src !! j = Some (Live x) ->
  heap w !! b = Some (pre ++ Live d :: post) -> i = length pre ->
  copy_assign_throws d x = false ->
  copy_assign_at (Ptr b i) (Ptr a j) w
  = Ok (put_block b (pre ++ Live x :: post) [EvCopyAssign d x] w) tt.
Proof.
  intros Hab Ha Hj Hb -> Hq. unfold copy_assign_at.
  erewrite bind_ok
    by (eapply load_ok; [exact Hb | by apply lookup_middle]).
  erewrite bind_ok by (by eapply load_ok).
  rewrite Hq.
  erewrite bind_ok by apply emit_ok.
  erewrite write_slot_ok; [| exact Hb | rewrite length_app; simpl; lia].
  rewrite put_block_log. by rewrite insert_middle.
Qed.

Lemma for_loop_copy_assign_ok v w a b cap rcap (src : list slot)
    pre ds ss post from :
  a <> b ->
  heap w !! a = Some src ->
  (forall k s, ss !! k = Some s -> src !! (from + k) = Some (Live s)) ->
  heap w !! b = Some (pre ++ (Live <$> ds) ++ post) ->
  from = length pre -> length ds = length ss ->
  from + length ss <= cap -> from + length ss <= rcap ->
  Forall (fun p => copy_assign_throws p.1 p.2 = false) (zip ds ss) ->
  for_loop from (length ss)
    (fun i =>
       dst <- RawMemory_at (MkRawMemory (Ptr b 0) cap) i ;;
       src <- RawMemory_at (MkRawMemory (Ptr a 0) rcap) i ;;
       in_memory (copy_assign_at dst src)) (v, w)
  = Ok (v, put_block b (pre ++ (Live <$> ss) ++ post)
                     (zip_with EvCopyAssign ds ss) w) tt.
Proof.
  intros Hab. revert w pre ds from.
  induction ss as [| s ss IH];
    intros w pre ds from Ha Hsrc Hb -> Hlen Hcap Hrcap Hq.
  - destruct ds; [| done]. simpl. unfold ret. do 2 f_equal. symmetry.
    by apply put_block_same.
  - destruct ds as [| d ds]; [done |]. simpl in *.
    apply Forall_cons in Hq as [Hq1 Hq]. simpl in Hq1.
    erewrite bind_ok; cycle 1.
    { erewrite bind_ok by (apply RawMemory_at_ok; simpl; lia).
      erewrite bind_ok by (apply RawMemory_at_ok; simpl; lia).
      apply in_memory_ok. cbn [ptr_add buffer_].
      eapply (copy_assign_at_ok _ a b src pre _ d s);
        [exact Hab | exact Ha | | exact Hb | done | exact Hq1].
      specialize (Hsrc 0 s eq_refl). by rewrite Nat.add_0_r in Hsrc. }
    erewrite (IH _ (pre ++ [Live s]) ds).
    + rewrite put_block_put_block. by rewrite <- app_assoc.
    + by rewrite put_block_lookup_ne.
    + intros k z Hk. specialize (Hsrc (S k) z Hk).
      by replace (S (length pre) + k) with (length pre + S k) by lia.
    + rewrite put_block_lookup. by rewrite <- app_assoc.
    + rewrite length_app. simpl. lia.
    + lia.
    + lia.
    + lia.
    + done.
Qed.

Lemma holds_frame (w w' : world (T:=T)) v xs :
  holds w v xs ->
  (forall b, buffer_ (data_ v) = Ptr b 0 -> heap w' !! b = heap w !! b) ->
  holds w' v xs.
Proof.
  intros (Hsize & Hcap & Hbuf) Hframe. repeat split; [done | done |].
  destruct (buffer_ (data_ v)) as [| b off]; [done |].
  destruct Hbuf as (-> & Hpos & Hb). repeat split; [done |].
  by rewrite Hframe.
Qed.

Lemma holds_allocated (w : world (T:=T)) v xs b off :
  holds w v xs -> buffer_ (data_ v) = Ptr b off -> b <> new_block w.
Proof.
  intros (_ & _ & Hbuf) Hb. rewrite Hb in Hbuf.
  destruct Hbuf as (_ & _ & Hlk). intros ->.
  by rewrite new_block_fresh in Hlk.
Qed.

(** *** Copy assignment, first policy: a copy is built and swapped in *)

Lemma copy_assign_realloc_ok w v rhs xs ys :
  holds w v xs -> holds w rhs ys -> apart v rhs ->
  Capacity v < length ys ->
  Forall (fun y => copy_throws y = false) ys ->
  exists v' w',
    Vector_copy_assign (Another rhs) (v, w) = Ok (v', w') tt /\
    holds w' v' ys /\ holds w' rhs ys /\
    Capacity v' = length ys /\
    trace w' = trace w ++ (EvCopyCtor <$> ys) ++ (EvDtor <$> xs).
Proof.
  intros Hv Hrhs Hapart Hlt Hys.
  destruct (Vector_copy_ok w rhs ys Hrhs Hys)
    as (w1 & v1 & Hcopy & Hv1 & Hcap1 & Hbuf1 & Hframe1 & Htr1).
  assert (Hv_w1 : holds w1 v xs).
  { eapply holds_frame; [exact Hv |]. intros b Hb. apply Hframe1.
    eapply holds_allocated; [exact Hv | exact Hb]. }
  destruct (Vector_dtor_ok w1 v xs Hv_w1) as (w2 & Hdtor & Hframe2 & Htr2).
  assert (Hb1 : buffer_ (data_ v1) = Ptr (new_block w) 0).
  { destruct Hbuf1 as [Hnull |]; [| done].
    destruct Hv1 as (_ & _ & Hb). rewrite Hnull in Hb.
    unfold Capacity, RawMemory_Capacity in *. lia. }
  exists v1, w2. split; [| split; [| split; [| split]]].
  - unfold Vector_copy_assign. cbn [bind this fst].
    assert (Hsz : size_ rhs = length ys) by apply Hrhs.
    rewrite decide_True by (rewrite Hsz; done).
    erewrite bind_ok by (apply in_memory_ok; exact Hcopy).
    erewrite bind_ok by apply Swap_ok.
    destruct v as [dv sv], v1 as [d1 s1]. cbn [data_ size_].
    by apply in_memory_ok.
  - eapply holds_frame; [exact Hv1 |]. intros b Hb. apply Hframe2.
    rewrite Hb1 in Hb. injection Hb as <-.
    intros Hbv. by eapply (holds_allocated w v xs) in Hbv.
  - eapply holds_frame; [exact Hrhs |]. intros a Ha.
    rewrite Hframe2.
    + apply Hframe1. eapply holds_allocated; [exact Hrhs | exact Ha].
    + intros Hbv. unfold apart in Hapart. by rewrite Hbv, Ha in Hapart.
  - done.
  - rewrite Htr2, Htr1. by rewrite <- app_assoc.
Qed.

Lemma copy_assign_realloc_throw w v rhs xs ys1 y ys2 :
  holds w v xs -> holds w rhs (ys1 ++ y :: ys2) ->
  Capacity v < length (ys1 ++ y :: ys2) ->
  Forall (fun x => copy_throws x = false) ys1 -> copy_throws y = true ->
  Vector_copy_assign (Another rhs) (v, w)
  = Throw (v, log ((EvCopyCtor <$> ys1) ++ (EvDtor <$> ys1)) w).
Proof.
  intros Hv Hrhs Hlt Hys1 Hy.
  unfold Vector_copy_assign. cbn [bind this fst].
  assert (Hsz : size_ rhs = length (ys1 ++ y :: ys2)) by apply Hrhs.
  rewrite decide_True by (rewrite Hsz; done).
  apply bind_throw. apply in_memory_throw.
  by eapply Vector_copy_throw.
Qed.

(** *** Copy assignment, second policy: in place *)

Lemma zip_with_take_lengths {A B C} (f : A -> B -> C) (l : list A) (k : list B) :
  zip_with f (take (length k) l) (take (length l) k) = zip_with f l k.
Proof.
  revert k. induction l as [| x l IH]; intros [| y k]; simpl; try done.
  by rewrite IH.
Qed.

Lemma cells_take_split cap (xs : list T) k :
  cells cap xs
  = (Live <$> take k xs) ++ (Live <$> drop k xs)
    ++ replicate (cap - length xs) Raw.
Proof. unfold cells. by rewrite app_assoc, <- fmap_app, take_drop. Qed.

Lemma destroy_excess_ok v w b cap xs k :
  heap w !! b = Some (cells cap xs) -> length xs <= cap ->
  (if decide (k < length xs)
   then for_loop k (length xs - k)
          (fun i => in_memory (destroy_at (ptr_add (Ptr b 0) i)))
   else ret tt) (v, w)
  = Ok (v, put_block b (cells cap (take k xs)) (EvDtor <$> drop k xs) w) tt.
Proof.
  intros Hb Hcap. case_decide as Hk.
  - rewrite (cells_take_split cap xs k) in Hb.
    replace (length xs - k) with (length (drop k xs))
      by (rewrite length_drop; lia).
    erewrite for_loop_destroy_ok;
      [| exact Hb | rewrite length_fmap, length_take; lia].
    do 3 f_equal. unfold cells.
    rewrite length_take, length_drop, <- replicate_add. do 2 f_equal. lia.
  - rewrite take_ge, drop_ge by lia. unfold ret. do 2 f_equal.
    symmetry. by apply put_block_same.
Qed.

Lemma copy_tail_ok v w a b cap rcap ys j :
  a <> b ->
  heap w !! a = Some (cells rcap ys) ->
  heap w !! b = Some (cells cap (take j ys)) -> length ys <= cap ->
  Forall (fun y => copy_throws y = false) (drop j ys) ->
  (if decide (j < length ys)
   then in_memory (uninitialized_copy_n (ptr_add (Ptr a 0) j) (length ys - j)
                                        (ptr_add (Ptr b 0) j))
   else ret tt) (v, w)
  = Ok (v, put_block b (cells cap ys) (EvCopyCtor <$> drop j ys) w) tt.
Proof.
  intros Hab Ha Hb Hcap Hq. case_decide as Hj.
  - apply in_memory_ok. unfold uninitialized_copy_n. cbn [ptr_add].
    replace (length ys - j) with (length (drop j ys))
      by (rewrite length_drop; lia).
    erewrite (uninitialized_copy_from_ok _ a b _ _ 0 (cells rcap ys)
                (drop j ys) (Live <$> take j ys)
                (replicate (length ys - j) Raw)
                (replicate (cap - length ys) Raw));
      [ | exact Hab | exact Ha
        | intros k x Hk; by apply cells_lookup_live_at
        | rewrite Hb; unfold cells; rewrite length_take;
          rewrite <- replicate_add; do 3 f_equal; lia
        | rewrite length_fmap, length_take; lia
        | rewrite length_replicate, length_drop; lia
        | exact Hq ].
    do 2 f_equal. symmetry. apply cells_take_split.
  - rewrite take_ge in Hb by lia. rewrite drop_ge by lia.
    unfold ret. do 2 f_equal. symmetry. by apply put_block_same.
Qed.

Lemma copy_assign_in_place_ok w v rhs xs ys :
  holds w v xs -> holds w rhs ys -> apart v rhs ->
  length ys <= Capacity v ->
  Forall (fun p => copy_assign_throws p.1 p.2 = false) (zip xs ys) ->
  Forall (fun y => copy_throws y = false) (drop (length xs) ys) ->
  exists w',
    Vector_copy_assign (Another rhs) (v, w)
    = Ok (MkVector (data_ v) (length ys), w') tt /\
    holds w' (MkVector (data_ v) (length ys)) ys /\ holds w' rhs ys /\
    trace w' = trace w ++ (EvDtor <$> drop (length ys) xs)
               ++ zip_with EvCopyAssign xs ys
               ++ (EvCopyCtor <$> drop (length xs) ys).
Proof.
  intros (Hsize & Hcap & Hbuf) (Hrsize & Hrcap & Hrbuf) Hapart Hle Hq Hqt.
  destruct v as [[buf cap] sz], rhs as [[rbuf rcap] rsz].
  unfold apart, Capacity, RawMemory_Capacity in *. simpl in *. subst sz rsz.
  unfold Vector_copy_assign, Capacity, RawMemory_Capacity.
  cbn [bind this fst snd data_ size_ capacity_ GetAddress buffer_].
  rewrite decide_False by lia.
  destruct buf as [| b off].
  { (* no storage on the left: both vectors are empty *)
    subst cap. destruct ys; [| simpl in *; lia].
    destruct xs; [| simpl in *; lia].
    exists w. split; [reflexivity |]. split; [| split].
    - by repeat split.
    - by repeat split.
    - simpl. by rewrite app_nil_r. }
  destruct Hbuf as (-> & Hpos & Hb).
  destruct rbuf as [| a roff].
  { (* no storage on the right: everything on the left is destroyed *)
    subst rcap. destruct ys; [| simpl in *; lia]. cbn [length].
    rewrite Nat.min_0_r.
    erewrite bind_ok by (by apply (destroy_excess_ok _ _ _ cap xs 0)).
    cbn [bind for_loop ret]. rewrite decide_False by lia. cbn.
    eexists. split; [reflexivity |]. split; [| split].
    - repeat split; cbn [size_ data_ capacity_ buffer_ length]; try lia.
      heap_simpl. reflexivity.
    - repeat split; simpl; lia.
    - trace_simpl. rewrite zip_with_nil_r, drop_nil. simpl.
      by rewrite app_nil_r. }
  destruct Hrbuf as (-> & Hrpos & Ha).
  apply not_eq_sym in Hapart.
  (* both vectors have storage *)
  erewrite bind_ok by (by apply (destroy_excess_ok _ _ _ cap xs (length ys))).
  erewrite bind_ok; cycle 1.
  { replace (length xs `min` length ys)
      with (length (take (length xs) ys)) by (rewrite length_take; lia).
    eapply (for_loop_copy_assign_ok _ _ a b cap rcap (cells rcap ys) []
              (take (length ys) xs) (take (length xs) ys)
              (replicate (cap - length (take (length ys) xs)) Raw) 0);
      [ exact Hapart
      | by rewrite put_block_lookup_ne
      | intros k s Hk; apply cells_lookup_live;
        by eapply lookup_take_Some
      | by rewrite put_block_lookup
      | done
      | rewrite !length_take; lia
      | rewrite length_take; lia
      | rewrite length_take; lia
      | by rewrite (zip_with_take_lengths pair xs ys) ]. }
  rewrite put_block_put_block.
  erewrite bind_ok; cycle 1.
  { eapply (copy_tail_ok _ _ a b cap rcap ys (length xs));
      [ exact Hapart
      | by rewrite put_block_lookup_ne
      | rewrite put_block_lookup; unfold cells; rewrite !length_take;
        cbn [app]; do 3 f_equal; lia
      | lia
      | exact Hqt ]. }
  rewrite put_block_put_block. cbn.
  eexists. split; [reflexivity |]. split; [| split].
  - repeat split; cbn [size_ data_ capacity_ buffer_]; try lia.
    heap_simpl. reflexivity.
  - repeat split; cbn [size_ data_ capacity_ buffer_]; try lia.
    by heap_simpl.
  - trace_simpl. by rewrite zip_with_take_lengths.
Qed.

(** *** Calls that leave the members alone *)

Lemma keeps_this_ret {A} (a : A) : keeps_this (ret a).
Proof. by intros v w. Qed.

Lemma keeps_this_in_memory {A} (m : M world A) : keeps_this (in_memory m).
Proof. intros v w. unfold in_memory. simpl. by destruct (m w). Qed.

Lemma keeps_this_bind {A B} (m : method A) (f : A -> method B) :
  keeps_this m -> (forall a, keeps_this (f a)) -> keeps_this (x <- m ;; f x).
Proof.
  intros Hm Hf v w. unfold bind. specialize (Hm v w).
  destruct (m (v, w)) as [[v1 w1] a | [v1 w1] | |]; simpl in *; try done.
  subst v1. apply Hf.
Qed.

Lemma keeps_this_RawMemory_at r i : keeps_this (RawMemory_at r i).
Proof.
  intros v w. unfold RawMemory_at, assert, bind. by case_decide.
Qed.

Lemma keeps_this_for_loop from n (body : nat -> method unit) :
  (forall i, keeps_this (body i)) -> keeps_this (for_loop from n body).
Proof.
  intros Hbody. revert from. induction n as [| n IH]; intros from; simpl.
  - apply keeps_this_ret.
  - apply keeps_this_bind; [apply Hbody | intros _; apply IH].
Qed.

Lemma keeps_this_if {A} (b : bool) (m1 m2 : method A) :
  keeps_this m1 -> keeps_this m2 -> keeps_this (if b then m1 else m2).
Proof. by destruct b. Qed.

Lemma keeps_this_throw {A} (m : method A) v w v' w' :
  keeps_this m -> m (v, w) = Throw (v', w') -> v' = v.
Proof. intros Hm Hthrow. specialize (Hm v w). by rewrite Hthrow in Hm. Qed.

Lemma keeps_this_seq_throw {A B} (m : method A) (k : A -> method B)
    v w v' w' :
  keeps_this m ->
  (forall a w1, k a (v, w1) = Throw (v', w') -> v' = v) ->
  (x <- m ;; k x) (v, w) = Throw (v', w') -> v' = v.
Proof.
  intros Hm Hk. unfold bind. specialize (Hm v w).
  destruct (m (v, w)) as [[v1 w1] a | [v1 w1] | |]; simpl in *; try done.
  - subst v1. apply Hk.
  - by intros [= -> _].
Qed.

(** In its second policy copy assignment writes [size_] last: an exception
    finds the members as they were. *)
Lemma copy_assign_in_place_throw v rhs (w : world (T:=T)) v' w' :
  size_ rhs <= Capacity v ->
  Vector_copy_assign (Another rhs) (v, w) = Throw (v', w') -> v' = v.
Proof.
  intros Hle. unfold Vector_copy_assign. cbn [bind this fst].
  rewrite decide_False by lia.
  apply keeps_this_seq_throw.
  { case_decide; [| apply keeps_this_ret].
    apply keeps_this_for_loop. intros i. apply keeps_this_in_memory. }
  intros _ w1. apply keeps_this_seq_throw.
  { apply keeps_this_for_loop. intros i.
    apply keeps_this_bind; [apply keeps_this_RawMemory_at |].
    intros dst. apply keeps_this_bind; [apply keeps_this_RawMemory_at |].
    intros src. apply keeps_this_in_memory. }
  intros _ w2. apply keeps_this_seq_throw.
  { case_decide; [apply keeps_this_in_memory | apply keeps_this_ret]. }
  intros _ w3. discriminate.
Qed.

(** *** Exceptions while [EmplaceBack] grows the storage *)

Lemma EmplaceBack_ctor_throw w v xs args :
  holds w v xs -> size_ v = Capacity v -> built args = None ->
  EmplaceBack args (v, w) = Throw (v, w).
Proof.
  intros (Hsize & Hcap & Hbuf) Hfull Hx.
  unfold EmplaceBack. cbn [bind this fst].
  rewrite decide_True by done.
  apply bind_throw.
  erewrite with_new_data_throw.
  - rewrite free_block_put_block by apply new_block_fresh.
    by rewrite log_nil.
  - pose proof (grown_capacity_gt (size_ v)). lia.
  - erewrite bind_ok
      by (apply RawMemory_plus_ok; simpl;
          pose proof (grown_capacity_gt (size_ v)); lia).
    apply bind_throw. apply in_memory_throw. cbn [ptr_add buffer_].
    eapply construct_at_throw; [apply put_block_lookup | | exact Hx].
    rewrite length_replicate. pose proof (grown_capacity_gt (size_ v)). lia.
  - apply put_block_lookup.
Qed.

Lemma EmplaceBack_copy_throw w v xs1 y xs2 args x :
  holds w v (xs1 ++ y :: xs2) -> size_ v = Capacity v ->
  built args = Some x -> relocates_by_move = false ->
  Forall (fun x => copy_throws x = false) xs1 -> copy_throws y = true ->
  EmplaceBack args (v, w)
  = Throw (v, log (ctor_event args x :: (EvCopyCtor <$> xs1)
                   ++ (EvDtor <$> xs1)) w).
Proof.
  intros (Hsize & Hcap & Hbuf) Hfull Hx Hmode Hxs1 Hy.
  destruct v as [[buf cap] sz].
  unfold Capacity, RawMemory_Capacity in *. simpl in *. subst sz cap.
  set (xs := xs1 ++ y :: xs2) in *.
  assert (Hlen : length xs = length xs1 + S (length xs2)).
  { unfold xs. rewrite length_app. reflexivity. }
  destruct buf as [| b off]; [lia |].
  destruct Hbuf as (-> & Hpos & Hb). rewrite cells_full in Hb.
  assert (Hne : b <> new_block w).
  { intros ->. by rewrite new_block_fresh in Hb. }
  assert (Hg : grown_capacity (length xs) = length xs + S (length xs - 1)).
  { unfold grown_capacity. rewrite decide_False by lia. lia. }
  unfold EmplaceBack, Capacity, RawMemory_Capacity.
  cbn [bind this fst snd data_ size_ capacity_].
  rewrite decide_True by done.
  apply bind_throw.
  erewrite with_new_data_throw; cycle 1.
  - lia.
  - erewrite bind_ok by (apply RawMemory_plus_ok; simpl; lia).
    cbn [ptr_add buffer_].
    erewrite bind_ok; cycle 1.
    { apply in_memory_ok.
      eapply (construct_at_ok _ _ (replicate (length xs) Raw)
                (replicate (length xs - 1) Raw));
        [ rewrite put_block_lookup, Hg, replicate_add; reflexivity
        | by rewrite length_replicate | exact Hx ]. }
    rewrite put_block_put_block.
    apply bind_throw. apply in_memory_throw.
    unfold CopyOrMove. rewrite Hmode. apply bind_throw.
    unfold uninitialized_copy_n. cbn [GetAddress buffer_].
    eapply (uninitialized_copy_from_throw _ b (new_block w) 0 0 _
              (Live <$> xs) [] xs1 y []
              (replicate (length xs) Raw ++ Live x
                 :: replicate (length xs - 1) Raw) []);
      [ exact Hne
      | by rewrite put_block_lookup_ne
      | intros k z Hk; simpl; rewrite list_lookup_fmap; unfold xs;
        rewrite (cons_middle y), app_assoc;
        by rewrite (lookup_app_l_Some _ _ _ _ Hk)
      | rewrite put_block_lookup; by rewrite app_nil_r
      | done
      | rewrite length_app, length_replicate; lia
      | lia
      | exact Hxs1
      | exact Hy ].
  - apply put_block_lookup.
  - rewrite !put_block_put_block.
    rewrite free_block_put_block by apply new_block_fresh.
    reflexivity.
Qed.

Lemma EmplaceBack_growth_throw w v xs args v' w' :
  holds w v xs -> size_ v = Capacity v ->
  (relocates_by_move = true -> Forall (fun x => move_throws x = false) xs) ->
  EmplaceBack args (v, w) = Throw (v', w') ->
  v' = v /\ heap w' = heap w.
Proof.
  intros Hv Hfull Hmove Hthrow.
  destruct (built args) as [x |] eqn:Hx.
  - destruct relocates_by_move eqn:Hmode.
    + destruct (EmplaceBack_ok w v xs args x Hv Hx) as (v1 & w1 & Hok & _).
      { intros _. unfold relocatable. rewrite Hmode. by apply Hmove. }
      rewrite Hok in Hthrow. discriminate.
    + destruct (first_true copy_throws xs)
        as [Hq | (xs1 & y & xs2 & -> & Hq & Hy)].
      * destruct (EmplaceBack_ok w v xs args x Hv Hx) as (v1 & w1 & Hok & _).
        { intros _. unfold relocatable. by rewrite Hmode. }
        rewrite Hok in Hthrow. discriminate.
      * rewrite (EmplaceBack_copy_throw w v xs1 y xs2 args x) in Hthrow
          by done.
        by injection Hthrow as <- <-.
  - rewrite (EmplaceBack_ctor_throw w v xs args) in Hthrow by done.
    by injection Hthrow as <- <-.
Qed.

(** *** Pushing one element after another *)

Lemma doubled_capacity_step n :
  (if decide (n = doubled_capacity n) then grown_capacity n
   else doubled_capacity n) = doubled_capacity (S n).
Proof.
  unfold doubled_capacity, grown_capacity.
  rewrite (decide_False (P := S n = 0)) by lia.
  destruct (decide (n = 0)) as [-> | Hn]; [reflexivity |].
  destruct (decide (n = 1)) as [-> | Hn1]; [reflexivity |].
  pose proof (Nat.log2_up_spec n ltac:(lia)) as [Hlo Hhi].
  pose proof (Nat.log2_up_pos n ltac:(lia)) as Hpos.
  case_decide as Hfull.
  - rewrite Hfull at 2. rewrite Nat.log2_up_succ_pow2 by lia.
    rewrite Nat.pow_succ_r'. lia.
  - f_equal. symmetry. apply Nat.log2_up_unique; [done |]. lia.
Qed.

Lemma PushBack_ok w v xs x :
  holds w v xs -> copy_throws x = false ->
  (size_ v = Capacity v -> relocatable xs) ->
  exists v' w',
    PushBack x (v, w) = Ok (v', w') tt /\
    holds w' v' (xs ++ [x]) /\
    Capacity v' = (if decide (size_ v = Capacity v)
                   then grown_capacity (size_ v) else Capacity v).
Proof.
  intros Hv Hx Hreloc.
  destruct (EmplaceBack_ok w v xs (ConstRef x) x Hv) as (v' & w' & Hok & Hv' & Hcap & _).
  { simpl. by rewrite Hx. }
  { done. }
  exists v', w'. split; [| done].
  unfold PushBack. by erewrite bind_ok by exact Hok.
Qed.

Lemma PushBack_each_ok values : forall w v xs,
  holds w v xs -> Capacity v = doubled_capacity (length xs) ->
  Forall (fun x => copy_throws x = false) values ->
  relocatable (xs ++ values) ->
  exists v' w',
    PushBack_each values (v, w)
    = Ok (v', w') ((fun k => (k, doubled_capacity k))
                     <$> seq (S (length xs)) (length values)) /\
    holds w' v' (xs ++ values).
Proof.
  induction values as [| x values IH]; intros w v xs Hv Hcap Hq Hreloc.
  - exists v, w. split; [done |]. by rewrite app_nil_r.
  - apply Forall_cons in Hq as [Hx Hq].
    assert (Hsz : size_ v = length xs) by apply Hv.
    destruct (PushBack_ok w v xs x Hv Hx) as (v1 & w1 & Hok & Hv1 & Hcap1).
    { intros _. unfold relocatable in *. by apply Forall_app in Hreloc as [? _]. }
    rewrite Hsz, Hcap, doubled_capacity_step in Hcap1.
    assert (Hsz1 : size_ v1 = S (length xs)).
    { destruct Hv1 as (-> & _). rewrite length_app. simpl. lia. }
    destruct (IH w1 v1 (xs ++ [x])) as (v2 & w2 & Hrest & Hv2).
    + done.
    + rewrite length_app. simpl. by rewrite Nat.add_1_r.
    + done.
    + by rewrite <- app_assoc.
    + exists v2, w2. split; [| by rewrite <- app_assoc in Hv2].
      cbn [PushBack_each].
      erewrite bind_ok by exact Hok. cbn [bind this fst].
      erewrite bind_ok by exact Hrest.
      unfold ret, Size. rewrite Hsz1, Hcap1. do 2 f_equal.
      rewrite length_app. simpl. by rewrite Nat.add_1_r.
Qed.

(** *** Making room within one block *)

Lemma move_assign_at_right_ok w b pre post d x i :
  heap w !! b = Some (pre ++ Live x :: Live d :: post) -> i = length pre ->
  move_assign_throws d x = false ->
  move_assign_at (Ptr b (S i)) (Ptr b i) w
  = Ok (put_block b (pre ++ Live (moved_from x) :: Live x :: post)
                  [EvMoveAssign d x] w) tt.
Proof.
  intros Hb -> Hq. unfold move_assign_at.
  erewrite bind_ok; cycle 1.
  { eapply load_ok; [exact Hb |].
    rewrite (cons_middle (Live x)), app_assoc.
    apply lookup_middle. rewrite length_app. simpl. lia. }
  erewrite bind_ok
    by (eapply load_ok; [exact Hb | by apply lookup_middle]).
  rewrite Hq.
  erewrite bind_ok by apply emit_ok.
  erewrite bind_ok; cycle 1.
  { eapply write_slot_ok; [exact Hb | rewrite length_app; simpl; lia]. }
  erewrite write_slot_ok; cycle 1.
  { apply put_block_lookup. }
  { rewrite length_insert, length_app. simpl. lia. }
  rewrite put_block_put_block, put_block_log. f_equal. f_equal.
  rewrite insert_middle by done.
  rewrite (cons_middle (Live (moved_from x))), app_assoc.
  rewrite insert_middle by (rewrite length_app; simpl; lia).
  by rewrite <- app_assoc.
Qed.

(** The objects [xs] followed by [d], after each took the place behind it:
    the first place keeps what the last move left. *)
Lemma move_backward_steps_ok w b pre post d xs i :
  heap w !! b = Some (pre ++ (Live <$> xs) ++ Live d :: post) ->
  i = length pre + length xs -> shift_left_quiet d (rev xs) ->
  move_backward_steps (Ptr b i) (length xs) (Ptr b (S i)) w
  = Ok (put_block b
          (pre ++ Live (left_behind d (rev xs)) :: (Live <$> xs) ++ post)
          (shift_left_events d (rev xs)) w) tt.
Proof.
  revert w post d i. induction xs as [| x xs IH] using rev_ind;
    intros w post d i Hb -> Hq.
  - simpl. unfold ret. f_equal. symmetry. by apply put_block_same.
  - rewrite rev_unit in *. destruct Hq as [Hq1 Hq2].
    rewrite length_app. cbn [length]. rewrite Nat.add_1_r.
    cbn [move_backward_steps].
    replace (length pre + S (length xs)) with (S (length pre + length xs))
      by lia.
    cbn [ptr_dec bind ret].
    rewrite fmap_app, <- app_assoc in Hb. cbn [fmap list_fmap app] in Hb.
    rewrite app_assoc in Hb.
    erewrite bind_ok; cycle 1.
    { eapply move_assign_at_right_ok; [exact Hb | | exact Hq1].
      by rewrite length_app, length_fmap. }
    rewrite <- app_assoc.
    erewrite IH; [| by rewrite put_block_lookup | done | exact Hq2].
    rewrite put_block_put_block. cbn [shift_left_events left_behind].
    do 3 f_equal. rewrite fmap_app, <- app_assoc. reflexivity.
Qed.

Lemma move_construct_at_next_ok w b pre post s x i :
  heap w !! b = Some (pre ++ Live x :: s :: post) -> i = length pre ->
  move_throws x = false ->
  move_construct_at (Ptr b (S i)) (Ptr b i) w
  = Ok (put_block b (pre ++ Live (moved_from x) :: Live x :: post)
                  [EvMoveCtor x] w) tt.
Proof.
  intros Hb -> Hq. unfold move_construct_at.
  erewrite bind_ok
    by (eapply load_ok; [exact Hb | by apply lookup_middle]).
  erewrite bind_ok; cycle 1.
  { eapply (construct_at_ok _ _ (pre ++ [Live x]) post s);
      [ by rewrite <- app_assoc | rewrite length_app; simpl; lia |].
    simpl. by rewrite Hq. }
  erewrite write_slot_ok; cycle 1.
  { apply put_block_lookup. }
  { rewrite !length_app. simpl. lia. }
  rewrite put_block_put_block. f_equal. f_equal.
  rewrite <- app_assoc. cbn [app]. by rewrite insert_middle.
Qed.

Lemma assign_temporary_at_ok w b pre post d i args x :
  heap w !! b = Some (pre ++ Live d :: post) -> i = length pre ->
  built args = Some x -> move_assign_throws d x = false ->
  assign_temporary_at (Ptr b i) args w
  = Ok (put_block b (pre ++ Live x :: post)
          [ctor_event args x; EvMoveAssign d x; EvDtor (moved_from x)] w) tt.
Proof.
  intros Hb -> Hx Hq. unfold assign_temporary_at.
  erewrite bind_ok by (by apply construct_ok).
  erewrite bind_ok
    by (eapply load_ok; [exact Hb | by apply lookup_middle]).
  rewrite Hq.
  erewrite bind_ok by apply emit_ok.
  erewrite bind_ok; cycle 1.
  { eapply write_slot_ok; [exact Hb | rewrite length_app; simpl; lia]. }
  rewrite emit_ok, log_put_block, !put_block_log.
  by rewrite insert_middle.
Qed.

(** *** [Emplace] with room to spare, before an existing element *)

Lemma Emplace_room_ok w v l1 l2 z x :
  holds w v (l1 ++ l2 ++ [z]) -> size_ v < Capacity v ->
  value_init = Some x ->
  move_throws z = false ->
  shift_left_quiet (moved_from z) (rev l2) ->
  move_assign_throws (left_behind (moved_from z) (rev l2)) x = false ->
  exists w',
    Emplace (ptr_add (begin v) (length l1)) NoArgs (v, w)
    = Ok (MkVector (data_ v) (size_ v + 1), w')
         (ptr_add (begin v) (length l1)) /\
    holds w' (MkVector (data_ v) (size_ v + 1)) (l1 ++ x :: l2 ++ [z]) /\
    trace w' = trace w
               ++ EvMoveCtor z :: shift_left_events (moved_from z) (rev l2)
               ++ [EvValueCtor x;
                   EvMoveAssign (left_behind (moved_from z) (rev l2)) x;
                   EvDtor (moved_from x)].
Proof.
  intros (Hsize & Hcap & Hbuf) Hroom Hx Hz Hq Hqx.
  destruct v as [[buf cap] sz].
  unfold Capacity, RawMemory_Capacity in *. simpl in *. subst sz.
  rewrite !length_app in *. cbn [length] in *.
  destruct buf as [| b off]; [lia |].
  destruct Hbuf as (-> & Hpos & Hb).
  replace (length l1 + (length l2 + 1)) with (S (length l1 + length l2)) in *
    by lia.
  set (m := length l1 + length l2) in *.
  assert (Hblk : cells cap (l1 ++ l2 ++ [z])
                 = ((Live <$> l1) ++ (Live <$> l2)) ++ Live z :: Raw
                     :: replicate (cap - S m - 1) Raw).
  { rewrite cells_spare by (rewrite !length_app; simpl; lia).
    rewrite !fmap_app, !length_app. cbn [length fmap list_fmap].
    rewrite <- !app_assoc.
    by replace (length l1 + (length l2 + 1)) with (S m) by lia. }
  rewrite Hblk in Hb.
  unfold Emplace, Capacity, RawMemory_Capacity, begin, end_, GetAddress.
  cbn [forward_undeduced bind ret this fst snd data_ size_ capacity_ buffer_
       ptr_add].
  rewrite decide_False by lia.
  unfold ptr_diff. rewrite decide_True by (split; [done | lia]).
  cbn [bind ret]. rewrite !Nat.add_0_l, !Nat.sub_0_r.
  unfold last_element. cbn [size_ data_]. rewrite decide_False by lia.
  erewrite bind_ok by (apply RawMemory_at_ok; simpl; lia).
  cbn [ptr_add buffer_]. rewrite Nat.add_0_l.
  replace (S m - 1) with m by lia.
  eexists. split; [| split].
  - erewrite bind_ok; cycle 1.
    { apply in_memory_ok.
      eapply move_construct_at_next_ok; [exact Hb | | exact Hz].
      rewrite length_app, !length_fmap. lia. }
    cbn [ptr_dec bind ret].
    erewrite bind_ok; cycle 1.
    { apply in_memory_ok. unfold move_backward, ptr_diff.
      rewrite decide_True by (split; [done | lia]).
      cbn [bind ret].
      replace (m - length l1) with (length l2) by lia.
      eapply (move_backward_steps_ok _ _ (Live <$> l1) _ (moved_from z) l2);
        [ rewrite put_block_lookup, <- app_assoc; reflexivity
        | rewrite length_fmap; lia
        | exact Hq ]. }
    rewrite put_block_put_block.
    erewrite bind_ok by (apply RawMemory_at_ok; simpl; lia).
    cbn [ptr_add buffer_]. rewrite Nat.add_0_l.
    erewrite bind_ok; cycle 1.
    { apply in_memory_ok.
      eapply (assign_temporary_at_ok _ _ _ _ _ _ NoArgs x);
        [ apply put_block_lookup | by rewrite length_fmap
        | exact Hx | exact Hqx ]. }
    rewrite put_block_put_block. cbn. reflexivity.
  - unfold m in *. clear m Hblk.
    repeat split; cbn [size_ data_ capacity_ buffer_];
      rewrite ?length_app; cbn [length]; rewrite ?length_app;
      cbn [length]; try lia.
    heap_simpl. f_equal. unfold cells.
    rewrite !fmap_app. cbn [fmap list_fmap]. rewrite !fmap_app.
    cbn [fmap list_fmap]. rewrite <- !app_assoc. cbn [app].
    rewrite <- !app_assoc. cbn [app]. do 5 f_equal.
    rewrite !length_app. cbn [length]. rewrite length_app. cbn [length].
    lia.
  - trace_simpl.
Qed.

End Facts.

(** * Requests to [operator new] *)

Section Requests.

Context {T : Type} {E : Element T} {P : Platform T}.

Implicit Types (b : addr) (xs ys : list T) (v : Vector).

(** *** The three ways a request ends *)

Lemma Allocate_run n (w : world (T:=T)) :
  n <> 0 -> new_throws (request n) = false ->
  Allocate n w
  = Ok (put_block (new_block w) (replicate (request n / sizeof) Raw) [] w)
       (Ptr (new_block w) 0).
Proof.
  intros Hn Hnew. unfold Allocate, put_block.
  rewrite decide_False by done. rewrite Hnew. by rewrite app_nil_r.
Qed.

Lemma Allocate_refused n (w : world (T:=T)) :
  n <> 0 -> new_throws (request n) = true -> Allocate n w = Throw w.
Proof.
  intros Hn Hnew. unfold Allocate.
  rewrite decide_False by done. by rewrite Hnew.
Qed.

Lemma served_slots n : served n -> request n / sizeof = n.
Proof.
  intros (Hpos & -> & _). apply Nat.div_mul. lia.
Qed.

Lemma served_roomy n : served (P := roomy T) n.
Proof. repeat split; simpl; lia. Qed.

(** A request that is served in full ends as on the platform that is never
    the limit. *)
Lemma Allocate_served n (w : world (T:=T)) :
  (n <> 0 -> served n) -> Allocate n w = Allocate (P := roomy T) n w.
Proof.
  intros Hs. destruct (decide (n = 0)) as [-> | Hn]; [reflexivity |].
  specialize (Hs Hn).
  rewrite Allocate_run by (done || apply Hs).
  rewrite Allocate_ok by done. by rewrite served_slots.
Qed.

Lemma RawMemory_new_served n (w : world (T:=T)) :
  (n <> 0 -> served n) ->
  RawMemory_new n w = RawMemory_new (P := roomy T) n w.
Proof.
  intros Hs. unfold RawMemory_new, bind. by rewrite Allocate_served.
Qed.

Lemma RawMemory_new_run n (w : world (T:=T)) :
  n <> 0 -> new_throws (request n) = false ->
  RawMemory_new n w
  = Ok (put_block (new_block w) (replicate (request n / sizeof) Raw) [] w)
       (MkRawMemory (Ptr (new_block w) 0) n).
Proof.
  intros Hn Hnew. unfold RawMemory_new.
  by rewrite (bind_ok _ _ _ _ _ (Allocate_run _ _ Hn Hnew)).
Qed.

Lemma RawMemory_new_refused n (w : world (T:=T)) :
  n <> 0 -> new_throws (request n) = true -> RawMemory_new n w = Throw w.
Proof.
  intros Hn Hnew. unfold RawMemory_new.
  apply bind_throw. by apply Allocate_refused.
Qed.

Lemma with_new_data_served cap body (s : Vector * world (T:=T)) :
  (cap <> 0 -> served cap) ->
  with_new_data cap body s = with_new_data (P := roomy T) cap body s.
Proof.
  intros Hs. unfold with_new_data, bind, in_memory.
  by rewrite RawMemory_new_served.
Qed.

Lemma with_new_data_run cap body v (w : world (T:=T)) v' w1 w2 nd :
  cap <> 0 -> new_throws (request cap) = false ->
  body (MkRawMemory (Ptr (new_block w) 0) cap)
       (v, put_block (new_block w) (replicate (request cap / sizeof) Raw) [] w)
  = Ok (v', w1) nd ->
  RawMemory_dtor nd w1 = Ok w2 tt ->
  with_new_data cap body (v, w) = Ok (v', w2) tt.
Proof.
  intros Hcap Hnew Hbody Hdtor. unfold with_new_data.
  rewrite (bind_ok _ _ _ _ _
             (in_memory_ok _ _ _ _ _ (RawMemory_new_run _ _ Hcap Hnew))).
  rewrite (bind_ok _ _ _ _ _ (on_throw_ok _ _ _ _ _ Hbody)).
  by apply in_memory_ok.
Qed.

Lemma with_new_data_refused cap body v (w : world (T:=T)) :
  cap <> 0 -> new_throws (request cap) = true ->
  with_new_data cap body (v, w) = Throw (v, w).
Proof.
  intros Hcap Hnew. unfold with_new_data.
  apply bind_throw. apply in_memory_throw. by apply RawMemory_new_refused.
Qed.

(** *** Functions that make one request *)

Lemma Vector_sized_served n (w : world (T:=T)) :
  (n <> 0 -> served n) ->
  Vector_sized n w = Vector_sized (P := roomy T) n w.
Proof.
  intros Hs. unfold Vector_sized, bind. by rewrite RawMemory_new_served.
Qed.

Lemma Vector_sized_refused n (w : world (T:=T)) :
  n <> 0 -> new_throws (request n) = true -> Vector_sized n w = Throw w.
Proof.
  intros Hn Hnew. unfold Vector_sized.
  apply bind_throw. by apply RawMemory_new_refused.
Qed.

Lemma Reserve_served n v (w : world (T:=T)) :
  (Capacity v < n -> served n) ->
  Reserve n (v, w) = Reserve (P := roomy T) n (v, w).
Proof.
  intros Hs. unfold Reserve. cbn [bind this fst].
  case_decide as Hle; [reflexivity |].
  apply with_new_data_served. intros _. apply Hs. lia.
Qed.

Lemma Reserve_refused n v (w : world (T:=T)) :
  Capacity v < n -> new_throws (request n) = true ->
  Reserve n (v, w) = Throw (v, w).
Proof.
  intros Hlt Hnew. unfold Reserve. cbn [bind this fst].
  rewrite decide_False by lia.
  apply with_new_data_refused; [lia | done].
Qed.

Lemma Resize_served n v (w : world (T:=T)) :
  (Capacity v < n -> served n) ->
  Resize n (v, w) = Resize (P := roomy T) n (v, w).
Proof.
  intros Hs. unfold Resize. cbn [bind this fst].
  case_decide; [reflexivity |].
  case_decide; [| reflexivity].
  unfold bind. by rewrite Reserve_served.
Qed.

Lemma Resize_refused n v (w : world (T:=T)) :
  size_ v < n -> Capacity v < n -> new_throws (request n) = true ->
  Resize n (v, w) = Throw (v, w).
Proof.
  intros Hsz Hlt Hnew. unfold Resize. cbn [bind this fst].
  rewrite decide_False by lia. rewrite decide_True by lia.
  apply bind_throw. apply bind_throw. by apply Reserve_refused.
Qed.

(** *** A block with fewer slots than were asked for *)

Lemma uninitialized_value_construct_from_overrun n :
  forall (w : world (T:=T)) b i0 done (blk : list slot) x0,
    heap w !! b = Some blk -> i0 + done <= length blk ->
    length blk < i0 + done + n ->
    value_init = Some x0 ->
    uninitialized_value_construct_from (Ptr b i0) done n w = Undefined.
Proof.
  induction n as [| n IH]; intros w b i0 done blk x0 Hb Hle Hlt Hx0; [lia |].
  cbn [uninitialized_value_construct_from ptr_add].
  destruct (decide (i0 + done = length blk)) as [Hend | Hin].
  - unfold bind at 1. unfold on_throw, construct_at.
    unfold bind at 1. unfold read_slot. rewrite Hb.
    rewrite (lookup_ge_None_2 blk (i0 + done)) by lia. reflexivity.
  - destruct (lookup_lt_is_Some_2 blk (i0 + done) ltac:(lia)) as [s Hs].
    pose proof (take_drop_middle blk _ _ Hs) as Hsplit.
    erewrite bind_ok; cycle 1.
    { apply on_throw_ok.
      eapply (construct_at_ok _ _ (take (i0 + done) blk)
                (drop (S (i0 + done)) blk) s _ NoArgs x0);
        [ by rewrite Hsplit | rewrite length_take; lia | exact Hx0 ]. }
    eapply (IH _ b i0 (S done) _ x0);
      [ apply put_block_lookup | | | exact Hx0 ].
    + rewrite length_app, length_take. simpl. rewrite length_drop. lia.
    + rewrite length_app, length_take. simpl. rewrite length_drop. lia.
Qed.

Lemma Vector_sized_overrun n x0 (w : world (T:=T)) :
  value_init = Some x0 -> n <> 0 -> new_throws (request n) = false ->
  request n / sizeof < n ->
  Vector_sized n w = Undefined.
Proof.
  intros Hx0 Hn Hnew Hshort. unfold Vector_sized.
  erewrite bind_ok by (by apply RawMemory_new_run).
  unfold bind at 1. unfold on_throw, uninitialized_value_construct_n.
  cbn [GetAddress buffer_].
  erewrite (uninitialized_value_construct_from_overrun n _ _ 0 0 _ x0);
    [ reflexivity | apply put_block_lookup | simpl; lia
    | rewrite length_replicate; lia | exact Hx0 ].
Qed.

Lemma Reserve_short w v xs n :
  holds w v xs -> Capacity v < n -> relocatable xs ->
  new_throws (request n) = false -> length xs <= request n / sizeof ->
  exists w',
    Reserve n (v, w)
    = Ok (MkVector (MkRawMemory (Ptr (new_block w) 0) n) (size_ v), w') tt /\
    heap w' !! new_block w
    = Some ((Live <$> xs)
            ++ replicate (request n / sizeof - length xs) Raw).
Proof.
  intros (Hsize & Hcap & Hbuf) Hn Hreloc Hnew Hfit.
  destruct v as [[buf cap] sz].
  unfold Capacity, RawMemory_Capacity in *. simpl in *. subst sz.
  unfold Reserve, Capacity, RawMemory_Capacity.
  cbn [bind this fst snd data_ size_ capacity_].
  rewrite decide_False by lia.
  destruct buf as [| b off].
  - subst cap. destruct xs; [| simpl in *; lia].
    eexists. split.
    + eapply with_new_data_run; [lia | done | |].
      * erewrite bind_ok by (apply in_memory_ok; apply CopyOrMove_nothing).
        cbn. reflexivity.
      * reflexivity.
    + heap_simpl. simpl. by rewrite Nat.sub_0_r.
  - destruct Hbuf as (-> & Hpos & Hb).
    assert (Hne : b <> new_block w).
    { intros ->. by rewrite new_block_fresh in Hb. }
    eexists. split.
    + eapply with_new_data_run; [lia | done | |].
      * erewrite bind_ok; cycle 1.
        { apply in_memory_ok. cbn [GetAddress buffer_ data_ size_].
          eapply (CopyOrMove_ok _ b (new_block w) 0 0 _ xs []
                    (replicate (cap - length xs) Raw) []
                    (replicate (length xs) Raw)
                    (replicate (request n / sizeof - length xs) Raw));
            [ exact Hne
            | rewrite put_block_lookup_ne by done; exact Hb
            | done
            | rewrite put_block_lookup; cbn [app];
              rewrite <- replicate_add; f_equal; f_equal; lia
            | done
            | by rewrite length_replicate
            | done
            | exact Hreloc ]. }
        cbn. reflexivity.
      * unfold RawMemory_dtor. cbn [buffer_]. eapply Deallocate_ok.
        apply put_block_lookup.
    + heap_simpl. reflexivity.
Qed.

Lemma Resize_overrun w v xs n x0 :
  holds w v xs -> length xs < n -> Capacity v < n -> relocatable xs ->
  value_init = Some x0 ->
  new_throws (request n) = false ->
  length xs <= request n / sizeof -> request n / sizeof < n ->
  Resize n (v, w) = Undefined.
Proof.
  intros Hv Hn Hcap Hreloc Hx0 Hnew Hfit Hshort.
  assert (Hsz : size_ v = length xs) by apply Hv.
  destruct (Reserve_short w v xs n Hv Hcap Hreloc Hnew Hfit)
    as (w1 & Hres & Hblk).
  unfold Resize. cbn [bind this fst snd].
  rewrite decide_False by lia. rewrite decide_True by lia.
  unfold bind at 1. unfold bind at 1. rewrite Hres.
  unfold bind at 1. cbn [this fst]. unfold in_memory.
  cbn [snd GetAddress data_ buffer_ size_ ptr_add].
  unfold uninitialized_value_construct_n.
  erewrite (uninitialized_value_construct_from_overrun _ _ _ _ 0 _ x0);
    [ reflexivity | exact Hblk | | | exact Hx0 ].
  - rewrite length_app, length_fmap, length_replicate. lia.
  - rewrite length_app, length_fmap, length_replicate. lia.
Qed.

End Requests.

(** *** The 64-bit platform *)

Lemma lp64_range_large : 64 < 2 ^ 64.
Proof. apply Nat.pow_gt_lin_r. lia. Qed.

Lemma lp64_served n : n <= 15 -> served (P := lp64) n.
Proof.
  intros Hn. pose proof lp64_range_large as Hbig.
  pose proof (Nat.pow_gt_lin_r 2 63 ltac:(lia)) as Hhalf.
  assert (Hreq : request (P := lp64) n = n * 4).
  { unfold request. cbn [lp64 size_t_range sizeof].
    apply Nat.mod_small. lia. }
  split; [cbn [lp64 sizeof]; lia |]. split; [exact Hreq |].
  rewrite Hreq. cbn [lp64 new_throws].
  apply bool_decide_eq_false. lia.
Qed.

Lemma lp64_wrap : request (P := lp64) (2 ^ 62 + 1) = 4.
Proof.
  unfold request. cbn [lp64 size_t_range sizeof].
  pose proof lp64_range_large as Hbig.
  assert (H64 : 2 ^ 64 = 2 ^ 62 * 4).
  { change 64 with (62 + 2). rewrite Nat.pow_add_r. reflexivity. }
  rewrite H64 in *.
  replace ((2 ^ 62 + 1) * 4) with (4 + 1 * (2 ^ 62 * 4)) by lia.
  rewrite Nat.Div0.mod_add. apply Nat.mod_small. lia.
Qed.

Lemma lp64_four_bytes_served : new_throws (Platform := lp64) 4 = false.
Proof.
  pose proof (Nat.pow_gt_lin_r 2 63 ltac:(lia)) as Hhalf.
  cbn [lp64 new_throws]. apply bool_decide_eq_false. lia.
Qed.

Lemma lp64_large_nonzero : 2 ^ 62 + 1 <> 0.
Proof. lia. Qed.

Lemma lp64_short : 4 / 4 < 2 ^ 62 + 1.
Proof.
  pose proof (Nat.pow_gt_lin_r 2 62 ltac:(lia)) as Hbig.
  change (4 / 4) with 1. lia.
Qed.

(** * The container's contract *)

(** C7.  [Erase(position)] at a position in [[0, size)] removes exactly the
    element there: the elements after it are move-assigned one slot to the
    left, in order from the left; the last slot, which keeps what the last
    move left behind (or the erased element itself when it was the last), is
    destroyed; the size goes down by one; the capacity, the storage and the
    elements before the position stay.  Erasing index 1 of [[10, 20, 30]]
    yields [[10, 30]] with size 2. *)
Theorem Erase_removes_one_element :
  (forall (T : Type) (E : Element T) (w : world) (v : Vector) (xs : list T)
          (index : nat) (d : T),
     holds w v xs -> xs !! index = Some d ->
     shift_left_quiet d (drop (S index) xs) ->
     exists w',
       Erase (ptr_add (begin v) index) (v, w)
       = Ok (MkVector (data_ v) (size_ v - 1), w')
            (ptr_add (begin v) index) /\
       holds w' (MkVector (data_ v) (size_ v - 1))
             (take index xs ++ drop (S index) xs) /\
       size_ v = S (size_ v - 1) /\
       trace w' = trace w ++ shift_left_events d (drop (S index) xs)
                  ++ [EvDtor (left_behind d (drop (S index) xs))]) /\
  (exists w',
     Erase (Ptr 0 1)
           (vector_at 0 3 3, one_block 0 [Live 10; Live 20; Live 30]%Z)
     = Ok (vector_at 0 3 2, w') (Ptr 0 1) /\
     holds w' (vector_at 0 3 2) [10; 30]%Z).
Proof.
  split.
  - intros T E w v xs index d Hv Hd Hq.
    pose proof (take_drop_middle xs index d Hd) as Hxs.
    pose proof (lookup_lt_Some _ _ _ Hd) as Hlt.
    rewrite <- Hxs in Hv.
    destruct (Erase_ok w v (take index xs) d (drop (S index) xs) Hv Hq)
      as (w' & Hok & Hv' & Htr).
    rewrite length_take_le in Hok by lia.
    exists w'. repeat split; try done; try apply Hv'.
    destruct Hv as (Hsz & _). rewrite Hsz, length_app. simpl. lia.
  - eexists. split; [vm_compute; reflexivity |].
    repeat split; vm_compute; try lia; reflexivity.
Qed.

(** An instance of C7: erasing the first of [[10, 20, 30]]. *)
Lemma Erase_removes_one_element_witness :
  exists w',
    Erase (Ptr 0 0)
          (vector_at 0 3 3, one_block 0 [Live 10; Live 20; Live 30]%Z)
    = Ok (vector_at 0 3 2, w') (Ptr 0 0) /\
    holds w' (vector_at 0 3 2) [20; 30]%Z.
Proof.
  destruct (proj1 Erase_removes_one_element Z int_element
              (one_block 0 [Live 10; Live 20; Live 30]%Z) (vector_at 0 3 3)
              [10; 20; 30]%Z 0 10%Z) as (w' & Hok & Hv' & _).
  - repeat split; vm_compute; try lia; reflexivity.
  - reflexivity.
  - by repeat split.
  - exists w'. split; [exact Hok | exact Hv'].
Defined.

(** C8 on the code.  [Vector(n)] does not work for every [n].  The block
    is asked for as [n * sizeof(T)] bytes, a product formed in [size_t]
    (vector.h:78).  When the product wraps and [operator new] serves what is
    left of it, the block has room for fewer than [n] objects, yet the
    constructor goes on to value-construct [n] of them and runs beyond the
    block: undefined behaviour where the specification has an allocation
    error.  On a 64-bit platform [Vector<int>(2^62 + 1)] gets four bytes.
    Where the request is served in full, the claim holds as stated: size
    [n], capacity exactly [n], every element the value-initialised object,
    built by [n] value-constructions; for [n = 3] and [int] that is size 3,
    capacity 3, elements [[0, 0, 0]].  Where [operator new] turns the request
    down, the exception leaves the memory as it was. *)
Theorem Vector_sized_overruns_wrapped_block :
  (forall (T : Type) (E : Element T) (P : Platform T) (n : nat) (x0 : T)
          (w : world),
     value_init = Some x0 -> n <> 0 ->
     new_throws (request n) = false -> request n / sizeof < n ->
     Vector_sized n w = Undefined) /\
  Vector_sized (P := lp64) (2 ^ 62 + 1) no_blocks = Undefined /\
  (forall (T : Type) (E : Element T) (P : Platform T) (n : nat) (x0 : T)
          (w : world),
     value_init = Some x0 -> (n <> 0 -> served n) ->
     exists w' v,
       Vector_sized n w = Ok w' v /\
       holds w' v (replicate n x0) /\
       Size v = n /\ Capacity v = n /\
       trace w' = trace w ++ replicate n (EvValueCtor x0)) /\
  (exists w' v,
     Vector_sized (P := lp64) 3 no_blocks = Ok w' v /\
     holds w' v [0; 0; 0]%Z /\ Size v = 3 /\ Capacity v = 3) /\
  (forall (T : Type) (E : Element T) (P : Platform T) (n : nat) (w : world),
     n <> 0 -> new_throws (request n) = true -> Vector_sized n w = Throw w).
Proof.
  assert (Hserved : forall (T : Type) (E : Element T) (P : Platform T)
                           (n : nat) (x0 : T) (w : world),
            value_init = Some x0 -> (n <> 0 -> served n) ->
            exists w' v,
              Vector_sized n w = Ok w' v /\
              holds w' v (replicate n x0) /\
              Size v = n /\ Capacity v = n /\
              trace w' = trace w ++ replicate n (EvValueCtor x0)).
  { intros T E P n x0 w Hx0 Hs. rewrite Vector_sized_served by done.
    by apply Vector_sized_ok. }
  split; [| split; [| split; [| split]]].
  - intros T E P n x0 w. apply Vector_sized_overrun.
  - apply (Vector_sized_overrun (P := lp64) (2 ^ 62 + 1) 0%Z);
      [ reflexivity | apply lp64_large_nonzero
      | rewrite lp64_wrap; apply lp64_four_bytes_served
      | rewrite lp64_wrap; apply lp64_short ].
  - exact Hserved.
  - destruct (Hserved Z int_element lp64 3 0%Z no_blocks eq_refl)
      as (w' & v & Hok & Hv & Hsz & Hcap & _).
    { intros _. apply lp64_served. lia. }
    exists w', v. split; [exact Hok |]. split; [exact Hv |]. by split.
  - intros T E P n w. apply Vector_sized_refused.
Qed.

(** C9 on the code.  [Resize(new_size)] changes nothing when [new_size] is
    the size.  When it is smaller, exactly the elements from [new_size] on
    are destroyed, and the elements before, the storage and the capacity
    stay.  When it is larger than the capacity, [Reserve] asks for a block of
    [new_size * sizeof(T)] bytes, a product formed in [size_t]
    (vector.h:78): when it wraps and what is left of it is served, the
    vector records the capacity [new_size] over a block with room for fewer
    objects, and the value-construction of the new tail runs beyond the
    block, which is undefined behaviour where the specification has an
    allocation error.  On a 64-bit platform [Resize(2^62 + 1)] on an empty
    [Vector<int>] does so.  Where the request is served in full, growing
    does what the claim says: the capacity becomes the larger of the old
    capacity and [new_size], existing elements are relocated only when the
    capacity has to grow, and the new tail is value-constructed.  Where
    [operator new] turns the request down, the vector and the memory are as
    before. *)
Theorem Resize_overruns_wrapped_block :
  (forall (T : Type) (E : Element T) (P : Platform T) (w : world)
          (v : Vector),
     Resize (size_ v) (v, w) = Ok (v, w) tt) /\
  (forall (T : Type) (E : Element T) (P : Platform T) (w : world)
          (v : Vector) (xs : list T) (n : nat),
     holds w v xs -> n < length xs ->
     exists w',
       Resize n (v, w) = Ok (MkVector (data_ v) n, w') tt /\
       holds w' (MkVector (data_ v) n) (take n xs) /\
       trace w' = trace w ++ (EvDtor <$> drop n xs)) /\
  (forall (T : Type) (E : Element T) (P : Platform T) (w : world)
          (v : Vector) (xs : list T) (n : nat) (x0 : T),
     holds w v xs -> length xs < n -> Capacity v < n -> relocatable xs ->
     value_init = Some x0 ->
     new_throws (request n) = false ->
     length xs <= request n / sizeof -> request n / sizeof < n ->
     Resize n (v, w) = Undefined) /\
  Resize (P := lp64) (2 ^ 62 + 1) (Vector_default, no_blocks) = Undefined /\
  (forall (T : Type) (E : Element T) (P : Platform T) (w : world)
          (v : Vector) (xs : list T) (n : nat) (x0 : T),
     holds w v xs -> length xs < n -> value_init = Some x0 ->
     (Capacity v < n -> relocatable xs /\ served n) ->
     exists v' w',
       Resize n (v, w) = Ok (v', w') tt /\
       holds w' v' (xs ++ replicate (n - length xs) x0) /\
       Capacity v' = Capacity v `max` n /\
       trace w' = trace w
                  ++ (if decide (n <= Capacity v) then []
                      else relocation_ctors xs ++ relocation_dtors xs)
                  ++ replicate (n - length xs) (EvValueCtor x0)) /\
  (forall (T : Type) (E : Element T) (P : Platform T) (w : world)
          (v : Vector) (n : nat),
     size_ v < n -> Capacity v < n -> new_throws (request n) = true ->
     Resize n (v, w) = Throw (v, w)).
Proof.
  split; [| split; [| split; [| split; [| split]]]].
  - intros T E P w v. unfold Resize. cbn [bind this fst].
    by rewrite decide_True by done.
  - intros T E P w v xs n Hv Hn. rewrite Resize_served.
    + by apply Resize_shrink_ok.
    + intros Hc. destruct Hv as (_ & Hle & _).
      unfold Capacity, RawMemory_Capacity in Hc. lia.
  - intros T E P w v xs n x0. apply Resize_overrun.
  - apply (Resize_overrun (P := lp64) no_blocks Vector_default []
             (2 ^ 62 + 1) 0%Z).
    + by repeat split.
    + cbn [length]. pose proof lp64_large_nonzero. lia.
    + change (0 < 2 ^ 62 + 1). pose proof lp64_large_nonzero. lia.
    + constructor.
    + reflexivity.
    + rewrite lp64_wrap. apply lp64_four_bytes_served.
    + rewrite lp64_wrap. cbn [length]. apply Nat.le_0_l.
    + rewrite lp64_wrap. apply lp64_short.
  - intros T E P w v xs n x0 Hv Hn Hx0 Hgrow.
    rewrite Resize_served by (intros Hc; by apply Hgrow).
    apply Resize_grow_ok; try done. intros Hc. by apply Hgrow.
  - intros T E P w v n. apply Resize_refused.
Qed.

(** C3.  Strong guarantee of a growing [EmplaceBack]/[PushBack].  On a
    vector whose size equals its capacity:
    - when the constructor of the new element throws, the call ends with
      that exception and the vector, the memory and the trace are exactly as
      before: the new element is constructed in the new storage before any
      existing element is touched, and the new storage is released;
    - more generally, whenever the call ends with an exception, the vector
      has the size, capacity, storage and elements it had before, provided
      the relocation copies or the moves it makes do not throw. *)
Theorem EmplaceBack_strong_guarantee :
  forall (T : Type) (E : Element T) (w : world) (v : Vector) (xs : list T),
    holds w v xs -> size_ v = Capacity v ->
    (forall args, built args = None ->
                  EmplaceBack args (v, w) = Throw (v, w)) /\
    (forall value, copy_throws value = true ->
                   PushBack value (v, w) = Throw (v, w)) /\
    (forall value, move_throws value = true ->
                   PushBack_rvalue value (v, w) = Throw (v, w)) /\
    (forall args v' w',
       (relocates_by_move = true ->
        Forall (fun x => move_throws x = false) xs) ->
       EmplaceBack args (v, w) = Throw (v', w') ->
       v' = v /\ holds w' v' xs).
Proof.
  intros T E w v xs Hv Hfull.
  split; [| split; [| split]].
  - intros args Hargs. by eapply EmplaceBack_ctor_throw.
  - intros value Hvalue. unfold PushBack. apply bind_throw.
    eapply EmplaceBack_ctor_throw; [exact Hv | exact Hfull |].
    simpl. by rewrite Hvalue.
  - intros value Hvalue. unfold PushBack_rvalue. apply bind_throw.
    eapply EmplaceBack_ctor_throw; [exact Hv | exact Hfull |].
    simpl. by rewrite Hvalue.
  - intros args v' w' Hmove Hthrow.
    destruct (EmplaceBack_growth_throw w v xs args v' w' Hv Hfull Hmove Hthrow)
      as [-> Hheap].
    split; [done |].
    eapply holds_frame; [exact Hv |]. intros b _. by rewrite Hheap.
Qed.

(** An instance of C3: a full vector of one [fragile] element; constructing
    a second one from -1 throws, and so does copying one that holds 13. *)
Lemma EmplaceBack_strong_guarantee_witness :
  EmplaceBack (OtherArgs (-1)%Z)
    (vector_at 0 1 1, one_block 0 [Live (Fragile 1)])
  = Throw (vector_at 0 1 1, one_block 0 [Live (Fragile 1)]) /\
  PushBack (Fragile 13) (vector_at 0 1 1, one_block 0 [Live (Fragile 1)])
  = Throw (vector_at 0 1 1, one_block 0 [Live (Fragile 1)]).
Proof.
  assert (Hv : holds (one_block 0 [Live (Fragile 1)]) (vector_at 0 1 1)
                     [Fragile 1]).
  { repeat split; vm_compute; try lia; reflexivity. }
  pose proof (EmplaceBack_strong_guarantee fragile fragile_element _ _ _
                Hv eq_refl) as (Hctor & Hcopy & _).
  split; [by apply Hctor | by apply Hcopy].
Defined.

(** C4.  Pushing [k] elements one at a time onto a default-constructed
    vector leaves, after the [j]-th push, size [j] and the capacity
    [2 ^ log2_up j], the least power of two not below [j]: 1, 2, 4, 4, 8, ...
    A push onto a full vector makes the capacity [1] from [0] and [2 * size]
    otherwise, any other push keeps it, so the capacity never shrinks.
    Pushing 1, 2, 3, 4, 5 gives (1,1), (2,2), (3,4), (4,4), (5,8). *)
Theorem PushBack_doubles_capacity :
  (forall (T : Type) (E : Element T) (values : list T) (w : world),
     Forall (fun x => copy_throws x = false) values ->
     relocatable values ->
     exists v' w',
       PushBack_each values (Vector_default, w)
       = Ok (v', w') ((fun j => (j, 2 ^ Nat.log2_up j))
                        <$> seq 1 (length values)) /\
       holds w' v' values) /\
  (forall (T : Type) (E : Element T) (w : world) (v : Vector) (xs : list T)
          (x : T),
     holds w v xs -> copy_throws x = false ->
     (size_ v = Capacity v -> relocatable xs) ->
     exists v' w',
       PushBack x (v, w) = Ok (v', w') tt /\
       holds w' v' (xs ++ [x]) /\
       Capacity v <= Capacity v' /\
       Capacity v' = (if decide (size_ v = Capacity v)
                      then 1 `max` (size_ v * 2) else Capacity v)) /\
  (exists s,
     PushBack_each [1; 2; 3; 4; 5]%Z (Vector_default, no_blocks)
     = Ok s [(1, 1); (2, 2); (3, 4); (4, 4); (5, 8)]).
Proof.
  split; [| split].
  - intros T E values w Hq Hreloc.
    destruct (PushBack_each_ok values w Vector_default [])
      as (v' & w' & Hok & Hv'); try done.
    exists v', w'. split; [| done].
    rewrite Hok. f_equal. apply list_fmap_ext.
    intros i j Hj. apply lookup_seq in Hj as [-> _].
    unfold doubled_capacity. by rewrite decide_False by lia.
  - intros T E w v xs x Hv Hx Hreloc.
    destruct (PushBack_ok w v xs x Hv Hx Hreloc) as (v' & w' & Hok & Hv' & Hcap).
    exists v', w'. split; [done |]. split; [done |].
    assert (size_ v <= Capacity v).
    { destruct Hv as (-> & ? & _). done. }
    rewrite Hcap. unfold grown_capacity.
    repeat case_decide; lia.
  - eexists. vm_compute. reflexivity.
Qed.

(** An instance of C4: three pushes of [int]. *)
Lemma PushBack_doubles_capacity_witness :
  exists v' w',
    PushBack_each [7; 8; 9]%Z (Vector_default, no_blocks)
    = Ok (v', w') [(1, 1); (2, 2); (3, 4)] /\
    holds w' v' [7; 8; 9]%Z.
Proof.
  apply (proj1 PushBack_doubles_capacity Z int_element [7; 8; 9]%Z no_blocks).
  - by repeat constructor.
  - unfold relocatable. by repeat constructor.
Defined.

(** C5.  Copy assignment from another vector [rhs], for two vectors that
    share no storage.
    - When [rhs] has more elements than the target has capacity, a copy of
      [rhs] is built in new storage and swapped in, and the former elements
      and storage of the target are destroyed and released: the target ends
      with the elements of [rhs] and capacity equal to their number.  When
      building the copy throws, the target is as before (strong guarantee).
    - Otherwise the storage is kept: the target's elements beyond the size
      of [rhs] are destroyed, the common prefix is copy-assigned in order,
      the remaining elements of [rhs] are copy-constructed into the tail, and
      only then [size_] is written: an exception finds the members
      unchanged.
    In both cases the target ends equal to [rhs] element for element, and
    [rhs] is untouched.  Assigning a vector to itself does nothing.
    Assigning five elements to a vector of two with capacity two takes the
    first policy. *)
Theorem Vector_copy_assign_policies :
  (forall (T : Type) (E : Element T) (w : world) (v rhs : Vector)
          (xs ys : list T),
     holds w v xs -> holds w rhs ys -> apart v rhs ->
     (Capacity v < length ys ->
      Forall (fun y => copy_throws y = false) ys ->
      exists v' w',
        Vector_copy_assign (Another rhs) (v, w) = Ok (v', w') tt /\
        holds w' v' ys /\ holds w' rhs ys /\
        Capacity v' = length ys /\
        trace w' = trace w ++ (EvCopyCtor <$> ys) ++ (EvDtor <$> xs)) /\
     (Capacity v < length ys ->
      forall v' w',
        Vector_copy_assign (Another rhs) (v, w) = Throw (v', w') ->
        v' = v /\ holds w' v' xs) /\
     (length ys <= Capacity v ->
      Forall (fun p => copy_assign_throws p.1 p.2 = false) (zip xs ys) ->
      Forall (fun y => copy_throws y = false) (drop (length xs) ys) ->
      exists w',
        Vector_copy_assign (Another rhs) (v, w)
        = Ok (MkVector (data_ v) (length ys), w') tt /\
        holds w' (MkVector (data_ v) (length ys)) ys /\ holds w' rhs ys /\
        trace w' = trace w ++ (EvDtor <$> drop (length ys) xs)
                   ++ zip_with EvCopyAssign xs ys
                   ++ (EvCopyCtor <$> drop (length xs) ys)) /\
     (length ys <= Capacity v ->
      forall v' w',
        Vector_copy_assign (Another rhs) (v, w) = Throw (v', w') ->
        v' = v)) /\
  (forall (T : Type) (E : Element T) (w : world) (v : Vector),
     Vector_copy_assign Itself (v, w) = Ok (v, w) tt) /\
  (exists v' w',
     Vector_copy_assign (Another (vector_at 1 5 5))
       (vector_at 0 2 2,
        two_blocks 0 [Live 1; Live 2]%Z
                   1 [Live 10; Live 20; Live 30; Live 40; Live 50]%Z)
     = Ok (v', w') tt /\
     Size v' = 5 /\ Capacity v' = 5 /\
     holds w' v' [10; 20; 30; 40; 50]%Z /\
     holds w' (vector_at 1 5 5) [10; 20; 30; 40; 50]%Z /\
     trace w' = [EvCopyCtor 10; EvCopyCtor 20; EvCopyCtor 30; EvCopyCtor 40;
                 EvCopyCtor 50; EvDtor 1; EvDtor 2]%Z).
Proof.
  split; [| split].
  - intros T E w v rhs xs ys Hv Hrhs Hapart.
    split; [| split; [| split]].
    + intros Hlt Hq. by apply copy_assign_realloc_ok.
    + intros Hlt v' w' Hthrow.
      destruct (first_true copy_throws ys)
        as [Hq | (ys1 & y & ys2 & -> & Hq & Hy)].
      * destruct (copy_assign_realloc_ok w v rhs xs ys)
          as (v1 & w1 & Hok & _); try done.
        rewrite Hok in Hthrow. discriminate.
      * rewrite (copy_assign_realloc_throw w v rhs xs ys1 y ys2) in Hthrow
          by done.
        injection Hthrow as <- <-. split; [done |].
        eapply holds_frame; [exact Hv | done].
    + intros Hle Hq Hqt. by apply copy_assign_in_place_ok.
    + intros Hle v' w' Hthrow.
      eapply copy_assign_in_place_throw; [| exact Hthrow].
      destruct Hrhs as (-> & _). done.
  - reflexivity.
  - eexists _, _. split; [vm_compute; reflexivity |].
    repeat split; vm_compute; try lia; reflexivity.
Qed.

(** Instances of C5: copying [[2, 13, 5]] of [fragile] elements into a
    vector of one element throws at 13 and leaves the target [[1]]; copying
    [[7, 8]] into [[1, 2, 3]] with four slots keeps the storage. *)
Lemma Vector_copy_assign_policies_witness :
  (Vector_copy_assign (Another (vector_at 1 3 3))
     (vector_at 0 1 1,
      two_blocks 0 [Live (Fragile 1)]
                 1 [Live (Fragile 2); Live (Fragile 13); Live (Fragile 5)])
   = Throw (vector_at 0 1 1,
            World (<[ 0 := [Live (Fragile 1)] ]>
                     {[ 1 := [Live (Fragile 2); Live (Fragile 13);
                              Live (Fragile 5)] ]})
                  [EvCopyCtor (Fragile 2); EvDtor (Fragile 2)]) /\
   holds (World (<[ 0 := [Live (Fragile 1)] ]>
                   {[ 1 := [Live (Fragile 2); Live (Fragile 13);
                            Live (Fragile 5)] ]})
                [EvCopyCtor (Fragile 2); EvDtor (Fragile 2)])
         (vector_at 0 1 1) [Fragile 1]) /\
  (exists w',
     Vector_copy_assign (Another (vector_at 1 2 2))
       (vector_at 0 4 3,
        two_blocks 0 [Live 1; Live 2; Live 3; Raw]%Z 1 [Live 7; Live 8]%Z)
     = Ok (vector_at 0 4 2, w') tt /\
     holds w' (vector_at 0 4 2) [7; 8]%Z).
Proof.
  split.
  - assert (Hthrow :
      Vector_copy_assign (Another (vector_at 1 3 3))
        (vector_at 0 1 1,
         two_blocks 0 [Live (Fragile 1)]
                    1 [Live (Fragile 2); Live (Fragile 13); Live (Fragile 5)])
      = Throw (vector_at 0 1 1,
               World (<[ 0 := [Live (Fragile 1)] ]>
                        {[ 1 := [Live (Fragile 2); Live (Fragile 13);
                                 Live (Fragile 5)] ]})
                     [EvCopyCtor (Fragile 2); EvDtor (Fragile 2)]))
      by (vm_compute; reflexivity).
    split; [exact Hthrow |].
    assert (Hv : holds (two_blocks 0 [Live (Fragile 1)]
                          1 [Live (Fragile 2); Live (Fragile 13);
                             Live (Fragile 5)])
                       (vector_at 0 1 1) [Fragile 1])
      by (repeat split; vm_compute; try lia; reflexivity).
    assert (Hrhs : holds (two_blocks 0 [Live (Fragile 1)]
                            1 [Live (Fragile 2); Live (Fragile 13);
                               Live (Fragile 5)])
                         (vector_at 1 3 3)
                         [Fragile 2; Fragile 13; Fragile 5])
      by (repeat split; vm_compute; try lia; reflexivity).
    assert (Hapart : apart (vector_at 0 1 1) (vector_at 1 3 3))
      by (vm_compute; lia).
    apply (proj1 (proj2 (proj1 Vector_copy_assign_policies
             fragile fragile_element _ _ _ _ _ Hv Hrhs Hapart))
             ltac:(vm_compute; lia) _ _ Hthrow).
  - assert (Hv : holds (two_blocks 0 [Live 1; Live 2; Live 3; Raw]%Z
                          1 [Live 7; Live 8]%Z)
                       (vector_at 0 4 3) [1; 2; 3]%Z)
      by (repeat split; vm_compute; try lia; reflexivity).
    assert (Hrhs : holds (two_blocks 0 [Live 1; Live 2; Live 3; Raw]%Z
                            1 [Live 7; Live 8]%Z)
                         (vector_at 1 2 2) [7; 8]%Z)
      by (repeat split; vm_compute; try lia; reflexivity).
    assert (Hapart : apart (vector_at 0 4 3) (vector_at 1 2 2))
      by (vm_compute; lia).
    destruct (proj1 (proj2 (proj2 (proj1 Vector_copy_assign_policies
                Z int_element _ _ _ _ _ Hv Hrhs Hapart))))
      as (w' & Hok & Hv' & _).
    + vm_compute. lia.
    + by repeat constructor.
    + by repeat constructor.
    + exists w'. by split.
Defined.

(** C2, as the code has it.  Move assignment between two raw-storage
    managers exchanges region and capacity: the target receives those of the
    source and the source those the target had, so the source is left empty
    exactly when the target was empty before.  Move-assigning a manager to
    itself changes nothing.  Move construction hands region and capacity to
    the new manager and leaves the source with no region and capacity 0. *)
Theorem RawMemory_move_assign_exchanges :
  forall this other : RawMemory,
    RawMemory_move_assign this (Another other) = (other, this) /\
    (snd (RawMemory_move_assign this (Another other)) = RawMemory_default
     <-> this = RawMemory_default) /\
    RawMemory_move_assign this Itself = (this, this) /\
    RawMemory_move other = (other, RawMemory_default).
Proof.
  intros [b c] [ob oc]. repeat split; simpl; intros; by simplify_eq.
Qed.

(** C2 as stated fails: after move-assigning a manager of five slots to one
    of three slots, the source holds the three-slot region. *)
Lemma RawMemory_move_assign_source_not_empty :
  snd (RawMemory_move_assign (MkRawMemory (Ptr 0 0) 3)
                             (Another (MkRawMemory (Ptr 1 0) 5)))
  = MkRawMemory (Ptr 0 0) 3 /\
  MkRawMemory (Ptr 0 0) 3 <> RawMemory_default /\
  capacity_ (MkRawMemory (Ptr 0 0) 3) <> 0.
Proof. split; [reflexivity |]. split; [discriminate | simpl; lia]. Qed.

(** C6 on the code.  [v = std::move(rhs)] for another vector [rhs] does hand
    the storage and the size of [rhs] to [v], always returns normally and
    runs no element operation, so nothing is copied.  But it does not discard
    what [v] owned: through the swapping move assignment of [RawMemory]
    (vector.h:119) the block of [v] goes to [rhs] with the elements still
    alive in it, and [rhs.size_] is set to 0.  The source is therefore not
    left empty: its capacity is the former capacity of [v], and it is no
    vector in order, having size 0 over a block that holds live objects.
    Those objects are never destroyed, by this call or by the destructor of
    the source.  Move-assigning a vector to itself changes nothing, and move
    construction does what the claim says: the source is left with size 0,
    capacity 0 and no storage. *)
Theorem Vector_move_assign_abandons_elements :
  (forall (T : Type) (E : Element T) (w : world) (v rhs : Vector),
     Vector_move_assign (Another rhs) (v, w)
     = Ok (MkVector (data_ rhs) (size_ rhs), w) (MkVector (data_ v) 0)) /\
  (forall (T : Type) (E : Element T) (w : world) (v : Vector) (x : T)
          (xs ys : list T),
     holds w v (x :: xs) ->
     0 < Capacity (MkVector (data_ v) 0) /\
     ~ holds w (MkVector (data_ v) 0) ys /\
     load (begin (MkVector (data_ v) 0)) w = Ok w x) /\
  (exists rhs' w',
     Vector_move_assign (Another (vector_at 1 3 3))
       (vector_at 0 2 2,
        two_blocks 0 [Live 1; Live 2]%Z 1 [Live 7; Live 8; Live 9]%Z)
     = Ok (vector_at 1 3 3, w') rhs' /\
     Size rhs' = 0 /\ Capacity rhs' = 2 /\
     heap w' !! 0 = Some [Live 1; Live 2]%Z /\
     trace w' = []) /\
  (forall (T : Type) (E : Element T) (w : world) (v : Vector),
     Vector_move_assign Itself (v, w) = Ok (v, w) v) /\
  (forall (T : Type) (E : Element T) (w : world) (rhs : Vector),
     Vector_move rhs w
     = Ok w (MkVector (data_ rhs) (size_ rhs), MkVector RawMemory_default 0)).
Proof.
  split; [| split; [| split; [| split]]].
  - intros T E w [[b c] n] [[rb rc] rn]. reflexivity.
  - intros T E w v x xs ys (Hsize & Hcap & Hbuf).
    destruct v as [[buf cap] n].
    unfold Capacity, RawMemory_Capacity, begin, GetAddress. simpl in *.
    destruct buf as [| b off]; [lia |].
    destruct Hbuf as (-> & Hpos & Hb).
    split; [done |]. split.
    + intros (Hsize' & _ & _ & _ & Hb'). simpl in *.
      destruct ys; [| discriminate].
      rewrite Hb in Hb'. unfold cells in Hb'. simpl in Hb'.
      destruct cap; [lia |]. discriminate.
    + eapply load_ok; [exact Hb | reflexivity].
  - eexists _, _. split; [reflexivity |]. by repeat split.
  - intros T E w [[b c] n]. reflexivity.
  - intros T E w [[rb rc] rn]. reflexivity.
Qed.

(** C10 on the code.  Neither overload of [Insert] can be called.  Both hand
    their argument on to [Emplace], and the body of [Emplace] contains
    [std::forward(args)...] (vector.h:258), which has no instantiation for a
    pack that is not empty.  So in every state, for every position and every
    value, [Insert(pos, const T&)] and [Insert(pos, T&&)] end alike in the
    one way left to them, a call that does not compile: no element is
    copy-constructed and no array results. *)
Theorem Insert_has_no_instantiation :
  forall (T : Type) (E : Element T) (P : Platform T) (pos : ptr) (value : T)
         (s : Vector * world),
    Insert pos value s = IllFormed /\
    Insert_rvalue pos value s = IllFormed.
Proof. intros T E P pos value s. by split. Qed.

(** C1 on the code.  No call of [Emplace] with an argument and no call of
    [Insert] compiles: the body of [Emplace] contains [std::forward(args)...]
    (vector.h:258), which has no instantiation for a pack that is not empty.
    In no state do they insert anything.  The one call that compiles,
    [Emplace(pos)] without arguments, breaks at positions of [[0, size]]:
    - on an empty vector with capacity to spare, the only position there is
      makes the call read [data_[size_ - 1]] with the index wrapped round;
    - with room to spare, the position [end()] makes [std::move_backward]
      run on the range from [end()] to [end() - 1], which is no range.
    It does insert a value-initialised element at a position before an
    existing element with room to spare, and on a full vector. *)
Theorem Emplace_breaks_at_valid_positions :
  (forall (T : Type) (E : Element T) (P : Platform T) (pos : ptr)
          (args : pack) (s : Vector * world),
     args <> NoArgs -> Emplace pos args s = IllFormed) /\
  (forall (T : Type) (E : Element T) (P : Platform T) (pos : ptr)
          (value : T) (s : Vector * world),
     Insert pos value s = IllFormed /\
     Insert_rvalue pos value s = IllFormed) /\
  (forall (T : Type) (E : Element T) (P : Platform T) (b : addr) (c : nat)
          (w : world),
     Emplace (Ptr b 0) NoArgs (vector_at b (S c) 0, w) = Undefined) /\
  Emplace (Ptr 0 2) NoArgs
    (vector_at 0 4 2, one_block 0 [Live 1; Live 2; Raw; Raw]%Z) = Undefined /\
  (exists w',
     Emplace (Ptr 0 1) NoArgs
       (vector_at 0 4 2, one_block 0 [Live 1; Live 2; Raw; Raw]%Z)
     = Ok (vector_at 0 4 3, w') (Ptr 0 1) /\
     holds w' (vector_at 0 4 3) [1; 0; 2]%Z) /\
  (exists w',
     Emplace (Ptr 0 1) NoArgs
       (vector_at 0 2 2, one_block 0 [Live 1; Live 2]%Z)
     = Ok (vector_at 1 4 3, w') (Ptr 1 1) /\
     holds w' (vector_at 1 4 3) [1; 0; 2]%Z).
Proof.
  split; [| split; [| split; [| split; [| split]]]].
  - intros T E P pos args s Hargs. destruct args; done.
  - intros T E P pos value s. by split.
  - intros T E P b c w. unfold Emplace, vector_at.
    cbn [forward_undeduced bind ret this fst].
    unfold Capacity, RawMemory_Capacity.
    cbn [size_ data_ capacity_].
    rewrite decide_False by lia.
    unfold begin, GetAddress, ptr_diff. cbn [data_ buffer_].
    rewrite decide_True by (split; [done | lia]).
    reflexivity.
  - vm_compute. reflexivity.
  - eexists. split; [vm_compute; reflexivity |].
    repeat split; vm_compute; try lia; reflexivity.
  - eexists. split; [vm_compute; reflexivity |].
    repeat split; vm_compute; try lia; reflexivity.
Qed.

(** * Further facts about the model *)

Section MoreFacts.

Context {T : Type} `{Element T}.

Implicit Types (b : addr) (xs ys : list T) (v : Vector).

(** *** Reading a vector *)

Lemma world_eta (w : world (T:=T)) : World (heap w) (trace w) = w.
Proof. by destruct w. Qed.

Lemma free_block_new_block blk es (w : world (T:=T)) :
  free_block (new_block w) (put_block (new_block w) blk es w) = log es w.
Proof. apply free_block_put_block, new_block_fresh. Qed.

Lemma holds_load w v xs i x :
  holds w v xs -> xs !! i = Some x -> load (ptr_add (begin v) i) w = Ok w x.
Proof.
  intros (Hsize & Hcap & Hbuf) Hx.
  destruct v as [[buf cap] sz]. simpl in *.
  destruct buf as [| b off].
  - subst cap. apply lookup_lt_Some in Hx. lia.
  - destruct Hbuf as (-> & _ & Hb). simpl.
    eapply load_ok; [exact Hb |]. by apply cells_lookup_live.
Qed.

Lemma holds_snoc_block w v xs x b :
  holds w v (xs ++ [x]) -> buffer_ (data_ v) = Ptr b 0 ->
  heap w !! b
  = Some ((Live <$> xs) ++ (Live <$> [x])
          ++ replicate (capacity_ (data_ v) - length xs - 1) Raw).
Proof.
  intros (Hsize & Hcap & Hbuf) Hb. rewrite Hb in Hbuf.
  destruct Hbuf as (_ & _ & ->). f_equal. unfold cells.
  rewrite fmap_app, <- app_assoc, length_app. simpl.
  do 3 f_equal. lia.
Qed.

(** *** The last element *)

Lemma PopBack_ok w v xs x :
  holds w v (xs ++ [x]) ->
  exists w',
    PopBack (v, w) = Ok (MkVector (data_ v) (size_ v - 1), w') tt /\
    holds w' (MkVector (data_ v) (size_ v - 1)) xs /\
    heap w' = match buffer_ (data_ v) with
              | Null => heap w
              | Ptr b _ => <[b := cells (capacity_ (data_ v)) xs]> (heap w)
              end /\
    trace w' = trace w ++ [EvDtor x].
Proof.
  intros Hv. pose proof Hv as (Hsize & Hcap & Hbuf).
  destruct v as [[buf cap] sz]. simpl in *.
  rewrite length_app in *. simpl in *.
  destruct buf as [| b off]; [lia |].
  destruct Hbuf as (-> & Hpos & _).
  pose proof (holds_snoc_block _ _ _ _ b Hv eq_refl) as Hb. simpl in Hb.
  eexists. split; [| split; [| split]].
  - unfold PopBack.
    cbn [bind this fst snd data_ size_ GetAddress buffer_ ptr_add].
    subst sz. replace (0 + (length xs + 1)) with (S (length xs)) by lia.
    cbn [ptr_dec bind ret].
    erewrite bind_ok; cycle 1.
    { apply in_memory_ok. cbn [destroy_n].
      erewrite bind_ok; cycle 1.
      { eapply (destroy_at_ok _ _ (Live <$> xs)); [exact Hb |].
        by rewrite length_fmap. }
      reflexivity. }
    reflexivity.
  - subst sz. repeat split; cbn [size_ data_ capacity_ buffer_]; try lia.
    heap_simpl. f_equal. unfold cells. f_equal.
    change (Raw :: replicate (cap - length xs - 1) Raw)
      with (replicate (S (cap - length xs - 1)) (Raw (T:=T))).
    f_equal. lia.
  - heap_simpl. cbn [heap]. f_equal. unfold cells. f_equal.
    change (Raw :: replicate (cap - length xs - 1) Raw)
      with (replicate (S (cap - length xs - 1)) (Raw (T:=T))).
    f_equal. lia.
  - reflexivity.
Qed.

Lemma PopBack_empty w v : holds w v [] -> PopBack (v, w) = Undefined.
Proof.
  intros (Hsize & Hcap & Hbuf).
  destruct v as [[buf cap] sz]. simpl in *. subst sz.
  unfold PopBack. cbn [bind this fst snd data_ size_ GetAddress buffer_].
  destruct buf as [| b off]; [reflexivity |].
  destruct Hbuf as (-> & _). reflexivity.
Qed.

(** *** Whole vectors *)

Lemma Vector_dtor_heap w v xs :
  holds w v xs ->
  exists w',
    Vector_dtor v w = Ok w' tt /\
    heap w' = match buffer_ (data_ v) with
              | Null => heap w
              | Ptr b _ => delete b (heap w)
              end /\
    trace w' = trace w ++ (EvDtor <$> xs).
Proof.
  intros (Hsize & Hcap & Hbuf).
  destruct v as [[buf cap] sz]. simpl in *. subst sz.
  unfold Vector_dtor. cbn [GetAddress data_ size_ buffer_].
  destruct buf as [| b off].
  - subst cap. destruct xs; [| simpl in *; lia].
    eexists. split; [reflexivity |]. split; [done |].
    simpl. by rewrite app_nil_r.
  - destruct Hbuf as (-> & Hpos & Hb).
    eexists. split; [| split].
    + erewrite bind_ok; cycle 1.
      { eapply (destroy_n_ok _ _ [] xs); [exact Hb | done | done]. }
      unfold RawMemory_dtor. cbn [buffer_].
      eapply Deallocate_ok. apply put_block_lookup.
    + unfold free_block, put_block. cbn [heap].
      by rewrite delete_insert_eq.
    + reflexivity.
Qed.

(** *** Room to spare *)

Lemma EmplaceBack_room_ok w v xs args x b :
  holds w v xs -> size_ v < Capacity v -> built args = Some x ->
  buffer_ (data_ v) = Ptr b 0 ->
  EmplaceBack args (v, w)
  = Ok (MkVector (data_ v) (size_ v + 1),
        put_block b (cells (Capacity v) (xs ++ [x])) [ctor_event args x] w)
       (ptr_add (begin v) (length xs)).
Proof.
  intros (Hsize & Hcap & Hbuf) Hroom Hx Hb.
  destruct v as [[buf cap] n].
  unfold Capacity, RawMemory_Capacity in *. simpl in *. subst n buf.
  destruct Hbuf as (_ & Hpos & Hb).
  rewrite cells_spare in Hb by lia.
  unfold EmplaceBack, Capacity, RawMemory_Capacity.
  cbn [bind this fst snd data_ size_ capacity_].
  rewrite decide_False by lia.
  erewrite bind_ok; cycle 1.
  { erewrite bind_ok by (apply RawMemory_plus_ok; simpl; lia).
    cbn [ptr_add buffer_].
    apply in_memory_ok.
    eapply construct_at_ok; [exact Hb | by rewrite length_fmap | exact Hx]. }
  cbn. rewrite RawMemory_at_ok by (simpl; lia).
  simpl. replace (length xs + 1 - 1) with (length xs) by lia.
  by rewrite cells_snoc.
Qed.

Lemma holds_room_block w v xs :
  holds w v xs -> size_ v < Capacity v ->
  exists b, buffer_ (data_ v) = Ptr b 0 /\
            heap w !! b = Some (cells (Capacity v) xs).
Proof.
  intros (Hsize & Hcap & Hbuf) Hroom.
  destruct v as [[buf cap] n].
  unfold Capacity, RawMemory_Capacity in *. simpl in *.
  destruct buf as [| b off]; [lia |].
  destruct Hbuf as (-> & _ & Hb). by exists b.
Qed.

Lemma Vector_sized_world n x0 w :
  value_init = Some x0 -> n <> 0 ->
  Vector_sized n w
  = Ok (put_block (new_block w) (replicate n (Live x0))
          (replicate n (EvValueCtor x0)) w)
       (MkVector (MkRawMemory (Ptr (new_block w) 0) n) n).
Proof.
  intros Hx0 Hn. unfold Vector_sized.
  erewrite bind_ok by (by apply RawMemory_new_ok).
  erewrite bind_ok; cycle 1.
  { apply on_throw_ok. unfold uninitialized_value_construct_n.
    cbn [GetAddress buffer_].
    eapply (uninitialized_value_construct_from_ok _ _ 0 0 _ []
              (replicate n Raw) []);
      [ rewrite put_block_lookup; by rewrite app_nil_r
      | done | by rewrite length_replicate | exact Hx0 ]. }
  rewrite put_block_put_block, app_nil_r. reflexivity.
Qed.

Lemma Vector_copy_world w rhs ys :
  holds w rhs ys -> Forall (fun y => copy_throws y = false) ys -> ys <> [] ->
  Vector_copy rhs w
  = Ok (put_block (new_block w) (Live <$> ys) (EvCopyCtor <$> ys) w)
       (MkVector (MkRawMemory (Ptr (new_block w) 0) (length ys)) (length ys)).
Proof.
  intros (Hsize & Hcap & Hbuf) Hys Hne0.
  destruct rhs as [[buf cap] sz]. simpl in *. subst sz.
  unfold Vector_copy. cbn [size_ data_ GetAddress buffer_].
  destruct buf as [| a off]; [destruct ys; [done | simpl in *; lia] |].
  destruct Hbuf as (-> & Hpos & Ha).
  assert (Hne : a <> new_block w).
  { intros ->. by rewrite new_block_fresh in Ha. }
  erewrite bind_ok
    by (apply RawMemory_new_ok; destruct ys; [done | simpl; lia]).
  erewrite bind_ok; cycle 1.
  { apply on_throw_ok. unfold uninitialized_copy_n. cbn [buffer_].
    eapply (uninitialized_copy_from_ok _ a (new_block w) 0 0 0
              (cells cap ys) ys [] (replicate (length ys) Raw) []);
      [ exact Hne
      | rewrite put_block_lookup_ne by done; exact Ha
      | intros k x Hk; simpl; by apply cells_lookup_live
      | rewrite put_block_lookup; by rewrite app_nil_r
      | done
      | by rewrite length_replicate
      | exact Hys ]. }
  rewrite put_block_put_block, app_nil_r. reflexivity.
Qed.

Lemma Vector_copy_empty w rhs :
  size_ rhs = 0 ->
  Vector_copy rhs w = Ok w (MkVector (MkRawMemory Null 0) 0).
Proof. intros Hn. unfold Vector_copy. rewrite Hn. reflexivity. Qed.

Lemma destroy_whole_block w b xs es0 (w0 : world (T:=T)) :
  w = put_block b (Live <$> xs) es0 w0 -> heap w0 !! b = None ->
  Vector_dtor (MkVector (MkRawMemory (Ptr b 0) (length xs)) (length xs)) w
  = Ok (log (es0 ++ (EvDtor <$> xs)) w0) tt.
Proof.
  intros -> Hfresh. unfold Vector_dtor. cbn [GetAddress data_ size_ buffer_].
  erewrite bind_ok; cycle 1.
  { eapply (destroy_n_ok _ _ [] xs []);
      [rewrite put_block_lookup; by rewrite app_nil_r | done | done]. }
  unfold RawMemory_dtor. cbn [buffer_].
  erewrite Deallocate_ok by apply put_block_lookup.
  rewrite put_block_put_block. by rewrite free_block_put_block.
Qed.

(** *** Reserving *)

Lemma Reserve_grow_ok w v xs n :
  holds w v xs -> Capacity v < n -> relocatable xs ->
  exists w',
    Reserve n (v, w)
    = Ok (MkVector (MkRawMemory (Ptr (new_block w) 0) n) (size_ v), w') tt /\
    holds w' (MkVector (MkRawMemory (Ptr (new_block w) 0) n) (size_ v)) xs /\
    (forall b off, buffer_ (data_ v) = Ptr b off -> heap w' !! b = None) /\
    (forall a, a <> new_block w -> buffer_ (data_ v) <> Ptr a 0 ->
               heap w' !! a = heap w !! a) /\
    trace w' = trace w ++ relocation_ctors xs ++ relocation_dtors xs.
Proof.
  intros (Hsize & Hcap & Hbuf) Hn Hreloc.
  destruct v as [[buf cap] sz].
  unfold Capacity, RawMemory_Capacity in *. simpl in *. subst sz.
  unfold Reserve, Capacity, RawMemory_Capacity.
  cbn [bind this fst snd data_ size_ capacity_].
  rewrite decide_False by lia.
  destruct buf as [| b off].
  - subst cap. destruct xs; [| simpl in *; lia].
    eexists. split; [| split; [| split; [| split]]].
    + eapply with_new_data_ok; [lia | |].
      * erewrite bind_ok by (apply in_memory_ok; apply CopyOrMove_nothing).
        cbn. reflexivity.
      * reflexivity.
    + repeat split; cbn [size_ data_ capacity_ buffer_ length]; try lia.
      heap_simpl. unfold cells. simpl. by rewrite Nat.sub_0_r.
    + intros b off [=].
    + intros a Ha _. heap_simpl. reflexivity.
    + trace_simpl.
  - destruct Hbuf as (-> & Hpos & Hb).
    assert (Hne : b <> new_block w).
    { intros ->. by rewrite new_block_fresh in Hb. }
    eexists. split; [| split; [| split; [| split]]].
    + eapply with_new_data_ok; [lia | |].
      * erewrite bind_ok; cycle 1.
        { apply in_memory_ok. cbn [GetAddress buffer_ data_ size_].
          eapply (CopyOrMove_ok _ b (new_block w) 0 0 _ xs []
                    (replicate (cap - length xs) Raw) []
                    (replicate (length xs) Raw)
                    (replicate (n - length xs) Raw));
            [ exact Hne
            | rewrite put_block_lookup_ne by done; exact Hb
            | done
            | rewrite put_block_lookup; cbn [app];
              rewrite <- replicate_add; f_equal; f_equal; lia
            | done
            | by rewrite length_replicate
            | done
            | exact Hreloc ]. }
        cbn. reflexivity.
      * unfold RawMemory_dtor. cbn [buffer_]. eapply Deallocate_ok.
        apply put_block_lookup.
    + repeat split; cbn [size_ data_ capacity_ buffer_]; try lia.
      heap_simpl. reflexivity.
    + intros b' off' [= <- <-]. unfold free_block. cbn [heap].
      apply lookup_delete_eq.
    + intros a Ha Hab.
      assert (a <> b) by (intros ->; by apply Hab).
      heap_simpl. reflexivity.
    + trace_simpl.
Qed.

Lemma Reserve_copy_throw w v xs1 y xs2 n :
  holds w v (xs1 ++ y :: xs2) -> Capacity v < n ->
  relocates_by_move = false ->
  Forall (fun x => copy_throws x = false) xs1 -> copy_throws y = true ->
  Reserve n (v, w)
  = Throw (v, log ((EvCopyCtor <$> xs1) ++ (EvDtor <$> xs1)) w).
Proof.
  intros (Hsize & Hcap & Hbuf) Hn Hmode Hxs1 Hy.
  destruct v as [[buf cap] sz].
  unfold Capacity, RawMemory_Capacity in *. simpl in *. subst sz.
  set (xs := xs1 ++ y :: xs2) in *.
  assert (Hlen : length xs = length xs1 + S (length xs2)).
  { unfold xs. rewrite length_app. reflexivity. }
  destruct buf as [| b off]; [lia |].
  destruct Hbuf as (-> & Hpos & Hb).
  assert (Hne : b <> new_block w).
  { intros ->. by rewrite new_block_fresh in Hb. }
  unfold Reserve, Capacity, RawMemory_Capacity.
  cbn [bind this fst snd data_ size_ capacity_].
  rewrite decide_False by lia.
  erewrite with_new_data_throw; cycle 1.
  - lia.
  - apply bind_throw. apply in_memory_throw.
    unfold CopyOrMove. rewrite Hmode. apply bind_throw.
    unfold uninitialized_copy_n. cbn [GetAddress buffer_ data_ size_].
    eapply (uninitialized_copy_from_throw _ b (new_block w) 0 0 _
              (cells cap xs) [] xs1 y []
              (replicate n Raw) []);
      [ exact Hne
      | by rewrite put_block_lookup_ne
      | intros k z Hk; simpl; apply cells_lookup_live; unfold xs;
        rewrite (cons_middle y), app_assoc;
        by rewrite (lookup_app_l_Some _ _ _ _ Hk)
      | rewrite put_block_lookup; by rewrite app_nil_r
      | done
      | rewrite length_replicate; lia
      | lia
      | exact Hxs1
      | exact Hy ].
  - apply put_block_lookup.
  - rewrite !put_block_put_block.
    rewrite free_block_put_block by apply new_block_fresh.
    reflexivity.
Qed.

Lemma Reserve_throw w v xs n v' w' :
  holds w v xs ->
  (relocates_by_move = true -> Forall (fun x => move_throws x = false) xs) ->
  Reserve n (v, w) = Throw (v', w') ->
  v' = v /\ heap w' = heap w.
Proof.
  intros Hv Hmove Hthrow.
  destruct (decide (n <= Capacity v)) as [Hle | Hgt].
  { rewrite Reserve_enough in Hthrow by done. discriminate. }
  destruct relocates_by_move eqn:Hmode.
  - destruct (Reserve_ok w v xs n Hv) as (w1 & Hok & _); [lia | |].
    { unfold relocatable. rewrite Hmode. by apply Hmove. }
    rewrite Hok in Hthrow. discriminate.
  - destruct (first_true copy_throws xs)
      as [Hq | (xs1 & y & xs2 & -> & Hq & Hy)].
    + destruct (Reserve_ok w v xs n Hv) as (w1 & Hok & _); [lia | |].
      { unfold relocatable. by rewrite Hmode. }
      rewrite Hok in Hthrow. discriminate.
    + rewrite (Reserve_copy_throw w v xs1 y xs2 n) in Hthrow
        by (done || lia).
      by injection Hthrow as <- <-.
Qed.

(** *** Inserting and erasing *)

Lemma shift_left_quiet_all d xs :
  (forall d x, move_assign_throws d x = false) -> shift_left_quiet d xs.
Proof.
  intros Hq. revert d. induction xs as [| x xs IH]; intros d; [done |].
  split; [apply Hq | apply IH].
Qed.

Lemma relocatable_app xs ys :
  relocatable (xs ++ ys) -> relocatable xs /\ relocatable ys.
Proof. unfold relocatable. apply Forall_app. Qed.

Lemma Relocate_ok w v l1 l2 args x :
  holds w v (l1 ++ l2) -> built args = Some x -> relocatable (l1 ++ l2) ->
  exists w',
    Relocate (ptr_add (begin v) (length l1)) args (v, w)
    = Ok (MkVector (MkRawMemory (Ptr (new_block w) 0)
                      (grown_capacity (size_ v))) (size_ v + 1), w')
         (Ptr (new_block w) (length l1)) /\
    holds w' (MkVector (MkRawMemory (Ptr (new_block w) 0)
                          (grown_capacity (size_ v))) (size_ v + 1))
          (l1 ++ x :: l2) /\
    (forall b off, buffer_ (data_ v) = Ptr b off -> heap w' !! b = None) /\
    trace w' = trace w ++ ctor_event args x
                 :: relocation_ctors l1 ++ relocation_dtors l1
                 ++ relocation_ctors l2 ++ relocation_dtors l2.
Proof.
  intros (Hsize & Hcap & Hbuf) Hx Hreloc.
  apply relocatable_app in Hreloc as [Hr1 Hr2].
  destruct v as [[buf cap] n]. simpl in *. subst n.
  rewrite length_app in *.
  pose proof (grown_capacity_gt (length l1 + length l2)) as Hgt.
  set (g := grown_capacity (length l1 + length l2)) in *.
  unfold Relocate, begin.
  cbn [bind this fst snd data_ size_ capacity_ GetAddress buffer_].
  destruct buf as [| b off].
  - subst cap. destruct l1; [| simpl in *; lia].
    destruct l2; [| simpl in *; lia].
    cbn [length] in *.
    cbn [ptr_add ptr_diff bind ret length].
    eexists. split; [| split; [| split]].
    + erewrite bind_ok; cycle 1.
      { eapply with_new_data_ok; [lia | |].
        - erewrite bind_ok by (apply RawMemory_plus_ok; cbn [capacity_]; lia).
          erewrite bind_ok; cycle 1.
          { apply in_memory_ok. cbn [ptr_add buffer_].
            eapply (construct_at_ok _ _ [] (replicate (g - 1) Raw));
              [ rewrite put_block_lookup; cbn [app];
                change (Raw :: replicate (g - 1) Raw)
                  with (replicate (S (g - 1)) (Raw (T:=T)));
                do 2 f_equal; lia
              | done | exact Hx]. }
          erewrite bind_ok by (apply in_memory_ok; apply CopyOrMove_nothing).
          erewrite bind_ok by (apply RawMemory_plus_ok; cbn [capacity_]; lia).
          erewrite bind_ok by (apply RawMemory_plus_ok; cbn [capacity_]; lia).
          erewrite bind_ok by (apply in_memory_ok; apply CopyOrMove_nothing).
          cbn. reflexivity.
        - reflexivity. }
      cbn. reflexivity.
    + repeat split; cbn [size_ data_ capacity_ buffer_ length app]; try lia.
      heap_simpl. reflexivity.
    + intros b off [=].
    + trace_simpl.
  - destruct Hbuf as (-> & Hpos & Hb).
    assert (Hne : b <> new_block w).
    { intros ->. by rewrite new_block_fresh in Hb. }
    cbn [ptr_add ptr_diff].
    rewrite decide_True by (split; [done | lia]).
    cbn [bind ret]. replace (0 + length l1 - 0) with (length l1) by lia.
    unfold cells in Hb. rewrite fmap_app, <- app_assoc, length_app in Hb.
    assert (Hg : g = length l1 + S (g - length l1 - 1)) by lia.
    eexists. split; [| split; [| split]].
    + erewrite bind_ok; cycle 1.
      { eapply with_new_data_ok; [lia | |].
        - erewrite bind_ok by (apply RawMemory_plus_ok; cbn [capacity_]; lia).
          erewrite bind_ok; cycle 1.
          { apply in_memory_ok. cbn [ptr_add buffer_].
            eapply (construct_at_ok _ _ (replicate (length l1) Raw)
                      (replicate (g - length l1 - 1) Raw) Raw);
              [ rewrite put_block_lookup; fold g; rewrite Hg at 1;
                by rewrite replicate_add
              | by rewrite length_replicate | exact Hx]. }
          rewrite put_block_put_block.
          erewrite bind_ok; cycle 1.
          { apply in_memory_ok. cbn [GetAddress buffer_ data_].
            eapply (CopyOrMove_ok _ b (new_block w) 0 0 _ l1 []
                      ((Live <$> l2)
                       ++ replicate (cap - (length l1 + length l2)) Raw) []
                      (replicate (length l1) Raw)
                      (Live x :: replicate (g - length l1 - 1) Raw));
              [ exact Hne
              | rewrite put_block_lookup_ne by done; exact Hb
              | done
              | rewrite put_block_lookup; reflexivity
              | done
              | by rewrite length_replicate
              | done
              | exact Hr1 ]. }
          erewrite bind_ok by (apply RawMemory_plus_ok; cbn [capacity_]; lia).
          erewrite bind_ok by (apply RawMemory_plus_ok; cbn [capacity_]; lia).
          erewrite bind_ok; cycle 1.
          { apply in_memory_ok. cbn [ptr_add buffer_ data_ size_ app].
            replace (length l1 + length l2 - length l1) with (length l2) by lia.
            eapply (CopyOrMove_ok _ b (new_block w) _ _ _ l2
                      (replicate (length l1) Raw)
                      (replicate (cap - (length l1 + length l2)) Raw)
                      ((Live <$> l1) ++ [Live x])
                      (replicate (length l2) Raw)
                      (replicate (g - length l1 - length l2 - 1) Raw));
              [ exact Hne
              | heap_simpl; reflexivity
              | rewrite length_replicate; lia
              | heap_simpl; rewrite <- app_assoc; cbn [app];
                rewrite <- replicate_add; do 4 f_equal; lia
              | rewrite length_app, length_fmap; simpl; lia
              | by rewrite length_replicate
              | done
              | exact Hr2 ]. }
          cbn. reflexivity.
        - unfold RawMemory_dtor. cbn [buffer_]. eapply Deallocate_ok.
          apply put_block_lookup. }
      cbn. reflexivity.
    + repeat split; cbn [size_ data_ capacity_ buffer_];
        rewrite ?length_app; simpl; try lia.
      heap_simpl. f_equal. unfold cells.
      rewrite fmap_app, <- !app_assoc, length_app. simpl.
      do 4 f_equal. lia.
    + intros b' off' [= <- <-]. unfold free_block. cbn [heap].
      apply lookup_delete_eq.
    + trace_simpl.
Qed.

Lemma begin_diff {St} w v xs index (s : St) :
  holds w v xs -> index <= length xs ->
  ptr_diff (ptr_add (begin v) index) (begin v) s = Ok s index.
Proof.
  intros (Hsize & Hcap & Hbuf) Hle. unfold begin, GetAddress.
  destruct (buffer_ (data_ v)) as [| b off].
  - simpl. unfold ret. f_equal. lia.
  - simpl. rewrite decide_True by (split; [done | lia]).
    unfold ret. f_equal. lia.
Qed.

Lemma Relocate_ctor_throw w v xs index args :
  holds w v xs -> index <= length xs -> built args = None ->
  Relocate (ptr_add (begin v) index) args (v, w) = Throw (v, w).
Proof.
  intros Hv Hle Hx. pose proof Hv as (Hsize & Hcap & Hbuf).
  pose proof (grown_capacity_gt (size_ v)) as Hgt.
  unfold Relocate. cbn [bind this fst].
  erewrite bind_ok by (by eapply begin_diff).
  apply bind_throw.
  erewrite with_new_data_throw.
  - rewrite free_block_put_block by apply new_block_fresh.
    by rewrite log_nil.
  - lia.
  - erewrite bind_ok by (apply RawMemory_plus_ok; cbn [capacity_]; lia).
    apply bind_throw. apply in_memory_throw. cbn [ptr_add buffer_].
    eapply construct_at_throw; [apply put_block_lookup | | exact Hx].
    rewrite length_replicate. lia.
  - apply put_block_lookup.
Qed.

Lemma Erase_end w v xs : holds w v xs -> Erase (end_ v) (v, w) = Undefined.
Proof.
  intros (Hsize & Hcap & Hbuf).
  destruct v as [[buf cap] n]. simpl in *.
  unfold Erase, end_, begin.
  cbn [bind this fst snd data_ size_ GetAddress buffer_].
  destruct buf as [| b off].
  - assert (n = 0) as -> by lia. reflexivity.
  - destruct Hbuf as (-> & _). cbn [ptr_add ptr_diff].
    rewrite decide_True by (split; [done | lia]).
    cbn [bind ret]. unfold bind at 1. unfold in_memory, std_move.
    cbn [snd ptr_diff]. unfold bind at 1.
    rewrite decide_False by lia. reflexivity.
Qed.

Lemma split_at_index xs index :
  index < length xs ->
  exists l2 z, xs = take index xs ++ l2 ++ [z] /\ drop index xs = l2 ++ [z].
Proof.
  intros Hlt.
  destruct (drop index xs) as [| y ys _] eqn:Hd using rev_ind.
  - apply (f_equal length) in Hd. rewrite length_drop in Hd. simpl in Hd. lia.
  - exists ys, y. split; [| done]. by rewrite <- Hd, take_drop.
Qed.

Lemma Emplace_before_ok w v xs index x :
  holds w v xs -> index < length xs -> size_ v < Capacity v ->
  value_init = Some x ->
  (forall y, move_throws y = false) ->
  (forall d y, move_assign_throws d y = false) ->
  exists w',
    Emplace (ptr_add (begin v) index) NoArgs (v, w)
    = Ok (MkVector (data_ v) (size_ v + 1), w') (ptr_add (begin v) index) /\
    holds w' (MkVector (data_ v) (size_ v + 1))
          (take index xs ++ x :: drop index xs).
Proof.
  intros Hv Hlt Hroom Hx Hmove Hassign.
  destruct (split_at_index xs index Hlt) as (l2 & z & Hxs & Hd).
  rewrite Hxs in Hv.
  destruct (Emplace_room_ok w v (take index xs) l2 z x Hv Hroom Hx)
    as (w' & Hok & Hv' & _).
  - apply Hmove.
  - by apply shift_left_quiet_all.
  - apply Hassign.
  - rewrite length_take_le in Hok by lia.
    exists w'. split; [exact Hok |]. by rewrite Hd.
Qed.

Lemma Emplace_end_room w v xs z :
  holds w v (xs ++ [z]) -> size_ v < Capacity v -> move_throws z = false ->
  Emplace (end_ v) NoArgs (v, w) = Undefined.
Proof.
  intros Hv Hroom Hz. pose proof Hv as (Hsize & Hcap & Hbuf).
  destruct (holds_room_block w v _ Hv Hroom) as (b & Hb & Hblk).
  destruct v as [[buf cap] n].
  unfold Capacity, RawMemory_Capacity in *. simpl in *. subst buf.
  rewrite length_app in *. simpl in *.
  rewrite cells_spare in Hblk by (rewrite length_app; simpl; lia).
  rewrite fmap_app, <- app_assoc in Hblk. simpl in Hblk.
  unfold Emplace, Capacity, RawMemory_Capacity, end_, begin.
  cbn [forward_undeduced bind ret this fst snd data_ size_ capacity_
       GetAddress buffer_ ptr_add].
  rewrite decide_False by lia.
  cbn [ptr_diff]. rewrite decide_True by (split; [done | lia]).
  cbn [bind ret]. unfold last_element. cbn [size_ data_].
  rewrite decide_False by lia.
  erewrite bind_ok by (apply RawMemory_at_ok; simpl; lia).
  cbn [ptr_add buffer_].
  erewrite bind_ok; cycle 1.
  { apply in_memory_ok. subst n.
    replace (0 + (length xs + 1)) with (S (length xs)) by lia.
    replace (0 + (length xs + 1 - 1)) with (length xs) by lia.
    eapply (move_construct_at_next_ok _ _ (Live <$> xs));
      [exact Hblk | by rewrite length_fmap | exact Hz]. }
  subst n. replace (0 + (length xs + 1)) with (S (length xs)) by lia.
  cbn [ptr_dec bind ret]. unfold bind at 1. unfold in_memory, move_backward.
  cbn [snd ptr_diff]. unfold bind at 1.
  rewrite decide_False by lia. reflexivity.
Qed.

(** *** Counting constructions *)

Lemma constructions_app (es es' : list event) :
  constructions (es ++ es') = constructions es + constructions es'.
Proof. unfold constructions. by rewrite List.filter_app, length_app. Qed.

Lemma constructions_relocation_ctors xs :
  constructions (relocation_ctors xs) = length xs.
Proof.
  unfold relocation_ctors, constructions.
  destruct relocates_by_move; induction xs as [| x xs IH]; simpl; auto.
Qed.

Lemma constructions_relocation_dtors xs :
  constructions (relocation_dtors xs) = 0.
Proof.
  unfold relocation_dtors, constructions.
  generalize (if relocates_by_move then moved_from <$> xs else xs).
  intros l. induction l; simpl; auto.
Qed.

Lemma doubled_capacity_relocated n :
  doubled_capacity (S n) - 1
  = (doubled_capacity n - 1)
    + (if decide (n = doubled_capacity n) then n else 0).
Proof.
  rewrite <- doubled_capacity_step.
  case_decide as Hfull; [| lia].
  unfold grown_capacity. case_decide; lia.
Qed.

Lemma doubled_capacity_lt k : 0 < k -> doubled_capacity k < 2 * k.
Proof.
  intros Hk. unfold doubled_capacity. rewrite decide_False by lia.
  destruct (decide (k = 1)) as [-> | Hk1]; [simpl; lia |].
  pose proof (Nat.log2_up_spec k ltac:(lia)) as [Hlo _].
  pose proof (Nat.log2_up_pos k ltac:(lia)) as Hpos.
  destruct (Nat.log2_up k) as [| m]; [lia |].
  simpl in Hlo. rewrite Nat.pow_succ_r'. lia.
Qed.

Lemma PushBack_each_constructions values : forall w v xs,
  holds w v xs -> Capacity v = doubled_capacity (length xs) ->
  Forall (fun x => copy_throws x = false) values ->
  relocatable (xs ++ values) ->
  exists v' w' sizes,
    PushBack_each values (v, w) = Ok (v', w') sizes /\
    constructions (trace w') + (doubled_capacity (length xs) - 1)
    = constructions (trace w) + length values
      + (doubled_capacity (length xs + length values) - 1).
Proof.
  induction values as [| x values IH]; intros w v xs Hv Hcap Hq Hreloc.
  - exists v, w, []. split; [done |]. cbn [length]. rewrite !Nat.add_0_r. lia.
  - apply Forall_cons in Hq as [Hx Hq].
    assert (Hsz : size_ v = length xs) by apply Hv.
    destruct (EmplaceBack_ok w v xs (ConstRef x) x Hv)
      as (v1 & w1 & Hok & Hv1 & Hcap1 & Htr1).
    { simpl. by rewrite Hx. }
    { intros _. unfold relocatable in *.
      by apply Forall_app in Hreloc as [? _]. }
    rewrite Hsz, Hcap in Hcap1, Htr1. rewrite doubled_capacity_step in Hcap1.
    destruct (IH w1 v1 (xs ++ [x])) as (v2 & w2 & sizes & Hrest & Hcount).
    + done.
    + rewrite length_app. simpl. by rewrite Nat.add_1_r.
    + done.
    + by rewrite <- app_assoc.
    + eexists v2, w2, _. split.
      * cbn [PushBack_each]. unfold PushBack.
        erewrite bind_ok; cycle 1.
        { erewrite bind_ok by exact Hok. reflexivity. }
        cbn [bind this fst].
        erewrite bind_ok by exact Hrest. reflexivity.
      * rewrite length_app in Hcount. cbn [length] in *.
        replace (length xs + 1) with (S (length xs)) in Hcount by lia.
        replace (length xs + S (length values))
          with (S (length xs) + length values) by lia.
        rewrite doubled_capacity_relocated in Hcount.
        rewrite Htr1 in Hcount.
        rewrite (constructions_app (trace w)) in Hcount.
        change (ctor_event (ConstRef x) x :: ?l)
          with ([ctor_event (ConstRef x) x] ++ l) in Hcount.
        rewrite constructions_app in Hcount.
        case_decide as Hfull.
        -- rewrite !constructions_app, constructions_relocation_ctors,
             constructions_relocation_dtors in Hcount.
           change (constructions [ctor_event (ConstRef x) x]) with 1 in Hcount.
           lia.
        -- change (constructions [ctor_event (ConstRef x) x]) with 1 in Hcount.
           change (constructions []) with 0 in Hcount. lia.
Qed.

(** *** A default constructor that throws *)

Lemma uninitialized_value_construct_throw w b blk i n :
  value_init = None -> heap w !! b = Some blk -> i < length blk -> n <> 0 ->
  uninitialized_value_construct_n (Ptr b i) n w = Throw w.
Proof.
  intros Hx0 Hb Hi Hn. destruct n as [| n]; [done |].
  unfold uninitialized_value_construct_n.
  cbn [uninitialized_value_construct_from].
  apply bind_throw. eapply on_throw_throw; [| reflexivity].
  cbn [ptr_add]. eapply construct_at_throw; [exact Hb | lia | exact Hx0].
Qed.

Lemma Vector_sized_throw n w :
  value_init = None -> n <> 0 -> Vector_sized n w = Throw w.
Proof.
  intros Hx0 Hn. unfold Vector_sized.
  erewrite bind_ok by (by apply RawMemory_new_ok).
  apply bind_throw.
  erewrite on_throw_throw.
  - reflexivity.
  - cbn [GetAddress buffer_].
    eapply uninitialized_value_construct_throw;
      [ exact Hx0 | apply put_block_lookup
      | rewrite length_replicate; lia | done ].
  - unfold RawMemory_dtor. cbn [buffer_].
    erewrite Deallocate_ok by apply put_block_lookup.
    rewrite free_block_new_block, log_nil. reflexivity.
Qed.

Lemma Resize_grow_throw w v xs n :
  holds w v xs -> length xs < n -> value_init = None ->
  (Capacity v < n -> relocatable xs) ->
  exists v' w',
    Resize n (v, w) = Throw (v', w') /\
    holds w' v' xs /\
    Capacity v' = Capacity v `max` n /\
    trace w' = trace w
               ++ (if decide (n <= Capacity v) then []
                   else relocation_ctors xs ++ relocation_dtors xs).
Proof.
  intros Hv Hn Hx0 Hreloc.
  assert (Hsz : size_ v = length xs) by apply Hv.
  unfold Resize. cbn [bind this fst snd].
  rewrite decide_False by lia. rewrite decide_True by lia.
  assert (exists v1 w1,
    Reserve n (v, w) = Ok (v1, w1) tt /\ holds w1 v1 xs /\
    Capacity v1 = Capacity v `max` n /\
    trace w1 = trace w ++ (if decide (n <= Capacity v) then []
                           else relocation_ctors xs ++ relocation_dtors xs))
    as (v1 & w1 & Hres & Hv1 & Hcap1 & Htr1).
  { case_decide as Hc.
    - exists v, w. rewrite Reserve_enough by done.
      split; [done |]. split; [done |]. split; [lia |].
      by rewrite app_nil_r.
    - destruct (Reserve_ok w v xs n Hv ltac:(lia) ltac:(apply Hreloc; lia))
        as (w1 & Hres & Hv1 & Htr1).
      eexists _, w1.
      split; [exact Hres |]. split; [exact Hv1 |]. split; [| exact Htr1].
      unfold Capacity, RawMemory_Capacity in *. simpl. lia. }
  exists v1, w1.
  split; [| split; [exact Hv1 | split; [exact Hcap1 | exact Htr1]]].
  pose proof Hv1 as (Hsize1 & Hle1 & Hbuf1).
  destruct v1 as [[buf1 cap1] sz1].
  unfold Capacity, RawMemory_Capacity in *. simpl in *. subst sz1.
  destruct buf1 as [| b off]; [lia |].
  destruct Hbuf1 as (-> & Hpos1 & Hb1).
  apply bind_throw.
  erewrite bind_ok by exact Hres. cbn [bind this fst].
  apply in_memory_throw. cbn [GetAddress buffer_ ptr_add data_ size_].
  eapply uninitialized_value_construct_throw;
    [exact Hx0 | exact Hb1 | rewrite cells_length by lia; lia | lia].
Qed.

End MoreFacts.

(** * More of the header's behaviour *)

(** ** [RawMemory<T>] *)

(** X1.  [RawMemory(capacity)] followed by [~RawMemory()], on any
    platform.  For capacity 0 nothing is allocated and the handle is null.
    Otherwise [operator new] is asked for [capacity * sizeof(T)] bytes as
    [size_t] computes the product.  When it turns the request down, the
    exception leaves the memory as it was.  When it serves the request, the
    manager records the capacity asked for, and its handle is the start of a
    block that was not allocated before, with as many raw slots as fit in the
    bytes obtained: exactly [capacity] when the product has not wrapped.  The
    blocks that existed stay as they were and no element operation runs.
    Destroying the manager then gives back exactly the memory there was
    before. *)
Theorem RawMemory_new_then_dtor :
  forall (T : Type) (E : Element T) (P : Platform T) (capacity : nat)
         (w : world),
    (capacity = 0 -> RawMemory_new capacity w = Ok w RawMemory_default) /\
    (capacity <> 0 -> new_throws (request capacity) = true ->
     RawMemory_new capacity w = Throw w) /\
    (capacity <> 0 -> new_throws (request capacity) = false ->
     exists r w',
       RawMemory_new capacity w = Ok w' r /\
       RawMemory_Capacity r = capacity /\
       GetAddress r = Ptr (new_block w) 0 /\
       heap w !! new_block w = None /\
       heap w' !! new_block w
       = Some (replicate (request capacity / sizeof) Raw) /\
       (forall a, a <> new_block w -> heap w' !! a = heap w !! a) /\
       trace w' = trace w /\
       RawMemory_dtor r w' = Ok w tt) /\
    (served capacity -> request capacity / sizeof = capacity).
Proof.
  intros T E P capacity w. split; [| split; [| split]].
  - intros ->. reflexivity.
  - intros Hn Hnew. by apply RawMemory_new_refused.
  - intros Hn Hnew.
    exists (MkRawMemory (Ptr (new_block w) 0) capacity),
      (put_block (new_block w)
         (replicate (request capacity / sizeof) Raw) [] w).
    split; [by apply RawMemory_new_run |].
    split; [done |]. split; [done |].
    split; [apply new_block_fresh |].
    split; [apply put_block_lookup |].
    split; [intros a Ha; by apply put_block_lookup_ne |].
    split; [simpl; by rewrite app_nil_r |].
    unfold RawMemory_dtor. cbn [buffer_].
    erewrite Deallocate_ok by apply put_block_lookup.
    rewrite free_block_new_block, log_nil. reflexivity.
  - apply served_slots.
Qed.

(** Instances of X1 on the 64-bit platform: a manager of three [int] gets
    three slots; one of [2^62 + 1] records that capacity over a block of one
    slot. *)
Lemma RawMemory_new_then_dtor_witness :
  (exists r w',
     RawMemory_new (P := lp64) 3 no_blocks = Ok w' r /\
     RawMemory_Capacity r = 3 /\
     heap w' !! new_block (no_blocks (T := Z)) = Some [Raw; Raw; Raw] /\
     RawMemory_dtor r w' = Ok no_blocks tt) /\
  (exists r w',
     RawMemory_new (P := lp64) (2 ^ 62 + 1) no_blocks = Ok w' r /\
     RawMemory_Capacity r = 2 ^ 62 + 1 /\
     heap w' !! new_block (no_blocks (T := Z)) = Some [Raw]).
Proof.
  split.
  - pose proof (lp64_served 3 ltac:(lia)) as Hs.
    destruct (proj1 (proj2 (proj2 (RawMemory_new_then_dtor Z int_element lp64
                                     3 no_blocks))))
      as (r & w' & Hok & Hcap & _ & _ & Hblk & _ & _ & Hd).
    + lia.
    + apply Hs.
    + rewrite (served_slots _ Hs) in Hblk.
      exists r, w'. split; [exact Hok |]. split; [exact Hcap |].
      split; [exact Hblk | exact Hd].
  - destruct (proj1 (proj2 (proj2 (RawMemory_new_then_dtor Z int_element lp64
                                     (2 ^ 62 + 1) no_blocks))))
      as (r & w' & Hok & Hcap & _ & _ & Hblk & _).
    + apply lp64_large_nonzero.
    + rewrite lp64_wrap. apply lp64_four_bytes_served.
    + rewrite lp64_wrap in Hblk.
      exists r, w'. split; [exact Hok |]. split; [exact Hcap | exact Hblk].
Defined.

(** X2.  [std::swap] on two raw-storage managers, which the compiler builds
    from the move constructor and two move assignments, exchanges the two:
    although each move assignment itself swaps, the temporary ends up empty,
    so its destructor releases nothing and the memory is untouched. *)
Theorem std_swap_RawMemory_exchanges :
  forall (T : Type) (E : Element T) (a b : RawMemory) (w : world),
    std_swap_RawMemory a b w = Ok w (b, a).
Proof. intros T E [ab ac] [bb bc] w. reflexivity. Qed.

(** ** Construction and destruction of a vector *)

(** X3.  [~Vector()] on a vector that holds [xs] destroys each element once,
    in order from the first, and then releases the block: afterwards the heap
    is the old one without that block, or unchanged for a vector that never
    allocated. *)
Theorem Vector_dtor_destroys_and_releases :
  forall (T : Type) (E : Element T) (w : world) (v : Vector) (xs : list T),
    holds w v xs ->
    exists w',
      Vector_dtor v w = Ok w' tt /\
      heap w' = match begin v with
                | Null => heap w
                | Ptr b _ => delete b (heap w)
                end /\
      trace w' = trace w ++ (EvDtor <$> xs).
Proof. intros T E w v xs Hv. by apply Vector_dtor_heap. Qed.

(** An instance of X3: destroying [[4, 9]] held in three slots. *)
Lemma Vector_dtor_destroys_and_releases_witness :
  exists w',
    Vector_dtor (vector_at 0 3 2) (one_block 0 [Live 4; Live 9; Raw]%Z)
    = Ok w' tt /\
    heap w' = ∅ /\ trace w' = [EvDtor 4; EvDtor 9]%Z.
Proof.
  assert (Hv : holds (one_block 0 [Live 4; Live 9; Raw]%Z)
                     (vector_at 0 3 2) [4; 9]%Z)
    by (repeat split; vm_compute; try lia; reflexivity).
  destruct (Vector_dtor_destroys_and_releases Z int_element _ _ _ Hv)
    as (w' & Hok & Hheap & Htr).
  exists w'. split; [exact Hok |]. split; [| exact Htr].
  rewrite Hheap. apply delete_singleton_eq.
Defined.

(** X4.  A vector built by [Vector(n)] and then destroyed leaves the memory
    exactly as it was, on any platform on which the request for its block is
    served in full: every block allocated is released, and the trace shows
    [n] value-constructions followed by [n] destructions. *)
Theorem Vector_sized_then_dtor :
  forall (T : Type) (E : Element T) (P : Platform T) (n : nat) (x0 : T)
         (w : world),
    value_init = Some x0 -> (n <> 0 -> served n) ->
    (v <- Vector_sized n ;; Vector_dtor v) w
    = Ok (log (replicate n (EvValueCtor x0) ++ replicate n (EvDtor x0)) w) tt.
Proof.
  intros T E P n x0 w Hx0 Hs.
  transitivity ((v <- Vector_sized (P := roomy T) n ;; Vector_dtor v) w).
  { unfold bind. by rewrite Vector_sized_served. }
  destruct (decide (n = 0)) as [-> | Hn].
  - cbn. unfold log. simpl. by rewrite app_nil_r, world_eta.
  - erewrite bind_ok by (by apply Vector_sized_world).
    pose proof (destroy_whole_block _ (new_block w) (replicate n x0)
                  (replicate n (EvValueCtor x0)) w eq_refl
                  (new_block_fresh w)) as Hd.
    rewrite length_replicate, !fmap_replicate in Hd. exact Hd.
Qed.

(** An instance of X4: [Vector<int>(2)] built and destroyed on the 64-bit
    platform. *)
Lemma Vector_sized_then_dtor_witness :
  (v <- Vector_sized (P := lp64) 2 ;; Vector_dtor v) (no_blocks (T := Z))
  = Ok (World ∅ [EvValueCtor 0; EvValueCtor 0; EvDtor 0; EvDtor 0]%Z) tt.
Proof.
  apply (Vector_sized_then_dtor Z int_element lp64 2 0%Z no_blocks eq_refl).
  intros _. apply lp64_served. lia.
Defined.

(** X5.  [Vector(n)] for an element type whose default constructor throws:
    for [n = 0] no element is built and the empty vector comes out; for any
    other [n] the call ends with the exception and the memory is exactly as
    before, the block allocated for the elements having been released. *)
Theorem Vector_sized_throw_releases :
  forall (T : Type) (E : Element T) (n : nat) (w : world),
    value_init = None ->
    Vector_sized n w
    = (if decide (n = 0) then Ok w Vector_default else Throw w).
Proof.
  intros T E n w Hx0. case_decide as Hn.
  - subst n. reflexivity.
  - by apply Vector_sized_throw.
Qed.

(** Instances of X5 with an element type whose default constructor throws *)
Lemma Vector_sized_throw_releases_witness :
  Vector_sized 2 (no_blocks (T := demanding)) = Throw no_blocks /\
  Vector_sized 0 (no_blocks (T := demanding)) = Ok no_blocks Vector_default.
Proof.
  split.
  - exact (Vector_sized_throw_releases demanding demanding_element 2
             no_blocks eq_refl).
  - exact (Vector_sized_throw_releases demanding demanding_element 0
             no_blocks eq_refl).
Defined.

(** X6.  The copy constructor makes a deep copy.  When no copy throws, the
    new vector holds the elements of the other one in storage of its own,
    with size and capacity equal to their number; the other vector still
    holds its elements; exactly one copy construction per element ran, in
    order.  Destroying the copy afterwards brings the memory back to what it
    was before the copy was made. *)
Theorem Vector_copy_is_independent :
  forall (T : Type) (E : Element T) (w : world) (other : Vector)
         (ys : list T),
    holds w other ys -> Forall (fun y => copy_throws y = false) ys ->
    exists w' v',
      Vector_copy other w = Ok w' v' /\
      holds w' v' ys /\ holds w' other ys /\ apart v' other /\
      Size v' = length ys /\ Capacity v' = length ys /\
      trace w' = trace w ++ (EvCopyCtor <$> ys) /\
      Vector_dtor v' w'
      = Ok (log ((EvCopyCtor <$> ys) ++ (EvDtor <$> ys)) w) tt.
Proof.
  intros T E w other ys Hv Hys.
  destruct (decide (ys = [])) as [-> | Hne].
  - exists w, (MkVector (MkRawMemory Null 0) 0).
    split; [apply Vector_copy_empty; apply Hv |].
    split; [by repeat split |]. split; [exact Hv |].
    split; [exact I |]. split; [done |]. split; [done |].
    split; [simpl; by rewrite app_nil_r |].
    cbn. unfold log. simpl. by rewrite app_nil_r, world_eta.
  - eexists _, _. split; [by apply Vector_copy_world |].
    assert (Hfresh : forall b off, buffer_ (data_ other) = Ptr b off ->
                                   b <> new_block w).
    { intros b off Hb. by eapply holds_allocated. }
    split; [| split; [| split; [| split; [| split; [| split]]]]].
    + repeat split; cbn [size_ data_ capacity_ buffer_]; try lia.
      * destruct ys; [done | simpl; lia].
      * heap_simpl. by rewrite cells_full.
    + eapply holds_frame; [exact Hv |].
      intros b Hb. apply put_block_lookup_ne.
      intros Heq. by eapply Hfresh.
    + unfold apart. cbn [data_ buffer_].
      destruct (buffer_ (data_ other)) as [| b off] eqn:Hb; [done |].
      intros Heq. by eapply Hfresh.
    + reflexivity.
    + reflexivity.
    + reflexivity.
    + eapply destroy_whole_block; [reflexivity | apply new_block_fresh].
Qed.

(** An instance of X6: copying [[4, 9]] and destroying the copy. *)
Lemma Vector_copy_is_independent_witness :
  exists w' v',
    Vector_copy (vector_at 0 3 2) (one_block 0 [Live 4; Live 9; Raw]%Z)
    = Ok w' v' /\
    holds w' v' [4; 9]%Z /\
    holds w' (vector_at 0 3 2) [4; 9]%Z /\
    Capacity v' = 2 /\
    Vector_dtor v' w'
    = Ok (World {[ 0 := [Live 4; Live 9; Raw]%Z ]}
                [EvCopyCtor 4; EvCopyCtor 9; EvDtor 4; EvDtor 9]%Z) tt.
Proof.
  assert (Hv : holds (one_block 0 [Live 4; Live 9; Raw]%Z)
                     (vector_at 0 3 2) [4; 9]%Z)
    by (repeat split; vm_compute; try lia; reflexivity).
  destruct (Vector_copy_is_independent Z int_element _ _ _ Hv)
    as (w' & v' & Hok & Hv' & Hother & _ & _ & Hcap & _ & Hd).
  { by repeat constructor. }
  exists w', v'. split; [exact Hok |]. split; [exact Hv' |].
  split; [exact Hother |]. split; [exact Hcap | exact Hd].
Defined.

(** X7.  When copying an element throws in the copy constructor of a
    vector, the copies made so far are destroyed, the new block is released
    and no vector comes into being: the heap is the one from before the call,
    and the trace gained the copy constructions before the failing one and
    the matching destructions. *)
Theorem Vector_copy_throw_unwinds :
  forall (T : Type) (E : Element T) (w : world) (other : Vector)
         (ys1 : list T) (y : T) (ys2 : list T),
    holds w other (ys1 ++ y :: ys2) ->
    Forall (fun x => copy_throws x = false) ys1 -> copy_throws y = true ->
    Vector_copy other w
    = Throw (log ((EvCopyCtor <$> ys1) ++ (EvDtor <$> ys1)) w).
Proof.
  intros T E w other ys1 y ys2 Hv Hys1 Hy. by eapply Vector_copy_throw.
Qed.

(** An instance of X7: copying [[2, 13, 5]] of [fragile] elements. *)
Lemma Vector_copy_throw_unwinds_witness :
  Vector_copy (vector_at 0 3 3)
    (one_block 0 [Live (Fragile 2); Live (Fragile 13); Live (Fragile 5)])
  = Throw (World {[ 0 := [Live (Fragile 2); Live (Fragile 13);
                          Live (Fragile 5)] ]}
                 [EvCopyCtor (Fragile 2); EvDtor (Fragile 2)]).
Proof.
  assert (Hv : holds (one_block 0 [Live (Fragile 2); Live (Fragile 13);
                                   Live (Fragile 5)])
                     (vector_at 0 3 3)
                     ([Fragile 2] ++ Fragile 13 :: [Fragile 5]))
    by (repeat split; vm_compute; try lia; reflexivity).
  apply (Vector_copy_throw_unwinds fragile fragile_element _ _ _ _ _ Hv).
  - by repeat constructor.
  - reflexivity.
Defined.

(** X8.  The elements a vector held before it was move-assigned to are
    never destroyed.  After [v = std::move(rhs)] the source owns the former
    block of [v] with size 0; when the source is destroyed next, the block is
    released with its objects still alive in it: no destructor runs, in the
    assignment or in the destruction of the source. *)
Theorem Vector_move_assign_skips_destructors :
  forall (T : Type) (E : Element T) (w : world) (v rhs : Vector)
         (xs : list T) (b : addr),
    holds w v xs -> begin v = Ptr b 0 ->
    exists w',
      (rhs' <- Vector_move_assign (Another rhs) ;; in_memory (Vector_dtor rhs'))
        (v, w)
      = Ok (MkVector (data_ rhs) (size_ rhs), w') tt /\
      heap w' = delete b (heap w) /\
      trace w' = trace w.
Proof.
  intros T E w v rhs xs b (Hsize & Hcap & Hbuf) Hb.
  unfold begin, GetAddress in Hb. rewrite Hb in Hbuf.
  destruct Hbuf as (_ & _ & Hblk).
  destruct v as [[buf cap] n]. destruct rhs as [[rbuf rcap] rn].
  simpl in *. subst buf.
  eexists. split; [| split].
  - cbn. unfold Vector_dtor. cbn [size_ data_ GetAddress buffer_ destroy_n].
    unfold in_memory. cbn [fst snd bind ret].
    unfold RawMemory_dtor. cbn [buffer_].
    erewrite Deallocate_ok by exact Hblk. reflexivity.
  - reflexivity.
  - reflexivity.
Qed.

(** An instance of X8: [[1, 2]] is assigned from [[7, 8, 9]], and the source
    is destroyed; the objects 1 and 2 go without a destructor call. *)
Lemma Vector_move_assign_skips_destructors_witness :
  exists w',
    (rhs' <- Vector_move_assign (Another (vector_at 1 3 3)) ;;
     in_memory (Vector_dtor rhs'))
      (vector_at 0 2 2,
       two_blocks 0 [Live 1; Live 2]%Z 1 [Live 7; Live 8; Live 9]%Z)
    = Ok (vector_at 1 3 3, w') tt /\
    heap w' !! 0 = None /\
    trace w' = [].
Proof.
  assert (Hv : holds (two_blocks 0 [Live 1; Live 2]%Z
                                 1 [Live 7; Live 8; Live 9]%Z)
                     (vector_at 0 2 2) [1; 2]%Z)
    by (repeat split; vm_compute; try lia; reflexivity).
  destruct (Vector_move_assign_skips_destructors Z int_element _ _
              (vector_at 1 3 3) _ 0 Hv eq_refl)
    as (w' & Hok & Hheap & Htr).
  exists w'. split; [exact Hok |]. split; [| exact Htr].
  rewrite Hheap. apply lookup_delete_eq.
Defined.

(** ** Access and exchange *)

(** X9.  Indexing and the iterator range.  On a vector that holds [xs],
    [v[index]] for an index below the size is the address [begin() + index],
    and the object there is the element [xs[index]]; the call changes
    nothing.  An index at or beyond the size fails the [assert].  [end()] is
    [begin() + Size()], so the range from [begin()] to [end()] has [Size()]
    places. *)
Theorem Vector_at_reads_element :
  forall (T : Type) (E : Element T) (w : world) (v : Vector) (xs : list T),
    holds w v xs ->
    (forall index x,
       xs !! index = Some x ->
       Vector_at index (v, w) = Ok (v, w) (ptr_add (begin v) index) /\
       load (ptr_add (begin v) index) w = Ok w x) /\
    (forall index,
       Size v <= index -> Vector_at index (v, w) = Undefined) /\
    end_ v = ptr_add (begin v) (Size v) /\
    ptr_diff (end_ v) (begin v) w = Ok w (Size v).
Proof.
  intros T E w v xs Hv. pose proof Hv as (Hsize & Hcap & Hbuf).
  split; [| split; [| split]].
  - intros index x Hx. pose proof (lookup_lt_Some _ _ _ Hx) as Hlt.
    split; [| by eapply holds_load].
    unfold Vector_at. cbn [bind this fst].
    erewrite bind_ok by (apply assert_true; lia).
    rewrite RawMemory_at_ok by lia. reflexivity.
  - intros index Hle. unfold Vector_at, Size in *. cbn [bind this fst].
    unfold assert. rewrite decide_False by lia. reflexivity.
  - reflexivity.
  - unfold end_, begin, Size, GetAddress.
    destruct v as [[buf cap] sz]. simpl in *.
    destruct buf as [| b off]; simpl.
    + unfold ret. f_equal. lia.
    + rewrite decide_True by (split; [done | lia]).
      unfold ret. f_equal. lia.
Qed.

(** An instance of X9: reading index 1 of [[5, 6, 7]], and index 3. *)
Lemma Vector_at_reads_element_witness :
  Vector_at 1 (vector_at 0 4 3, one_block 0 [Live 5; Live 6; Live 7; Raw]%Z)
  = Ok (vector_at 0 4 3, one_block 0 [Live 5; Live 6; Live 7; Raw]%Z)
       (Ptr 0 1) /\
  load (Ptr 0 1) (one_block 0 [Live 5; Live 6; Live 7; Raw]%Z)
  = Ok (one_block 0 [Live 5; Live 6; Live 7; Raw]%Z) 6%Z /\
  Vector_at 3 (vector_at 0 4 3, one_block 0 [Live 5; Live 6; Live 7; Raw]%Z)
  = Undefined.
Proof.
  assert (Hv : holds (one_block 0 [Live 5; Live 6; Live 7; Raw]%Z)
                     (vector_at 0 4 3) [5; 6; 7]%Z)
    by (repeat split; vm_compute; try lia; reflexivity).
  destruct (Vector_at_reads_element Z int_element _ _ _ Hv)
    as (Hin & Hout & _).
  destruct (Hin 1 6%Z eq_refl) as [Hat Hload].
  split; [exact Hat |]. split; [exact Hload |].
  apply Hout. vm_compute. lia.
Defined.

(** X10.  [Swap] exchanges storage and size of the two vectors and does
    nothing else: the memory and the trace stay as they are, so no element is
    constructed, assigned or destroyed and nothing is allocated or released.
    Swapping back restores both vectors. *)
Theorem Swap_exchanges_vectors :
  forall (T : Type) (E : Element T) (v other : Vector) (w : world),
    Swap other (v, w) = Ok (other, w) v /\
    (r <- Swap other ;; Swap r) (v, w) = Ok (v, w) other.
Proof.
  intros T E v other w.
  assert (Hswap : forall a b : Vector, Swap b (a, w) = Ok (b, w) a).
  { intros [? ?] [? ?]. apply Swap_ok. }
  split; [apply Hswap |].
  erewrite bind_ok by apply Hswap. apply Hswap.
Qed.

(** ** Capacity *)

(** X11.  [Reserve(new_capacity)] keeps the elements and the size.  At or
    below the current capacity it changes nothing at all.  Above it, on any
    platform on which the request for the new block is served in full, the
    capacity becomes exactly [new_capacity]: the elements are relocated, in
    order, to a new block and the old block is released.  When
    [operator new] turns the request down, the vector and the memory are as
    before. *)
Theorem Reserve_keeps_elements :
  forall (T : Type) (E : Element T) (P : Platform T) (w : world)
         (v : Vector) (xs : list T) (new_capacity : nat),
    holds w v xs ->
    (Capacity v < new_capacity -> relocatable xs) ->
    ((Capacity v < new_capacity -> served new_capacity) ->
     exists v' w',
       Reserve new_capacity (v, w) = Ok (v', w') tt /\
       holds w' v' xs /\
       Size v' = Size v /\
       Capacity v' = Capacity v `max` new_capacity /\
       (new_capacity <= Capacity v -> v' = v /\ w' = w) /\
       (Capacity v < new_capacity ->
        (forall b off, begin v = Ptr b off -> heap w' !! b = None) /\
        trace w' = trace w ++ relocation_ctors xs ++ relocation_dtors xs)) /\
    (Capacity v < new_capacity -> new_throws (request new_capacity) = true ->
     Reserve new_capacity (v, w) = Throw (v, w)).
Proof.
  intros T E P w v xs n Hv Hreloc. split; [| by apply Reserve_refused].
  intros Hs. rewrite Reserve_served by done.
  destruct (decide (n <= Capacity v)) as [Hle | Hgt].
  - exists v, w. rewrite Reserve_enough by done.
    split; [done |]. split; [done |]. split; [done |].
    split; [lia |]. split; [done | lia].
  - destruct (Reserve_grow_ok w v xs n Hv)
      as (w' & Hok & Hv' & Hold & _ & Htr);
      [lia | apply Hreloc; lia |].
    eexists _, w'. split; [exact Hok |]. split; [exact Hv' |].
    split; [done |].
    split; [unfold Capacity, RawMemory_Capacity in *; simpl; lia |].
    split; [lia |]. intros _. split; [exact Hold | exact Htr].
Qed.

(** An instance of X11: [Reserve(5)] on [[4, 9]] held in two slots, on the
    64-bit platform. *)
Lemma Reserve_keeps_elements_witness :
  exists v' w',
    Reserve (P := lp64) 5 (vector_at 0 2 2, one_block 0 [Live 4; Live 9]%Z)
    = Ok (v', w') tt /\
    holds w' v' [4; 9]%Z /\ Size v' = 2 /\ Capacity v' = 5 /\
    heap w' !! 0 = None /\
    trace w' = [EvMoveCtor 4; EvMoveCtor 9; EvDtor 4; EvDtor 9]%Z.
Proof.
  assert (Hv : holds (one_block 0 [Live 4; Live 9]%Z)
                     (vector_at 0 2 2) [4; 9]%Z)
    by (repeat split; vm_compute; try lia; reflexivity).
  destruct (proj1 (Reserve_keeps_elements Z int_element lp64 _ _ _ 5 Hv
                     ltac:(intros _; by repeat constructor)))
    as (v' & w' & Hok & Hv' & Hsz & Hcap & _ & Hgrow).
  { intros _. apply lp64_served. lia. }
  destruct Hgrow as [Hold Htr]; [vm_compute; lia |].
  exists v', w'. split; [exact Hok |]. split; [exact Hv' |].
  split; [exact Hsz |]. split; [exact Hcap |].
  split; [exact (Hold 0 0 eq_refl) | exact Htr].
Defined.

(** X12.  Strong guarantee of [Reserve].  Whenever [Reserve] ends with an
    exception, the members of the vector, the heap and the elements are what
    they were before the call, provided that, for an element type that is
    relocated by moving, the moves do not throw.  For a type relocated by
    copying, a throwing copy is thus harmless: the copies already made are
    destroyed and the new block is released. *)
Theorem Reserve_strong_guarantee :
  forall (T : Type) (E : Element T) (w : world) (v : Vector) (xs : list T)
         (new_capacity : nat) (v' : Vector) (w' : world),
    holds w v xs ->
    (relocates_by_move = true -> Forall (fun x => move_throws x = false) xs) ->
    Reserve new_capacity (v, w) = Throw (v', w') ->
    v' = v /\ heap w' = heap w /\ holds w' v' xs.
Proof.
  intros T E w v xs n v' w' Hv Hmove Hthrow.
  destruct (Reserve_throw w v xs n v' w' Hv Hmove Hthrow) as [-> Hheap].
  split; [done |]. split; [done |].
  eapply holds_frame; [exact Hv |]. intros b _. by rewrite Hheap.
Qed.

(** An instance of X12: [Reserve(4)] on [[2, 13]] of [fragile] elements;
    copying 13 throws. *)
Lemma Reserve_strong_guarantee_witness :
  Reserve 4 (vector_at 0 2 2,
             one_block 0 [Live (Fragile 2); Live (Fragile 13)])
  = Throw (vector_at 0 2 2,
           World {[ 0 := [Live (Fragile 2); Live (Fragile 13)] ]}
                 [EvCopyCtor (Fragile 2); EvDtor (Fragile 2)]) /\
  holds (World {[ 0 := [Live (Fragile 2); Live (Fragile 13)] ]}
               [EvCopyCtor (Fragile 2); EvDtor (Fragile 2)])
        (vector_at 0 2 2) [Fragile 2; Fragile 13].
Proof.
  assert (Hthrow :
    Reserve 4 (vector_at 0 2 2,
               one_block 0 [Live (Fragile 2); Live (Fragile 13)])
    = Throw (vector_at 0 2 2,
             World {[ 0 := [Live (Fragile 2); Live (Fragile 13)] ]}
                   [EvCopyCtor (Fragile 2); EvDtor (Fragile 2)]))
    by (vm_compute; reflexivity).
  split; [exact Hthrow |].
  assert (Hv : holds (one_block 0 [Live (Fragile 2); Live (Fragile 13)])
                     (vector_at 0 2 2) [Fragile 2; Fragile 13])
    by (repeat split; vm_compute; try lia; reflexivity).
  apply (Reserve_strong_guarantee fragile fragile_element _ _ _ _ _ _ Hv
           ltac:(discriminate) Hthrow).
Defined.

(** X13.  [CopyOrMove(from, size, to)] between two blocks relocates the
    [size] objects at [from] to the slots at [to], in order, and leaves the
    source slots raw; slots outside the two ranges and other blocks are not
    touched.  It move-constructs when the element type is nothrow move
    constructible or cannot be copied, and copy-constructs otherwise; after
    all constructions it destroys the sources, which after moves are the
    moved-from objects. *)
Theorem CopyOrMove_relocates :
  forall (T : Type) (E : Element T) (w : world) (a c : addr)
         (spre spost pre mid post : list slot) (xs : list T),
    a <> c ->
    heap w !! a = Some (spre ++ (Live <$> xs) ++ spost) ->
    heap w !! c = Some (pre ++ mid ++ post) ->
    length mid = length xs ->
    relocatable xs ->
    exists w',
      CopyOrMove (Ptr a (length spre)) (length xs) (Ptr c (length pre)) w
      = Ok w' tt /\
      heap w' !! a = Some (spre ++ replicate (length xs) Raw ++ spost) /\
      heap w' !! c = Some (pre ++ (Live <$> xs) ++ post) /\
      (forall b, b <> a -> b <> c -> heap w' !! b = heap w !! b) /\
      trace w'
      = trace w
        ++ (if nothrow_move_constructible || negb copy_constructible
            then (EvMoveCtor <$> xs) ++ (EvDtor <$> (moved_from <$> xs))
            else (EvCopyCtor <$> xs) ++ (EvDtor <$> xs)).
Proof.
  intros T E w a c spre spost pre mid post xs Hne Ha Hc Hlen Hreloc.
  eexists. split; [| split; [| split; [| split]]].
  - by eapply (CopyOrMove_ok w a c _ _ _ xs spre spost pre mid post).
  - heap_simpl. reflexivity.
  - heap_simpl. reflexivity.
  - intros b Hba Hbc. heap_simpl. reflexivity.
  - unfold relocation_ctors, relocation_dtors, relocates_by_move.
    cbn [trace put_block].
    destruct (nothrow_move_constructible || negb copy_constructible);
      by rewrite <- app_assoc.
Qed.

(** An instance of X13: two [fragile] objects, whose move constructor may
    throw, are relocated by copying. *)
Lemma CopyOrMove_relocates_witness :
  exists w',
    CopyOrMove (Ptr 0 0) 2 (Ptr 1 0)
      (two_blocks 0 [Live (Fragile 2); Live (Fragile 5)] 1 [Raw; Raw; Raw])
    = Ok w' tt /\
    heap w' !! 0 = Some [Raw; Raw] /\
    heap w' !! 1 = Some [Live (Fragile 2); Live (Fragile 5); Raw] /\
    trace w' = [EvCopyCtor (Fragile 2); EvCopyCtor (Fragile 5);
                EvDtor (Fragile 2); EvDtor (Fragile 5)].
Proof.
  destruct (CopyOrMove_relocates fragile fragile_element
              (two_blocks 0 [Live (Fragile 2); Live (Fragile 5)]
                          1 [Raw; Raw; Raw])
              0 1 [] [] [] [Raw; Raw] [Raw] [Fragile 2; Fragile 5])
    as (w' & Hok & Ha & Hc & _ & Htr); try done.
  - by repeat constructor.
  - exists w'. split; [exact Hok |]. split; [exact Ha |].
    split; [exact Hc | exact Htr].
Defined.

(** X14.  [Resize] to a larger size gives the basic guarantee only.  When
    the default constructor of the element type throws, the call ends with
    the exception after [Reserve] has done its work: on any platform on
    which the request for the new block, if one is needed, is served in
    full, the vector still holds the elements it held and has the size it
    had, but its capacity is the larger of the old capacity and [new_size],
    and the elements have been relocated when the capacity had to grow. *)
Theorem Resize_grow_keeps_elements_on_throw :
  forall (T : Type) (E : Element T) (P : Platform T) (w : world)
         (v : Vector) (xs : list T) (new_size : nat),
    holds w v xs -> length xs < new_size -> value_init = None ->
    (Capacity v < new_size -> relocatable xs /\ served new_size) ->
    exists v' w',
      Resize new_size (v, w) = Throw (v', w') /\
      holds w' v' xs /\
      Capacity v' = Capacity v `max` new_size /\
      trace w' = trace w
                 ++ (if decide (new_size <= Capacity v) then []
                     else relocation_ctors xs ++ relocation_dtors xs).
Proof.
  intros T E P w v xs n Hv Hn Hx0 Hgrow.
  rewrite Resize_served by (intros Hc; by apply Hgrow).
  apply Resize_grow_throw; try done. intros Hc. by apply Hgrow.
Qed.

(** An instance of X14: [Resize(3)] on a full vector of one element whose
    type cannot be default-constructed. *)
Lemma Resize_grow_keeps_elements_on_throw_witness :
  exists v' w',
    Resize 3 (vector_at 0 1 1, one_block 0 [Live (Demanding 5)])
    = Throw (v', w') /\
    holds w' v' [Demanding 5] /\ Capacity v' = 3.
Proof.
  assert (Hv : holds (one_block 0 [Live (Demanding 5)])
                     (vector_at 0 1 1) [Demanding 5])
    by (repeat split; vm_compute; try lia; reflexivity).
  destruct (Resize_grow_keeps_elements_on_throw demanding demanding_element
              (roomy demanding) _ _ _ 3 Hv)
    as (v' & w' & Hthrow & Hv' & Hcap & _).
  - vm_compute. lia.
  - reflexivity.
  - intros _. split; [by repeat constructor | apply served_roomy].
  - exists v', w'. split; [exact Hthrow |]. split; [exact Hv' | exact Hcap].
Defined.

(** X15.  Growing a vector with [Resize] and shrinking it back to its former
    size gives back the elements it held, on any platform on which the
    request for the new block, if one is needed, is served in full; the
    capacity keeps the growth. *)
Theorem Resize_grow_then_shrink :
  forall (T : Type) (E : Element T) (P : Platform T) (w : world)
         (v : Vector) (xs : list T) (new_size : nat) (x0 : T),
    holds w v xs -> length xs < new_size -> value_init = Some x0 ->
    (Capacity v < new_size -> relocatable xs /\ served new_size) ->
    exists v' w',
      (Resize new_size ;; Resize (length xs)) (v, w) = Ok (v', w') tt /\
      holds w' v' xs /\
      Capacity v' = Capacity v `max` new_size.
Proof.
  intros T E P w v xs n x0 Hv Hn Hx0 Hgrow.
  destruct (Resize_grow_ok w v xs n x0 Hv Hn Hx0)
    as (v1 & w1 & Hgrown & Hv1 & Hcap1 & _).
  { intros Hc. by apply Hgrow. }
  destruct (Resize_shrink_ok w1 v1 _ (length xs) Hv1)
    as (w2 & Hshrink & Hv2 & _).
  { rewrite length_app, length_replicate. lia. }
  rewrite take_app_length in Hv2.
  eexists _, w2. split; [| split; [exact Hv2 | exact Hcap1]].
  rewrite <- Resize_served in Hgrown by (intros Hc; by apply Hgrow).
  rewrite <- Resize_served in Hshrink.
  - erewrite bind_ok by exact Hgrown. exact Hshrink.
  - intros Hc. destruct Hv1 as (_ & Hle & _).
    rewrite length_app, length_replicate in Hle.
    unfold Capacity, RawMemory_Capacity in Hc. lia.
Qed.

(** An instance of X15: [[4, 9]] resized to 5 and back to 2 on the 64-bit
    platform. *)
Lemma Resize_grow_then_shrink_witness :
  exists v' w',
    (Resize (P := lp64) 5 ;; Resize (P := lp64) 2)
      (vector_at 0 2 2, one_block 0 [Live 4; Live 9]%Z)
    = Ok (v', w') tt /\
    holds w' v' [4; 9]%Z /\ Capacity v' = 5.
Proof.
  assert (Hv : holds (one_block 0 [Live 4; Live 9]%Z)
                     (vector_at 0 2 2) [4; 9]%Z)
    by (repeat split; vm_compute; try lia; reflexivity).
  destruct (Resize_grow_then_shrink Z int_element lp64 _ _ _ 5 0%Z Hv)
    as (v' & w' & Hok & Hv' & Hcap).
  - vm_compute. lia.
  - reflexivity.
  - intros _. split; [by repeat constructor | apply lp64_served; lia].
  - exists v', w'. split; [exact Hok |]. split; [exact Hv' | exact Hcap].
Defined.

(** ** The back of the vector *)

(** X16.  [EmplaceBack] on a vector with capacity to spare constructs the
    new element in place: storage and capacity stay, so pointers to the
    existing elements stay valid; the one constructor call is the only
    element operation; and the reference returned designates the new
    element, the last one of the vector. *)
Theorem EmplaceBack_in_place :
  forall (T : Type) (E : Element T) (w : world) (v : Vector) (xs : list T)
         (args : pack) (x : T),
    holds w v xs -> size_ v < Capacity v -> built args = Some x ->
    exists w',
      EmplaceBack args (v, w)
      = Ok (MkVector (data_ v) (size_ v + 1), w')
           (ptr_add (begin v) (size_ v)) /\
      holds w' (MkVector (data_ v) (size_ v + 1)) (xs ++ [x]) /\
      load (ptr_add (begin v) (size_ v)) w' = Ok w' x /\
      trace w' = trace w ++ [ctor_event args x].
Proof.
  intros T E w v xs args x Hv Hroom Hx.
  destruct (holds_room_block w v xs Hv Hroom) as (b & Hb & Hblk).
  assert (Hsz : size_ v = length xs) by apply Hv.
  assert (Hv' : holds (put_block b (cells (Capacity v) (xs ++ [x]))
                         [ctor_event args x] w)
                      (MkVector (data_ v) (size_ v + 1)) (xs ++ [x])).
  { destruct Hv as (_ & Hcap & _).
    unfold Capacity, RawMemory_Capacity in *.
    repeat split; cbn [size_ data_]; rewrite ?length_app; simpl; try lia.
    rewrite Hb. repeat split; [lia |]. heap_simpl. reflexivity. }
  eexists. split; [| split; [exact Hv' | split]].
  - rewrite (EmplaceBack_room_ok w v xs args x b) by done.
    by rewrite Hsz.
  - rewrite Hsz. eapply (holds_load _ _ _ _ _ Hv').
    by apply lookup_middle.
  - reflexivity.
Qed.

(** An instance of X16: a [fragile] object is built from 7 at the back of
    [[2]], held in two slots. *)
Lemma EmplaceBack_in_place_witness :
  exists w',
    EmplaceBack (OtherArgs 7%Z)
      (vector_at 0 2 1, one_block 0 [Live (Fragile 2); Raw])
    = Ok (vector_at 0 2 2, w') (Ptr 0 1) /\
    holds w' (vector_at 0 2 2) [Fragile 2; Fragile 7] /\
    load (Ptr 0 1) w' = Ok w' (Fragile 7) /\
    trace w' = [EvArgCtor 7%Z (Fragile 7)].
Proof.
  assert (Hv : holds (one_block 0 [Live (Fragile 2); Raw])
                     (vector_at 0 2 1) [Fragile 2])
    by (repeat split; vm_compute; try lia; reflexivity).
  destruct (EmplaceBack_in_place fragile fragile_element _ _ _
              (@OtherArgs fragile fragile_element 7%Z) (Fragile 7) Hv)
    as (w' & Hok & Hv' & Hload & Htr).
  - vm_compute. lia.
  - reflexivity.
  - exists w'. split; [exact Hok |]. split; [exact Hv' |].
    split; [exact Hload | exact Htr].
Defined.

(** X17.  [PushBack(T&&)] moves: the new element is built by the move
    constructor from the argument, and the copy constructor is not called for
    it.  Only when the vector was full do further constructions follow, the
    relocations of the existing elements. *)
Theorem PushBack_rvalue_moves :
  forall (T : Type) (E : Element T) (w : world) (v : Vector) (xs : list T)
         (x : T),
    holds w v xs -> move_throws x = false ->
    (size_ v = Capacity v -> relocatable xs) ->
    exists v' w',
      PushBack_rvalue x (v, w) = Ok (v', w') tt /\
      holds w' v' (xs ++ [x]) /\
      trace w' = trace w ++ EvMoveCtor x ::
                   (if decide (size_ v = Capacity v)
                    then relocation_ctors xs ++ relocation_dtors xs else []).
Proof.
  intros T E w v xs x Hv Hx Hreloc.
  destruct (EmplaceBack_ok w v xs (Rvalue x) x Hv)
    as (v' & w' & Hok & Hv' & _ & Htr).
  { simpl. by rewrite Hx. }
  { done. }
  exists v', w'. split; [| by split].
  unfold PushBack_rvalue. by erewrite bind_ok by exact Hok.
Qed.

(** An instance of X17: a [fragile] object holding 13, which cannot be
    copied, is pushed back by moving. *)
Lemma PushBack_rvalue_moves_witness :
  exists v' w',
    PushBack_rvalue (Fragile 13)
      (vector_at 0 2 1, one_block 0 [Live (Fragile 2); Raw])
    = Ok (v', w') tt /\
    holds w' v' [Fragile 2; Fragile 13] /\
    trace w' = [EvMoveCtor (Fragile 13)].
Proof.
  assert (Hv : holds (one_block 0 [Live (Fragile 2); Raw])
                     (vector_at 0 2 1) [Fragile 2])
    by (repeat split; vm_compute; try lia; reflexivity).
  destruct (PushBack_rvalue_moves fragile fragile_element _ _ _ (Fragile 13) Hv)
    as (v' & w' & Hok & Hv' & Htr).
  { reflexivity. }
  { vm_compute. lia. }
  exists v', w'. split; [exact Hok |]. split; [exact Hv' | exact Htr].
Defined.

(** X18.  Pushing [k] elements one at a time onto a default-constructed
    vector constructs [k + (c - 1)] objects in all, where [c] is the final
    capacity, the least power of two not below [k] (none for [k = 0]): one
    per push, and one per relocation of an element when the storage grows.
    That is at most [3 * k] constructions, a constant number per push on
    average. *)
Theorem PushBack_amortised_constructions :
  forall (T : Type) (E : Element T) (values : list T) (w : world),
    Forall (fun x => copy_throws x = false) values ->
    relocatable values ->
    exists v' w' sizes,
      PushBack_each values (Vector_default, w) = Ok (v', w') sizes /\
      constructions (trace w')
      = constructions (trace w) + length values
        + (doubled_capacity (length values) - 1) /\
      constructions (trace w')
      <= constructions (trace w) + 3 * length values.
Proof.
  intros T E values w Hq Hreloc.
  destruct (PushBack_each_constructions values w Vector_default [])
    as (v' & w' & sizes & Hok & Hcount); try done.
  exists v', w', sizes. split; [exact Hok |].
  change (doubled_capacity (length [])) with 0 in Hcount.
  cbn [length] in Hcount. rewrite Nat.add_0_l in Hcount.
  split; [lia |].
  destruct (decide (length values = 0)) as [Hz | Hnz].
  - rewrite Hz in *. change (doubled_capacity 0) with 0 in Hcount. lia.
  - pose proof (doubled_capacity_lt (length values) ltac:(lia)). lia.
Qed.

(** An instance of X18: five pushes of [int] construct 5 + 7 objects. *)
Lemma PushBack_amortised_constructions_witness :
  exists v' w' sizes,
    PushBack_each [1; 2; 3; 4; 5]%Z (Vector_default, no_blocks)
    = Ok (v', w') sizes /\
    constructions (trace w') = 12.
Proof.
  destruct (PushBack_amortised_constructions Z int_element [1; 2; 3; 4; 5]%Z
              no_blocks)
    as (v' & w' & sizes & Hok & Hcount & _).
  - by repeat constructor.
  - by repeat constructor.
  - exists v', w', sizes. split; [exact Hok | exact Hcount].
Defined.

(** X19.  [PopBack] on a vector that is not empty destroys the last element
    and nothing else: the elements before it, the storage and the capacity
    stay, and the size goes down by one.  On an empty vector the pointer
    [data_.GetAddress() + size_ - 1] lies before the storage, and the
    behaviour is undefined. *)
Theorem PopBack_removes_last :
  forall (T : Type) (E : Element T) (w : world) (v : Vector),
    (forall xs x,
       holds w v (xs ++ [x]) ->
       exists w',
         PopBack (v, w) = Ok (MkVector (data_ v) (size_ v - 1), w') tt /\
         holds w' (MkVector (data_ v) (size_ v - 1)) xs /\
         S (size_ v - 1) = size_ v /\
         trace w' = trace w ++ [EvDtor x]) /\
    (holds w v [] -> PopBack (v, w) = Undefined).
Proof.
  intros T E w v. split.
  - intros xs x Hv.
    destruct (PopBack_ok w v xs x Hv) as (w' & Hok & Hv' & _ & Htr).
    exists w'. split; [exact Hok |]. split; [exact Hv' |].
    split; [| exact Htr].
    destruct Hv as (-> & _). rewrite length_app. simpl. lia.
  - apply PopBack_empty.
Qed.

(** Instances of X19: [PopBack] on [[4, 9]] and on an empty vector with
    three slots. *)
Lemma PopBack_removes_last_witness :
  (exists w',
     PopBack (vector_at 0 3 2, one_block 0 [Live 4; Live 9; Raw]%Z)
     = Ok (vector_at 0 3 1, w') tt /\
     holds w' (vector_at 0 3 1) [4]%Z /\
     trace w' = [EvDtor 9%Z]) /\
  PopBack (vector_at 0 3 0, one_block 0 [Raw; Raw; Raw] (T := Z)) = Undefined.
Proof.
  split.
  - assert (Hv : holds (one_block 0 [Live 4; Live 9; Raw]%Z)
                       (vector_at 0 3 2) ([4] ++ [9])%Z)
      by (repeat split; vm_compute; try lia; reflexivity).
    destruct (proj1 (PopBack_removes_last Z int_element _ _) _ _ Hv)
      as (w' & Hok & Hv' & _ & Htr).
    exists w'. split; [exact Hok |]. split; [exact Hv' | exact Htr].
  - assert (Hv : holds (one_block 0 [Raw; Raw; Raw] (T := Z))
                       (vector_at 0 3 0) [])
      by (repeat split; vm_compute; try lia; reflexivity).
    exact (proj2 (PopBack_removes_last Z int_element _ _) Hv).
Defined.

(** X20.  [PopBack] undoes [PushBack]: after pushing an element and popping
    it again the vector holds the elements it held, with the size it had.
    When there was room, the members of the vector and the heap are exactly
    as before; when the push had to grow the storage, the capacity stays
    grown. *)
Theorem PushBack_then_PopBack :
  forall (T : Type) (E : Element T) (w : world) (v : Vector) (xs : list T)
         (x : T),
    holds w v xs -> copy_throws x = false ->
    (size_ v = Capacity v -> relocatable xs) ->
    exists v' w',
      (PushBack x ;; PopBack) (v, w) = Ok (v', w') tt /\
      holds w' v' xs /\
      Size v' = Size v /\
      Capacity v <= Capacity v' /\
      (size_ v < Capacity v -> v' = v /\ heap w' = heap w).
Proof.
  intros T E w v xs x Hv Hx Hreloc.
  destruct (EmplaceBack_ok w v xs (ConstRef x) x Hv)
    as (v1 & w1 & Hok & Hv1 & Hcap & Htr).
  { simpl. by rewrite Hx. }
  { done. }
  destruct (PopBack_ok w1 v1 xs x Hv1) as (w2 & Hpop & Hv2 & Hheap & _).
  exists (MkVector (data_ v1) (size_ v1 - 1)), w2.
  assert (Hsz1 : size_ v1 = S (length xs)).
  { destruct Hv1 as (-> & _). rewrite length_app. simpl. lia. }
  split; [| split; [| split; [| split]]].
  - unfold PushBack.
    erewrite bind_ok; cycle 1.
    { erewrite bind_ok by exact Hok. reflexivity. }
    exact Hpop.
  - exact Hv2.
  - unfold Size. cbn [size_]. destruct Hv as (-> & _). lia.
  - unfold Capacity in *. cbn [data_]. rewrite Hcap.
    case_decide; [| done].
    pose proof (grown_capacity_gt (size_ v)).
    unfold RawMemory_Capacity in *. lia.
  - intros Hroom.
    destruct (holds_room_block w v xs Hv Hroom) as (b & Hb & Hblk).
    rewrite (EmplaceBack_room_ok w v xs (ConstRef x) x b) in Hok; try done;
      [| simpl; by rewrite Hx].
    injection Hok as <- <-. cbn [data_ size_] in *.
    split.
    + destruct v as [d n]. simpl. f_equal. lia.
    + rewrite Hheap, Hb. heap_simpl. rewrite insert_insert_eq.
      by apply insert_id.
Qed.

(** An instance of X20: pushing 6 onto [[4, 9]] with room, and popping. *)
Lemma PushBack_then_PopBack_witness :
  exists w',
    (PushBack 6%Z ;; PopBack)
      (vector_at 0 3 2, one_block 0 [Live 4; Live 9; Raw]%Z)
    = Ok (vector_at 0 3 2, w') tt /\
    holds w' (vector_at 0 3 2) [4; 9]%Z /\
    heap w' = {[ 0 := [Live 4; Live 9; Raw]%Z ]}.
Proof.
  assert (Hv : holds (one_block 0 [Live 4; Live 9; Raw]%Z)
                     (vector_at 0 3 2) [4; 9]%Z)
    by (repeat split; vm_compute; try lia; reflexivity).
  destruct (PushBack_then_PopBack Z int_element _ _ _ 6%Z Hv)
    as (v' & w' & Hok & Hv' & _ & _ & Hsame).
  { reflexivity. }
  { vm_compute. lia. }
  destruct Hsame as [-> Hheap]; [vm_compute; lia |].
  exists w'. split; [exact Hok |]. split; [exact Hv' | exact Hheap].
Defined.

(** ** The middle of the vector *)

(** X21.  [Emplace(pos)] without arguments, the one form of the call that
    compiles, before an existing element, on a vector with capacity to spare
    and for an element type whose moves do not throw, inserts exactly one
    element: afterwards a value-initialised element is at the given
    position, the elements before it and after it keep their order, the
    size is one more, and storage and capacity are the same.  The iterator
    returned designates the new element. *)
Theorem Emplace_inserts_before_element :
  forall (T : Type) (E : Element T) (w : world) (v : Vector) (xs : list T)
         (index : nat) (x : T),
    holds w v xs -> index < length xs -> size_ v < Capacity v ->
    value_init = Some x ->
    (forall y, move_throws y = false) ->
    (forall d y, move_assign_throws d y = false) ->
    exists w',
      Emplace (ptr_add (begin v) index) NoArgs (v, w)
      = Ok (MkVector (data_ v) (size_ v + 1), w') (ptr_add (begin v) index) /\
      holds w' (MkVector (data_ v) (size_ v + 1))
            (take index xs ++ x :: drop index xs) /\
      load (ptr_add (begin v) index) w' = Ok w' x.
Proof.
  intros T E w v xs index x Hv Hlt Hroom Hx Hmove Hassign.
  destruct (Emplace_before_ok w v xs index x Hv Hlt Hroom Hx Hmove Hassign)
    as (w' & Hok & Hv').
  exists w'. split; [exact Hok |]. split; [exact Hv' |].
  eapply (holds_load _ _ _ _ _ Hv').
  apply lookup_middle. rewrite length_take_le; lia.
Qed.

(** An instance of X21: an [int] is emplaced at the front of [[1, 2, 3]]. *)
Lemma Emplace_inserts_before_element_witness :
  exists w',
    Emplace (Ptr 0 0) NoArgs
      (vector_at 0 4 3, one_block 0 [Live 1; Live 2; Live 3; Raw]%Z)
    = Ok (vector_at 0 4 4, w') (Ptr 0 0) /\
    holds w' (vector_at 0 4 4) [0; 1; 2; 3]%Z.
Proof.
  assert (Hv : holds (one_block 0 [Live 1; Live 2; Live 3; Raw]%Z)
                     (vector_at 0 4 3) [1; 2; 3]%Z)
    by (repeat split; vm_compute; try lia; reflexivity).
  destruct (Emplace_inserts_before_element Z int_element _ _ _ 0 0%Z Hv)
    as (w' & Hok & Hv' & _); try done; try (vm_compute; lia).
  exists w'. split; [exact Hok | exact Hv'].
Defined.

(** X22.  The private [Relocate], taken by itself, inserts at every position
    of [[0, size]], the end included, whatever the capacity: it builds the
    new element in a new block of [size_ == 0 ? 1 : size_ * 2] slots,
    relocates the elements before the position and then those from the
    position on around it, releases the old block, and returns the position
    of the new element in the new block.  When the constructor of the new
    element throws, nothing has been touched yet and the new block is
    released: the vector and the memory are exactly as before.  On a full
    vector, [Emplace] without arguments is this function. *)
Theorem Relocate_inserts_at_every_position :
  forall (T : Type) (E : Element T) (w : world) (v : Vector) (xs : list T)
         (index : nat) (args : pack),
    holds w v xs -> index <= length xs ->
    (forall x,
       built args = Some x -> relocatable xs ->
       exists v' w',
         Relocate (ptr_add (begin v) index) args (v, w)
         = Ok (v', w') (ptr_add (begin v') index) /\
         holds w' v' (take index xs ++ x :: drop index xs) /\
         Size v' = Size v + 1 /\
         Capacity v' = grown_capacity (Size v) /\
         (forall b off, begin v = Ptr b off -> heap w' !! b = None) /\
         trace w' = trace w ++ ctor_event args x
                      :: relocation_ctors (take index xs)
                      ++ relocation_dtors (take index xs)
                      ++ relocation_ctors (drop index xs)
                      ++ relocation_dtors (drop index xs)) /\
    (built args = None ->
     Relocate (ptr_add (begin v) index) args (v, w) = Throw (v, w)) /\
    (size_ v = Capacity v ->
     Emplace (ptr_add (begin v) index) NoArgs (v, w)
     = Relocate (ptr_add (begin v) index) NoArgs (v, w)).
Proof.
  intros T E w v xs index args Hv Hle.
  split; [| split].
  - intros x Hx Hreloc. rewrite <- (take_drop index xs) in Hv, Hreloc.
    destruct (Relocate_ok w v _ _ args x Hv Hx Hreloc)
      as (w' & Hok & Hv' & Hold & Htr).
    rewrite length_take_le in Hok by lia.
    eexists _, w'. split; [exact Hok |]. split; [exact Hv' |].
    split; [reflexivity |]. split; [reflexivity |].
    split; [exact Hold | exact Htr].
  - intros Hx. by eapply Relocate_ctor_throw.
  - intros Hfull. unfold Emplace, forward_undeduced.
    unfold bind at 1. unfold ret at 1. unfold bind at 1. unfold this at 1.
    cbn [fst]. rewrite decide_True by done. reflexivity.
Qed.

(** Instances of X22: 7 is placed at the end of the full vector [[1, 2]];
    building a [fragile] object from -1 throws. *)
Lemma Relocate_inserts_at_every_position_witness :
  (exists v' w',
     Relocate (Ptr 0 2) (Rvalue 7%Z)
       (vector_at 0 2 2, one_block 0 [Live 1; Live 2]%Z)
     = Ok (v', w') (ptr_add (begin v') 2) /\
     holds w' v' [1; 2; 7]%Z /\ Capacity v' = 4) /\
  Relocate (Ptr 0 1) (OtherArgs (-1)%Z)
    (vector_at 0 1 1, one_block 0 [Live (Fragile 2)])
  = Throw (vector_at 0 1 1, one_block 0 [Live (Fragile 2)]).
Proof.
  split.
  - assert (Hv : holds (one_block 0 [Live 1; Live 2]%Z)
                       (vector_at 0 2 2) [1; 2]%Z)
      by (repeat split; vm_compute; try lia; reflexivity).
    destruct (proj1 (Relocate_inserts_at_every_position Z int_element _ _ _ 2
                       (Rvalue 7%Z) Hv ltac:(vm_compute; lia)) 7%Z)
      as (v' & w' & Hok & Hv' & _ & Hcap & _).
    + reflexivity.
    + by repeat constructor.
    + exists v', w'. split; [exact Hok |]. split; [exact Hv' | exact Hcap].
  - assert (Hv : holds (one_block 0 [Live (Fragile 2)])
                       (vector_at 0 1 1) [Fragile 2])
      by (repeat split; vm_compute; try lia; reflexivity).
    exact (proj1 (proj2 (Relocate_inserts_at_every_position fragile
                           fragile_element _ _ _ 1
                           (@OtherArgs fragile fragile_element (-1)%Z) Hv
                           ltac:(vm_compute; lia))) eq_refl).
Defined.

(** X23.  [Erase] undoes [Emplace]: emplacing, without arguments, before an
    existing element with capacity to spare and erasing at the iterator
    returned gives back the vector as it was, members and elements, for an
    element type whose moves do not throw. *)
Theorem Emplace_then_Erase :
  forall (T : Type) (E : Element T) (w : world) (v : Vector) (xs : list T)
         (index : nat) (x : T),
    holds w v xs -> index < length xs -> size_ v < Capacity v ->
    value_init = Some x ->
    (forall y, move_throws y = false) ->
    (forall d y, move_assign_throws d y = false) ->
    exists w',
      (pos <- Emplace (ptr_add (begin v) index) NoArgs ;; Erase pos) (v, w)
      = Ok (v, w') (ptr_add (begin v) index) /\
      holds w' v xs.
Proof.
  intros T E w v xs index x Hv Hlt Hroom Hx Hmove Hassign.
  destruct (Emplace_before_ok w v xs index x Hv Hlt Hroom Hx Hmove Hassign)
    as (w1 & Hok & Hv1).
  destruct (Erase_ok w1 _ (take index xs) x (drop index xs) Hv1)
    as (w2 & Herase & Hv2 & _).
  { by apply shift_left_quiet_all. }
  rewrite length_take_le in Herase by lia.
  cbn [data_ size_ begin GetAddress] in Herase, Hv2.
  fold (begin v) in Herase.
  assert (Hback : MkVector (data_ v) (size_ v + 1 - 1) = v).
  { destruct v as [d n]. simpl. f_equal. lia. }
  rewrite Hback in Herase, Hv2. rewrite take_drop in Hv2.
  exists w2. split; [| exact Hv2].
  erewrite bind_ok by exact Hok. exact Herase.
Qed.

(** An instance of X23: an [int] is emplaced at index 1 of [[1, 2, 3]] and
    erased again. *)
Lemma Emplace_then_Erase_witness :
  exists w',
    (pos <- Emplace (Ptr 0 1) NoArgs ;; Erase pos)
      (vector_at 0 4 3, one_block 0 [Live 1; Live 2; Live 3; Raw]%Z)
    = Ok (vector_at 0 4 3, w') (Ptr 0 1) /\
    holds w' (vector_at 0 4 3) [1; 2; 3]%Z.
Proof.
  assert (Hv : holds (one_block 0 [Live 1; Live 2; Live 3; Raw]%Z)
                     (vector_at 0 4 3) [1; 2; 3]%Z)
    by (repeat split; vm_compute; try lia; reflexivity).
  destruct (Emplace_then_Erase Z int_element _ _ _ 1 0%Z Hv)
    as (w' & Hok & Hv'); try done; try (vm_compute; lia).
  exists w'. split; [exact Hok | exact Hv'].
Defined.

(** X24.  [Erase] needs a position before [end()].  At [end()] itself, on
    any vector, [std::move] is handed the range from [end() + 1] to [end()],
    which is no range (and on a vector without storage the last element is
    read at index [size_ - 1] with [size_ == 0]): the behaviour is
    undefined. *)
Theorem Erase_at_end_is_undefined :
  forall (T : Type) (E : Element T) (w : world) (v : Vector) (xs : list T),
    holds w v xs -> Erase (end_ v) (v, w) = Undefined.
Proof. intros T E w v xs Hv. by eapply Erase_end. Qed.

(** Instances of X24: [Erase(end())] on [[4, 9]] and on a default-constructed
    vector. *)
Lemma Erase_at_end_is_undefined_witness :
  Erase (Ptr 0 2) (vector_at 0 3 2, one_block 0 [Live 4; Live 9; Raw]%Z)
  = Undefined /\
  Erase Null (Vector_default, no_blocks (T := Z)) = Undefined.
Proof.
  split.
  - assert (Hv : holds (one_block 0 [Live 4; Live 9; Raw]%Z)
                       (vector_at 0 3 2) [4; 9]%Z)
      by (repeat split; vm_compute; try lia; reflexivity).
    exact (Erase_at_end_is_undefined Z int_element _ _ _ Hv).
  - assert (Hv : holds (no_blocks (T := Z)) Vector_default [])
      by (repeat split; vm_compute; try lia; reflexivity).
    exact (Erase_at_end_is_undefined Z int_element _ _ _ Hv).
Defined.

(** X25.  [Emplace(end())] without arguments, the one form of the call that
    compiles, on a vector that is not empty and has capacity to spare is
    undefined: after the last element has been move-constructed one slot on,
    [std::move_backward] is handed the range from [end()] to [end() - 1],
    which is no range.  The new element is never constructed. *)
Theorem Emplace_at_end_with_room_is_undefined :
  forall (T : Type) (E : Element T) (w : world) (v : Vector) (xs : list T)
         (z : T),
    holds w v (xs ++ [z]) -> size_ v < Capacity v -> move_throws z = false ->
    Emplace (end_ v) NoArgs (v, w) = Undefined.
Proof. intros T E w v xs z. apply Emplace_end_room. Qed.

(** An instance of X25: [Emplace(end())] on [[4, 9]] held in three slots. *)
Lemma Emplace_at_end_with_room_is_undefined_witness :
  Emplace (Ptr 0 2) NoArgs
    (vector_at 0 3 2, one_block 0 [Live 4; Live 9; Raw]%Z)
  = Undefined.
Proof.
  assert (Hv : holds (one_block 0 [Live 4; Live 9; Raw]%Z)
                     (vector_at 0 3 2) ([4] ++ [9])%Z)
    by (repeat split; vm_compute; try lia; reflexivity).
  apply (Emplace_at_end_with_room_is_undefined Z int_element _ _ _ _ Hv).
  - vm_compute. lia.
  - reflexivity.
Defined.
